(** * claude-max-proxy: a shallow embedding of [src/server.ts] and [src/auth.ts]

    The development follows the source files section by section:

    - JavaScript strings and the string methods the proxy calls
      ([split], [startsWith], [includes], [replace], [slice]);
    - the streaming UTF-8 [TextDecoder] used by the stream interceptor;
    - runtime values as [JSON.parse] builds them, with property
      access, truthiness and the [+] operator;
    - the statistics ledger ([stats], [recordRequest]);
    - the stream interceptor ([interceptStream]);
    - the request mutation steps of [messagesRelay] ([ensureSystem],
      the model alias rewrite, marker stripping, cache-control placement);
    - the token manager ([getAccessToken], [refreshToken]) as a
      transition system over the suspension points of the async code. *)

From Stdlib Require Import Strings.Ascii Strings.String.
From Stdlib Require Strings.Byte Numbers.DecimalString.
From Stdlib Require Import List ZArith NArith Lia Bool Arith.
From Equations Require Import Equations.
Import ListNotations.

Set Implicit Arguments.

(* ===================================================================== *)
(** * JavaScript strings *)
(* ===================================================================== *)

(** A JavaScript string is a sequence of UTF-16 code units. *)
Definition char16 := N.
Definition jsstring := list char16.

(** ASCII literals of the source, as code units. *)
Definition lit (s : String.string) : jsstring :=
  map N_of_ascii (String.list_ascii_of_string s).
Arguments lit s%_string.

(** The line feed, ["\n"] in the source. *)
Definition LF : char16 := 10%N.

Fixpoint str_eqb (s t : jsstring) : bool :=
  match s, t with
  | [], [] => true
  | c :: s', d :: t' => (c =? d)%N && str_eqb s' t'
  | _, _ => false
  end.

(** [s.startsWith(p)] *)
Fixpoint startsWith (s p : jsstring) {struct p} : bool :=
  match p, s with
  | [], _ => true
  | d :: p', c :: s' => (c =? d)%N && startsWith s' p'
  | _ :: _, [] => false
  end.

(** [s.indexOf(p)]; [None] stands for -1. *)
Fixpoint indexOf (s p : jsstring) : option nat :=
  if startsWith s p then Some 0
  else match s with
       | [] => None
       | _ :: s' => option_map S (indexOf s' p)
       end.

(** [s.includes(p)] *)
Definition includes (s p : jsstring) : bool :=
  match indexOf s p with Some _ => true | None => false end.

(** [s.replace(p, r)] with a string pattern: the first occurrence only.
    The replacements used by the proxy contain no [$] pattern. *)
Definition replace (s p r : jsstring) : jsstring :=
  match indexOf s p with
  | Some i => firstn i s ++ r ++ skipn (i + length p) s
  | None => s
  end.

(** [s.slice(n)] for a non-negative [n]. *)
Definition slice_from (n : nat) (s : jsstring) : jsstring := skipn n s.

(** A value together with the equation that names it. *)
Definition inspect {A} (x : A) : { y : A | x = y } := exist _ x eq_refl.

(** [s.split(sep)] without a limit.  An empty separator cuts between all
    code units; otherwise the occurrences of [sep] are found from left to
    right, each search resuming after the previous occurrence.  [split_ne]
    is the case of a separator [c :: sep'] that is not empty. *)
Equations? split_ne (c : char16) (sep' s : jsstring) : list jsstring
  by wf (length s) lt :=
  split_ne c sep' s with inspect (indexOf s (c :: sep')) := {
    | exist _ None _ => [s]
    | exist _ (Some i) _ =>
        firstn i s :: split_ne c sep' (skipn (i + length (c :: sep')) s) }.
Proof.
  rewrite length_skipn. simpl.
  assert (length s <> 0); [ | lia ].
  destruct s; simpl in *; [ discriminate | lia ].
Qed.

Definition split (s sep : jsstring) : list jsstring :=
  match sep with
  | [] => map (fun c => [c]) s
  | c :: sep' => split_ne c sep' s
  end.

(** [a.pop()]: the last element, [None] for [undefined] when there is
    none, and the array without it. *)
Definition pop {A} (l : list A) : option A * list A :=
  match rev l with
  | [] => (None, [])
  | x :: r => (Some x, rev r)
  end.

(** [a[n] = x] for an index within the array. *)
Fixpoint update_nth {A} (n : nat) (x : A) (l : list A) : list A :=
  match l, n with
  | [], _ => []
  | _ :: rest, O => x :: rest
  | y :: rest, S m => y :: update_nth m x rest
  end.


(* ===================================================================== *)
(** * The streaming UTF-8 decoder *)
(* ===================================================================== *)

(** [new TextDecoder()] decodes UTF-8, replaces malformed sequences by
    U+FFFD and drops one leading byte order mark.  With
    [{ stream: true }] a sequence cut by the end of a chunk stays pending
    inside the decoder.  The decoder is the byte-at-a-time machine of the
    Encoding Standard. *)
Module Utf8.

Local Open Scope N_scope.

Record decoder := {
  code_point : N;
  bytes_seen : N;
  bytes_needed : N;
  lower_boundary : N;
  upper_boundary : N
}.

Definition fresh : decoder :=
  {| code_point := 0; bytes_seen := 0; bytes_needed := 0;
     lower_boundary := 0x80; upper_boundary := 0xBF |}.

Definition REPLACEMENT : N := 0xFFFD.

Definition in_range (lo hi b : N) : bool := (lo <=? b) && (b <=? hi).

(** A byte read while no sequence is open. *)
Definition lead (b : N) : decoder * list N :=
  if b <=? 0x7F then (fresh, [b])
  else if in_range 0xC2 0xDF b then
    ({| code_point := N.land b 0x1F; bytes_seen := 0; bytes_needed := 1;
        lower_boundary := 0x80; upper_boundary := 0xBF |}, [])
  else if in_range 0xE0 0xEF b then
    ({| code_point := N.land b 0xF; bytes_seen := 0; bytes_needed := 2;
        lower_boundary := if b =? 0xE0 then 0xA0 else 0x80;
        upper_boundary := if b =? 0xED then 0x9F else 0xBF |}, [])
  else if in_range 0xF0 0xF4 b then
    ({| code_point := N.land b 0x7; bytes_seen := 0; bytes_needed := 3;
        lower_boundary := if b =? 0xF0 then 0x90 else 0x80;
        upper_boundary := if b =? 0xF4 then 0x8F else 0xBF |}, [])
  else (fresh, [REPLACEMENT]).

(** One byte: the new decoder state and the scalar values emitted.  A byte
    that cannot continue the open sequence closes it with an error and is
    read again as a lead byte. *)
Definition handler (d : decoder) (b : N) : decoder * list N :=
  if bytes_needed d =? 0 then lead b
  else if negb (in_range (lower_boundary d) (upper_boundary d) b) then
    let '(d', out) := lead b in (d', REPLACEMENT :: out)
  else
    let cp := N.lor (N.shiftl (code_point d) 6) (N.land b 0x3F) in
    let seen := bytes_seen d + 1 in
    if seen =? bytes_needed d then (fresh, [cp])
    else ({| code_point := cp; bytes_seen := seen;
             bytes_needed := bytes_needed d;
             lower_boundary := 0x80; upper_boundary := 0xBF |}, []).

(** A scalar value as UTF-16 code units. *)
Definition code_units (cp : N) : jsstring :=
  if cp <? 0x10000 then [cp]
  else let c := cp - 0x10000 in
       [0xD800 + N.shiftr c 10; 0xDC00 + N.land c 0x3FF].

(** The [TextDecoder] object: the decoder and its "BOM seen" flag. *)
Record TextDecoder := {
  utf8 : decoder;
  BOM_seen : bool
}.

Definition new_TextDecoder : TextDecoder :=
  {| utf8 := fresh; BOM_seen := false |}.

(** Serialising one scalar value: the first one of the stream is dropped
    when it is the byte order mark. *)
Definition emit (seen : bool) (cp : N) : bool * jsstring :=
  if seen then (true, code_units cp)
  else (true, if cp =? 0xFEFF then [] else code_units cp).

Fixpoint emit_all (seen : bool) (cps : list N) : bool * jsstring :=
  match cps with
  | [] => (seen, [])
  | cp :: rest =>
      let '(seen1, s1) := emit seen cp in
      let '(seen2, s2) := emit_all seen1 rest in
      (seen2, s1 ++ s2)
  end.

Definition decode_byte (t : TextDecoder) (b : Byte.byte)
  : TextDecoder * jsstring :=
  let '(d, cps) := handler (utf8 t) (Byte.to_N b) in
  let '(seen, s) := emit_all (BOM_seen t) cps in
  ({| utf8 := d; BOM_seen := seen |}, s).

(** [decoder.decode(value, { stream: true })] *)
Fixpoint decode (t : TextDecoder) (value : list Byte.byte)
  : TextDecoder * jsstring :=
  match value with
  | [] => (t, [])
  | b :: rest =>
      let '(t1, s1) := decode_byte t b in
      let '(t2, s2) := decode t1 rest in
      (t2, s1 ++ s2)
  end.

End Utf8.

(** ASCII text as the bytes of its UTF-8 encoding. *)
Definition bytes_of (s : String.string) : list Byte.byte :=
  String.list_byte_of_string s.
Arguments bytes_of s%_string.


(* ===================================================================== *)
(** * Runtime values *)
(* ===================================================================== *)

(** The values [JSON.parse] builds.  Numbers are integers (token counts,
    lengths, epoch milliseconds).  An object is the list of its
    properties in insertion order; an array carries, next to its items,
    the named properties assigned to it after parsing.  [undefined] is
    never a member of such a value: a property read yields an
    [option value], [None] standing for [undefined]. *)
#[local] Set Warnings "-register-all".
Inductive value : Type :=
| VNull
| VBool (b : bool)
| VNum (n : Z)
| VStr (s : jsstring)
| VArr (items : list value) (named : list (jsstring * value))
| VObj (props : list (jsstring * value)).

(** Abrupt completion: an exception thrown by the runtime. *)
Inductive completion (A : Type) : Type :=
| Normal (a : A)
| Throw (msg : String.string).
Arguments Normal {A} a.
Arguments Throw {A} msg%_string.

Definition bind {A B} (c : completion A) (k : A -> completion B)
  : completion B :=
  match c with
  | Normal a => k a
  | Throw m => Throw m
  end.

Notation "x <- c ;; k" := (bind c (fun x => k))
  (at level 61, c at next level, right associativity).
Notation "' p <- c ;; k" := (bind c (fun x => let 'p := x in k))
  (at level 61, p pattern, c at next level, right associativity).

Definition TypeError {A} : completion A := Throw "TypeError".

(** ** Property tables *)

Fixpoint lookup (k : jsstring) (ps : list (jsstring * value)) : option value :=
  match ps with
  | [] => None
  | (k', v) :: rest => if str_eqb k' k then Some v else lookup k rest
  end.

(** Assignment keeps the position of an existing property and appends a
    new one. *)
Fixpoint assign (k : jsstring) (v : value) (ps : list (jsstring * value))
  : list (jsstring * value) :=
  match ps with
  | [] => [(k, v)]
  | (k', v') :: rest =>
      if str_eqb k' k then (k', v) :: rest else (k', v') :: assign k v rest
  end.

Definition remove_key (k : jsstring) (ps : list (jsstring * value))
  : list (jsstring * value) :=
  filter (fun kv => negb (str_eqb (fst kv) k)) ps.

(** ** Conversions and operators *)

(** ToBoolean *)
Definition truthy (v : value) : bool :=
  match v with
  | VNull => false
  | VBool b => b
  | VNum n => negb (n =? 0)%Z
  | VStr s => match s with [] => false | _ => true end
  | VArr _ _ | VObj _ => true
  end.

Definition truthy_opt (o : option value) : bool :=
  match o with Some v => truthy v | None => false end.

(** [typeof v === "object"] (true of [null]) and [Array.isArray(v)]. *)
Definition is_object (v : value) : bool :=
  match v with VNull | VArr _ _ | VObj _ => true | _ => false end.

Definition isArray (v : value) : bool :=
  match v with VArr _ _ => true | _ => false end.

(** [v.k] on a receiver that is neither [null] nor [undefined].  Strings
    and arrays answer [length]; the proxy reads no other inherited
    property name and no index key by name. *)
Definition own (v : value) (k : jsstring) : option value :=
  match v with
  | VObj ps => lookup k ps
  | VArr items named =>
      if str_eqb k (lit "length") then Some (VNum (Z.of_nat (length items)))
      else lookup k named
  | VStr s =>
      if str_eqb k (lit "length") then Some (VNum (Z.of_nat (length s)))
      else None
  | _ => None
  end.

(** [v.k]: reading a property of [null] or [undefined] throws. *)
Definition member (o : option value) (k : jsstring)
  : completion (option value) :=
  match o with
  | None | Some VNull => TypeError
  | Some v => Normal (own v k)
  end.

(** [o?.k] *)
Definition chain (o : option value) (k : jsstring) : option value :=
  match o with
  | None | Some VNull => None
  | Some v => own v k
  end.

(** [o ?? d] *)
Definition nullish (o : option value) (d : value) : value :=
  match o with
  | None | Some VNull => d
  | Some v => v
  end.

(** [v.k = x] in strict mode: a primitive receiver throws.  The proxy
    never assigns [length] or an index of an array. *)
Definition set_member (v : value) (k : jsstring) (x : value)
  : completion value :=
  match v with
  | VObj ps => Normal (VObj (assign k x ps))
  | VArr items named => Normal (VArr items (assign k x named))
  | _ => TypeError
  end.

(** [delete v.k]: a no-op on a primitive, a throw on [null]. *)
Definition delete_member (v : value) (k : jsstring) : completion value :=
  match v with
  | VNull => TypeError
  | VObj ps => Normal (VObj (remove_key k ps))
  | VArr items named => Normal (VArr items (remove_key k named))
  | _ => Normal v
  end.

(** [o === "..."] against a string literal. *)
Definition is_str (o : option value) (s : jsstring) : bool :=
  match o with
  | Some (VStr t) => str_eqb t s
  | _ => false
  end.

(** Number to string, for integers. *)
Definition num_toString (n : Z) : jsstring :=
  lit (DecimalString.NilZero.string_of_int (Z.to_int n)).

(** [a.join(sep)] on strings. *)
Fixpoint join (sep : jsstring) (l : list jsstring) : jsstring :=
  match l with
  | [] => []
  | [s] => s
  | s :: rest => s ++ sep ++ join sep rest
  end.

(** ToString; an array joins its items with a comma, [null] items
    giving the empty string. *)
Fixpoint toString (v : value) : jsstring :=
  match v with
  | VNull => lit "null"
  | VBool true => lit "true"
  | VBool false => lit "false"
  | VNum n => num_toString n
  | VStr s => s
  | VArr items _ =>
      join (lit ",")
        (map (fun x => match x with VNull => [] | _ => toString x end) items)
  | VObj _ => lit "[object Object]"
  end.

(** ToNumber on the primitives that are not strings. *)
Definition toNumber (v : value) : Z :=
  match v with
  | VNum n => n
  | VBool true => 1
  | _ => 0
  end.

(** Whether ToPrimitive yields a string. *)
Definition to_primitive_is_string (v : value) : bool :=
  match v with VStr _ | VArr _ _ | VObj _ => true | _ => false end.

(** The [+] operator. *)
Definition js_plus (a b : value) : value :=
  if to_primitive_is_string a || to_primitive_is_string b
  then VStr (toString a ++ toString b)
  else VNum (toNumber a + toNumber b).

(** Shorthands for writing values. *)
Definition obj (ps : list (String.string * value)) : value :=
  VObj (map (fun kv => (lit (fst kv), snd kv)) ps).
Definition arr (items : list value) : value := VArr items [].
Definition str (s : String.string) : value := VStr (lit s).
Arguments str s%_string.

(* ===================================================================== *)
(** * Configuration *)
(* ===================================================================== *)

(** The module-level constants read from the environment at start-up. *)
Record config := {
  COMPACTION_ENABLED : bool;
  COMPACTION_TRIGGER : Z;
  CACHE_ENABLED : bool;
  CLEAR_TOOLS_ENABLED : bool;
  WEB_FETCH_ENABLED : bool;
  MAX_TOKENS_OVERRIDE : option Z;
  THINKING_LOG_ENABLED : bool
}.

(** The settings of a process started with an empty environment. *)
Definition default_config : config :=
  {| COMPACTION_ENABLED := true;
     COMPACTION_TRIGGER := 800000;
     CACHE_ENABLED := true;
     CLEAR_TOOLS_ENABLED := true;
     WEB_FETCH_ENABLED := true;
     MAX_TOKENS_OVERRIDE := None;
     THINKING_LOG_ENABLED := true |}.

(* ===================================================================== *)
(** * Request stats *)
(* ===================================================================== *)

Record RequestRecord := {
  ts : jsstring;
  model : value;
  messages : value;
  inputTokens : Z;
  outputTokens : value;
  cacheCreation : value;
  cacheRead : value;
  durationMs : Z;
  stopReason : value
}.

Record Stats := {
  totalRequests : Z;
  totalInputTokens : Z;
  totalOutputTokens : value;
  totalCacheCreation : value;
  totalCacheRead : value;
  recentRequests : list RequestRecord;
  activeRequests : Z
}.

Definition stats0 : Stats :=
  {| totalRequests := 0;
     totalInputTokens := 0;
     totalOutputTokens := VNum 0;
     totalCacheCreation := VNum 0;
     totalCacheRead := VNum 0;
     recentRequests := [];
     activeRequests := 0 |}.

Definition MAX_RECENT : nat := 20.

(** [a.unshift(x)] and [a.pop()] on the ring buffer. *)
Definition unshift {A} (x : A) (l : list A) : list A := x :: l.

Definition recordRequest (rec : RequestRecord) (stats : Stats) : Stats :=
  let recent := unshift rec (recentRequests stats) in
  {| totalRequests := totalRequests stats + 1;
     totalInputTokens := totalInputTokens stats + inputTokens rec;
     totalOutputTokens := js_plus (totalOutputTokens stats) (outputTokens rec);
     totalCacheCreation := js_plus (totalCacheCreation stats) (cacheCreation rec);
     totalCacheRead := js_plus (totalCacheRead stats) (cacheRead rec);
     recentRequests :=
       if MAX_RECENT <? length recent then snd (pop recent) else recent;
     activeRequests := activeRequests stats |}.

Definition set_activeRequests (n : Z) (stats : Stats) : Stats :=
  {| totalRequests := totalRequests stats;
     totalInputTokens := totalInputTokens stats;
     totalOutputTokens := totalOutputTokens stats;
     totalCacheCreation := totalCacheCreation stats;
     totalCacheRead := totalCacheRead stats;
     recentRequests := recentRequests stats;
     activeRequests := n |}.

(* ===================================================================== *)
(** * Stream interceptor *)
(* ===================================================================== *)

(** What [reader.read()] settles with: a chunk, the end of the stream, or
    a rejection. *)
Inductive read_result :=
| ReadChunk (value : list Byte.byte)
| ReadDone
| ReadFail (err : String.string).

(** A reading of the clock: [Date.now()] and [new Date().toISOString()]. *)
Record clock := {
  now : Z;
  nowISO : jsstring
}.

(** The downstream side of a [ReadableStream]: the chunks enqueued so far
    and whether the stream is still readable, closed or errored. *)
Inductive stream_state :=
| Readable
| Closed
| Errored (err : String.string).

Record controller := {
  queue : list (list Byte.byte);
  state : stream_state
}.

Definition enqueue (value : list Byte.byte) (c : controller) : controller :=
  {| queue := queue c ++ [value]; state := state c |}.
Definition close (c : controller) : controller :=
  {| queue := queue c; state := Closed |}.
Definition error (err : String.string) (c : controller) : controller :=
  {| queue := queue c; state := Errored err |}.


(** The variables [interceptStream] closes over.  The transcript log and
    the three variables that only feed it ([blockType], [toolName],
    [toolInput]) are not part of the embedding: every [log] call sits
    inside the [try] of its frame, after the usage assignments of its
    branch, so a failing log write changes neither the usage variables nor
    the forwarded bytes.  The consumer of the returned stream is taken to
    keep reading: cancellation by the client is not modelled. *)
Record closure := {
  decoder : Utf8.TextDecoder;
  buf : jsstring;
  reqModel : value;
  reqMsgCount : value;
  reqStart : Z;
  reqInputTokens : Z;
  reqOutputTokens : value;
  reqCacheCreation : value;
  reqCacheRead : value;
  reqStopReason : value
}.

Definition new_closure (model msgCount : value) (start : Z) : closure :=
  {| decoder := Utf8.new_TextDecoder;
     buf := [];
     reqModel := model;
     reqMsgCount := msgCount;
     reqStart := start;
     reqInputTokens := 0;
     reqOutputTokens := VNum 0;
     reqCacheCreation := VNum 0;
     reqCacheRead := VNum 0;
     reqStopReason := str "?" |}.

Definition set_text (d : Utf8.TextDecoder) (b : jsstring) (c : closure)
  : closure :=
  {| decoder := d; buf := b;
     reqModel := reqModel c; reqMsgCount := reqMsgCount c;
     reqStart := reqStart c;
     reqInputTokens := reqInputTokens c;
     reqOutputTokens := reqOutputTokens c;
     reqCacheCreation := reqCacheCreation c;
     reqCacheRead := reqCacheRead c;
     reqStopReason := reqStopReason c |}.

Definition set_usage (inp : Z) (out creation read stop : value) (c : closure)
  : closure :=
  {| decoder := decoder c; buf := buf c;
     reqModel := reqModel c; reqMsgCount := reqMsgCount c;
     reqStart := reqStart c;
     reqInputTokens := inp;
     reqOutputTokens := out;
     reqCacheCreation := creation;
     reqCacheRead := read;
     reqStopReason := stop |}.

(** The body of the [try] once [JSON.parse] has returned [data].  Reading
    [data.type] of [null] throws and the [catch] drops the frame. *)
Definition on_data (data : value) (c : closure) : closure :=
  match data with
  | VNull => c
  | _ =>
      let t := own data (lit "type") in
      if is_str t (lit "message_start") then
        let m := own data (lit "message") in
        let usage := chain m (lit "usage") in
        let inp := nullish (chain usage (lit "input_tokens")) (VNum 0) in
        set_usage
          (match inp with VNum n => n | _ => 0%Z end)
          (reqOutputTokens c)
          (nullish (chain usage (lit "cache_creation_input_tokens")) (VNum 0))
          (nullish (chain usage (lit "cache_read_input_tokens")) (VNum 0))
          (reqStopReason c)
          c
      else if is_str t (lit "message_delta") then
        match own data (lit "usage") with
        | Some u =>
            if truthy u then
              set_usage
                (reqInputTokens c)
                (nullish (own u (lit "output_tokens")) (VNum 0))
                (reqCacheCreation c)
                (reqCacheRead c)
                (nullish (chain (own data (lit "delta")) (lit "stop_reason"))
                         (str "?"))
                c
            else c
        | None => c
        end
      else c
  end.

Section Interceptor.

(** [JSON.parse]: [None] when it throws a [SyntaxError]. *)
Variable JSON_parse : jsstring -> option value.

(** One iteration of [for (const part of parts)]. *)
Definition on_part (c : closure) (part : jsstring) : closure :=
  match find (fun l => startsWith l (lit "data: ")) (split part [LF]) with
  | None => c
  | Some dataLine =>
      match JSON_parse (slice_from 6 dataLine) with
      | None => c
      | Some data => on_data data c
      end
  end.

(** The statements after [controller.enqueue(value)]. *)
Definition on_chunk (value : list Byte.byte) (c : closure) : closure :=
  let '(d, text) := Utf8.decode (decoder c) value in
  let parts := split (buf c ++ text) [LF; LF] in
  let '(tail, parts) := pop parts in
  let buf' := match tail with Some s => s | None => [] end in
  fold_left on_part parts (set_text d buf' c).

(** The record built in the [done] branch. *)
Definition usage_record (at_done : clock) (c : closure) : RequestRecord :=
  {| ts := nowISO at_done;
     model := reqModel c;
     messages := reqMsgCount c;
     inputTokens := reqInputTokens c;
     outputTokens := reqOutputTokens c;
     cacheCreation := reqCacheCreation c;
     cacheRead := reqCacheRead c;
     durationMs := now at_done - reqStart c;
     stopReason := reqStopReason c |}.

(** An intercepted response: the closure of [interceptStream], the
    controller of the stream it returned, and whether the [while] loop of
    [start] is still awaiting a read. *)
Record intercepted := {
  vars : closure;
  ctrl : controller;
  pumping : bool
}.

(** [interceptStream(body, model, msgCount)] up to the first
    [await reader.read()]. *)
Definition interceptStream (model msgCount : value) (t : clock)
    (stats : Stats) : Stats * intercepted :=
  (set_activeRequests (activeRequests stats + 1) stats,
   {| vars := new_closure model msgCount (now t);
      ctrl := {| queue := []; state := Readable |};
      pumping := true |}).

(** One turn of the loop: from the settlement of [reader.read()] to the
    next [await], or to the end of [start]. *)
Definition pump (t : clock) (r : read_result) (stats : Stats)
    (i : intercepted) : Stats * intercepted :=
  if pumping i then
    match r with
    | ReadDone =>
        (recordRequest (usage_record t (vars i))
           (set_activeRequests (activeRequests stats - 1) stats),
         {| vars := vars i; ctrl := close (ctrl i); pumping := false |})
    | ReadChunk value =>
        (stats,
         {| vars := on_chunk value (vars i);
            ctrl := enqueue value (ctrl i);
            pumping := true |})
    | ReadFail err =>
        (stats,
         {| vars := vars i; ctrl := error err (ctrl i); pumping := false |})
    end
  else (stats, i).


End Interceptor.

(* ===================================================================== *)
(** * The response side of [messagesRelay] *)
(* ===================================================================== *)

Section Relay.

Variable JSON_parse : jsstring -> option value.
Variable cfg : config.

(** The body handed to [new Response]: the intercepting stream, the
    upstream body itself, or [null]. *)
Inductive response_body :=
| Intercepted (i : intercepted)
| Upstream (c : controller)
| NoBody.

(** [body.stream === true] *)
Definition isStreaming (body : value) : bool :=
  match own body (lit "stream") with
  | Some (VBool true) => true
  | _ => false
  end.

(** The choice of [responseBody]; [has_body] tells whether [res.body] is
    a stream or [null]. *)
Definition messagesRelay_response (body : value) (has_body : bool) (t : clock)
    (stats : Stats) : Stats * response_body :=
  if THINKING_LOG_ENABLED cfg && isStreaming body && has_body then
    let '(stats', i) :=
      interceptStream
        (nullish (own body (lit "model")) (str "?"))
        (nullish (chain (own body (lit "messages")) (lit "length")) (VNum 0))
        t stats in
    (stats', Intercepted i)
  else
    (stats,
     if has_body then Upstream {| queue := []; state := Readable |}
     else NoBody).

(** The upstream body read directly by the consumer. *)
Definition upstream_read (r : read_result) (c : controller) : controller :=
  match state c with
  | Readable =>
      match r with
      | ReadChunk value => enqueue value c
      | ReadDone => close c
      | ReadFail err => error err c
      end
  | _ => c
  end.

Definition deliver (t : clock) (r : read_result) (stats : Stats)
    (b : response_body) : Stats * response_body :=
  match b with
  | Intercepted i =>
      let '(stats', i') := pump JSON_parse t r stats i in
      (stats', Intercepted i')
  | Upstream c => (stats, Upstream (upstream_read r c))
  | NoBody => (stats, NoBody)
  end.

(** The process: the ledger shared by all requests and the responses
    being relayed, oldest first.  The runtime runs one callback at a
    time, so the process moves by whole turns: a request reaching the
    end of [messagesRelay], or one [reader.read()] of one response
    settling. *)
Record server := {
  stats : Stats;
  responses : list response_body
}.

Definition server0 : server := {| stats := stats0; responses := [] |}.

Inductive turn :=
| Respond (body : value) (has_body : bool) (t : clock)
| Deliver (n : nat) (t : clock) (r : read_result).

Definition step (s : server) (e : turn) : server :=
  match e with
  | Respond body has_body t =>
      let '(stats', b) := messagesRelay_response body has_body t (stats s) in
      {| stats := stats'; responses := responses s ++ [b] |}
  | Deliver n t r =>
      match nth_error (responses s) n with
      | Some b =>
          let '(stats', b') := deliver t r (stats s) b in
          {| stats := stats'; responses := update_nth n b' (responses s) |}
      | None => s
      end
  end.

Definition exec (s : server) (es : list turn) : server := fold_left step es s.

End Relay.

(* ===================================================================== *)
(** * The request side of [messagesRelay] *)
(* ===================================================================== *)

Definition CC_SYSTEM : jsstring :=
  lit "You are Claude Code, Anthropic's official CLI for Claude.".

(** [{ type: "text", text }] and the marked block of the custom prompt. *)
Definition text_block (text : jsstring) : value :=
  VObj [(lit "type", str "text"); (lit "text", VStr text)].

Definition proxy_block (text : jsstring) : value :=
  VObj [(lit "type", str "text"); (lit "text", VStr text);
        (lit "_proxy", VBool true)].

(** [a.some(p)] with a callback that may throw: the scan stops at the
    first element the callback accepts. *)
Fixpoint some (p : value -> completion bool) (l : list value)
  : completion bool :=
  match l with
  | [] => Normal false
  | x :: rest => r <- p x ;; if r then Normal true else some p rest
  end.

(** [a.includes(s)] on an array, for a string [s]. *)
Definition array_includes (items : list value) (s : jsstring) : bool :=
  existsb (fun x => is_str (Some x) s) items.

(** [v?.includes(s)] as a condition: [undefined] when [v] is nullish, a
    [TypeError] when [v] has no [includes] method. *)
Definition opt_includes (v : option value) (s : jsstring) : completion bool :=
  match v with
  | None | Some VNull => Normal false
  | Some (VStr t) => Normal (includes t s)
  | Some (VArr items _) => Normal (array_includes items s)
  | Some _ => TypeError
  end.

(** [b.type === "text" && b.text?.includes(CC_SYSTEM)] *)
Definition is_identity_block (b : value) : completion bool :=
  t <- member (Some b) (lit "type") ;;
  if is_str t (lit "text") then opt_includes (own b (lit "text")) CC_SYSTEM
  else Normal false.

(** [b.type === "text" && b._proxy === true] *)
Definition is_proxy_block (b : value) : completion bool :=
  t <- member (Some b) (lit "type") ;;
  Normal (is_str t (lit "text") &&
          match own b (lit "_proxy") with
          | Some (VBool true) => true
          | _ => false
          end).

(** [a.splice(1, 0, x)] *)
Definition splice_1_0 {A} (x : A) (l : list A) : list A :=
  firstn 1 l ++ x :: skipn 1 l.

(** [ensureSystem(body)]; [custom] is what [getCustomSystem()] returned,
    a non-empty string or [null]. *)
Definition ensureSystem (custom : option jsstring) (body : value)
  : completion value :=
  system <- member (Some body) (lit "system") ;;
  body <- (if negb (truthy_opt system)
           then set_member body (lit "system") (arr [])
           else match system with
                | Some (VStr s) =>
                    set_member body (lit "system") (arr [text_block s])
                | _ => Normal body
                end) ;;
  match own body (lit "system") with
  | Some (VArr items named) =>
      hasAuth <- some is_identity_block items ;;
      let items := if hasAuth then items
                   else unshift (text_block CC_SYSTEM) items in
      items <- match custom with
               | Some (c :: text) =>
                   hasCustom <- some is_proxy_block items ;;
                   Normal (if hasCustom then items
                           else splice_1_0 (proxy_block (c :: text)) items)
               | _ => Normal items
               end ;;
      set_member body (lit "system") (VArr items named)
  | _ => TypeError
  end.

(** [if (body.model?.includes("[1m]")) body.model = body.model.replace("[1m]", "")] *)
Definition strip_model_suffix (body : value) : completion value :=
  has <- opt_includes (own body (lit "model")) (lit "[1m]") ;;
  if has then
    match own body (lit "model") with
    | Some (VStr s) =>
        set_member body (lit "model") (VStr (replace s (lit "[1m]") []))
    | _ => TypeError
    end
  else Normal body.

(** [for (const block of body.system) delete block._proxy] *)
Fixpoint delete_proxy (blocks : list value) : completion (list value) :=
  match blocks with
  | [] => Normal []
  | b :: rest =>
      b' <- delete_member b (lit "_proxy") ;;
      rest' <- delete_proxy rest ;;
      Normal (b' :: rest')
  end.

Definition strip_markers (body : value) : completion value :=
  match own body (lit "system") with
  | Some (VArr items named) =>
      items' <- delete_proxy items ;;
      set_member body (lit "system") (VArr items' named)
  | _ => Normal body
  end.

(** ** Prompt caching *)

Definition MAX_CACHE_BLOCKS : nat := 4.

Definition ephemeral : value := obj [("type"%string, str "ephemeral")].

Fixpoint countCache (obj : value) : nat :=
  match obj with
  | VArr items named =>
      (if truthy_opt (lookup (lit "cache_control") named) then 1 else 0)
      + list_sum (map countCache items)
  | VObj props =>
      (if truthy_opt (lookup (lit "cache_control") props) then 1 else 0)
      + list_sum (map (fun kv =>
                         if truthy (snd kv) && is_object (snd kv)
                         then countCache (snd kv) else 0) props)
  | _ => 0
  end.

(** [countCache(body.k)], the property possibly [undefined]. *)
Definition countCache_of (body : value) (k : jsstring) : nat :=
  match own body k with
  | Some v => countCache v
  | None => 0
  end.

(** [countCache(body.system) + countCache(body.messages) + countCache(body.tools)] *)
Definition cache_total (body : value) : nat :=
  countCache_of body (lit "system")
  + countCache_of body (lit "messages")
  + countCache_of body (lit "tools").

(** The inner statement of both placement blocks, on the array [body.k]:
    [if (!a[a.length - 1].cache_control) a[a.length - 1].cache_control = {...}].
    The boolean tells whether the assignment ran. *)
Definition mark_last (items : list value) : completion (bool * list value) :=
  match pop items with
  | (Some last, init) =>
      c <- member (Some last) (lit "cache_control") ;;
      if negb (truthy_opt c) then
        last' <- set_member last (lit "cache_control") ephemeral ;;
        Normal (true, init ++ [last'])
      else Normal (false, items)
  | (None, _) => TypeError
  end.

(** [existing < MAX_CACHE_BLOCKS && Array.isArray(body.k) && body.k.length > 0] *)
Definition may_mark (existing : nat) (body : value) (k : jsstring)
  : option (list value * list (jsstring * value)) :=
  match own body k with
  | Some (VArr items named) =>
      if (existing <? MAX_CACHE_BLOCKS) && (0 <? length items)
      then Some (items, named) else None
  | _ => None
  end.

(** The block guarded by [if (CACHE_ENABLED)]. *)
Definition place_cache_control (body : value) : completion value :=
  let existing := cache_total body in
  '(existing, body) <-
     match may_mark existing body (lit "system") with
     | Some (items, named) =>
         '(marked, items') <- mark_last items ;;
         body' <- set_member body (lit "system") (VArr items' named) ;;
         Normal (if marked : bool then existing + 1 else existing, body')
     | None => Normal (existing, body)
     end ;;
  match may_mark existing body (lit "tools") with
  | Some (items, named) =>
      '(_, items') <- mark_last items ;;
      set_member body (lit "tools") (VArr items' named)
  | None => Normal body
  end.

(** ** The remaining body mutations *)

(** [if (MAX_TOKENS_OVERRIDE) body.max_tokens = MAX_TOKENS_OVERRIDE] *)
Definition override_max_tokens (cfg : config) (body : value)
  : completion value :=
  match MAX_TOKENS_OVERRIDE cfg with
  | Some n => if truthy (VNum n)
              then set_member body (lit "max_tokens") (VNum n)
              else Normal body
  | None => Normal body
  end.

(** [e.type === ty] as a callback of [some]. *)
Definition has_type (ty : jsstring) (e : value) : completion bool :=
  t <- member (Some e) (lit "type") ;;
  Normal (is_str t ty).

Definition compact_edit (cfg : config) : value :=
  obj [("type"%string, str "compact_20260112");
       ("trigger"%string,
        obj [("type"%string, str "input_tokens");
             ("value"%string, VNum (COMPACTION_TRIGGER cfg))])].

Definition clear_tools_edit : value :=
  obj [("type"%string, str "clear_tool_uses_20250919")].

(** [if (enabled && !edits.some(e => e.type === ty)) edits.push(edit)] *)
Definition push_unless_typed (enabled : bool) (ty : jsstring) (edit : value)
    (edits : list value) : completion (list value) :=
  if enabled then
    has <- some (has_type ty) edits ;;
    Normal (if has then edits else edits ++ [edit])
  else Normal edits.

(** [(body.model ?? "").includes("opus")] *)
Definition isOpus (body : value) : completion bool :=
  opt_includes (Some (nullish (own body (lit "model")) (VStr [])))
               (lit "opus").

Definition manage_context (cfg : config) (body : value) : completion value :=
  opus <- isOpus body ;;
  if opus then
    body <- (if negb (truthy_opt (own body (lit "context_management")))
             then set_member body (lit "context_management")
                    (obj [("edits"%string, arr [])])
             else Normal body) ;;
    match own body (lit "context_management") with
    | Some cm =>
        cm <- (match own cm (lit "edits") with
               | Some (VArr _ _) => Normal cm
               | _ => set_member cm (lit "edits") (arr [])
               end) ;;
        match own cm (lit "edits") with
        | Some (VArr edits named) =>
            edits <- push_unless_typed (COMPACTION_ENABLED cfg)
                       (lit "compact_20260112") (compact_edit cfg) edits ;;
            edits <- push_unless_typed (CLEAR_TOOLS_ENABLED cfg)
                       (lit "clear_tool_uses_20250919") clear_tools_edit edits ;;
            cm <- set_member cm (lit "edits") (VArr edits named) ;;
            set_member body (lit "context_management") cm
        | _ => TypeError
        end
    | None => TypeError
    end
  else Normal body.

Definition web_fetch_tool : value :=
  obj [("type"%string, str "web_fetch_20250910");
       ("name"%string, str "web_fetch");
       ("max_uses"%string, VNum 5)].

Definition inject_web_fetch (cfg : config) (body : value) : completion value :=
  if WEB_FETCH_ENABLED cfg then
    body <- (match own body (lit "tools") with
             | Some (VArr _ _) => Normal body
             | _ => set_member body (lit "tools") (arr [])
             end) ;;
    match own body (lit "tools") with
    | Some (VArr tools named) =>
        tools <- push_unless_typed true (lit "web_fetch_20250910")
                   web_fetch_tool tools ;;
        set_member body (lit "tools") (VArr tools named)
    | _ => TypeError
    end
  else Normal body.

(** The statements of [messagesRelay] between [c.req.json()] and
    [JSON.stringify(body)]: the body handed to [fetch], or the exception
    that ends the request. *)
Definition messagesRelay_body (cfg : config) (custom : option jsstring) (body : value)
  : completion value :=
  body <- ensureSystem custom body ;;
  body <- strip_model_suffix body ;;
  body <- strip_markers body ;;
  body <- (if CACHE_ENABLED cfg then place_cache_control body
           else Normal body) ;;
  body <- override_max_tokens cfg body ;;
  body <- manage_context cfg body ;;
  inject_web_fetch cfg body.

(* ===================================================================== *)
(** * Token manager ([src/auth.ts]) *)
(* ===================================================================== *)

(** The runtime runs one callback at a time and an [async] function gives
    up control only at an [await].  The manager is therefore a transition
    system whose turns are the stretches of code between two suspension
    points: the call of [getAccessToken] up to its first [await] or its
    [return], and the resumption of a suspended call of [getAccessToken] or
    of [refreshToken] when the operation it awaits settles. *)
Module Auth.

Definition EXPIRY_BUFFER_MS : Z := 60000.

(** [auth.anthropic] *)
Record AuthData := {
  type : jsstring;
  access : jsstring;
  refresh : jsstring;
  expires : Z
}.

(** [process.env.CLAUDE_OAUTH_TOKEN] and [process.env.CLAUDE_OAUTH_REFRESH];
    [None] for a variable that is unset or empty. *)
Record env := {
  CLAUDE_OAUTH_TOKEN : option jsstring;
  CLAUDE_OAUTH_REFRESH : option jsstring
}.

(** What a promise of a token settles with. *)
Inductive outcome :=
| Resolved (token : jsstring)
| Rejected (error : String.string).

(** Where a call of [refreshToken] stands: awaiting [fetch], [res.text()],
    [res.json()] or [writeAuth]; settled, the [finally] callback still to
    run; or finalised, the callback having run. *)
Inductive refresh_pc :=
| AwaitFetch
| AwaitText (status : Z)
| AwaitJson
| AwaitWrite
| Settled (r : outcome)
| Finalised (r : outcome).

(** One call of [refreshToken]: the object it was given and its position. *)
Record refresh_op := {
  auth : nat;
  pc : refresh_pc
}.

(** Where a call of [getAccessToken] stands: awaiting [readAuth], returned
    with the cached token, returned with the promise stored in
    [refreshing] by refresh number [op], or thrown out of [readAuth]. *)
Inductive caller :=
| ReadingAuth
| Returned (token : jsstring)
| Following (op : nat)
| ReadFailed (error : String.string).

(** The module state.  [heap] holds the [AuthData] objects; [cached] and
    the [auth] of a refresh are references into it, so that the in-place
    update made by [refreshToken] is seen through [cached].  [fetches] lists
    the refresh tokens posted to the token endpoint, [writes] the objects
    written to the credential file. *)
Record state := {
  heap : list AuthData;
  cached : option nat;
  refreshing : option nat;
  envTokenExpires : Z;
  ops : list refresh_op;
  callers : list caller;
  fetches : list jsstring;
  writes : list AuthData
}.

Definition init : state :=
  {| heap := []; cached := None; refreshing := None; envTokenExpires := 0;
     ops := []; callers := []; fetches := []; writes := [] |}.

(** The JSON body of a successful token response. *)
Record token_response := {
  access_token : jsstring;
  refresh_token : option jsstring;
  expires_in : Z
}.

(** The turns. *)
Inductive turn :=
| Call (now : Z)
| ReadAuthDone (c : nat) (r : AuthData + String.string) (now : Z)
| FetchDone (op : nat) (r : (bool * Z) + String.string)
| TextDone (op : nat) (r : String.string + String.string)
| JsonDone (op : nat) (r : token_response + String.string) (now : Z)
| WriteDone (op : nat) (r : option String.string)
| Finally (op : nat).

Definition no_token : AuthData :=
  {| type := []; access := []; refresh := []; expires := 0 |}.

Definition deref (s : state) (r : nat) : AuthData := nth r (heap s) no_token.

(** [initFromEnv()] *)
Definition initFromEnv (e : env) (now : Z) : option AuthData :=
  match CLAUDE_OAUTH_TOKEN e with
  | None => None
  | Some a =>
      Some {| type := lit "oauth";
              access := a;
              refresh := match CLAUDE_OAUTH_REFRESH e with
                         | Some r => r
                         | None => []
                         end;
              expires := now + 3600000 |}
  end.

(** State updates. *)
Definition alloc (a : AuthData) (s : state) : state * nat :=
  ({| heap := heap s ++ [a]; cached := cached s; refreshing := refreshing s;
      envTokenExpires := envTokenExpires s;
      ops := ops s; callers := callers s; fetches := fetches s;
      writes := writes s |},
   length (heap s)).

Definition set_heap (h : list AuthData) (s : state) : state :=
  {| heap := h; cached := cached s; refreshing := refreshing s;
     envTokenExpires := envTokenExpires s;
     ops := ops s; callers := callers s; fetches := fetches s;
     writes := writes s |}.

Definition set_cached (r : nat) (s : state) : state :=
  {| heap := heap s; cached := Some r; refreshing := refreshing s;
     envTokenExpires := envTokenExpires s;
     ops := ops s; callers := callers s; fetches := fetches s;
     writes := writes s |}.

Definition set_refreshing (o : option nat) (s : state) : state :=
  {| heap := heap s; cached := cached s; refreshing := o;
     envTokenExpires := envTokenExpires s;
     ops := ops s; callers := callers s; fetches := fetches s;
     writes := writes s |}.

Definition set_envTokenExpires (t : Z) (s : state) : state :=
  {| heap := heap s; cached := cached s; refreshing := refreshing s;
     envTokenExpires := t;
     ops := ops s; callers := callers s; fetches := fetches s;
     writes := writes s |}.

Definition set_ops (l : list refresh_op) (s : state) : state :=
  {| heap := heap s; cached := cached s; refreshing := refreshing s;
     envTokenExpires := envTokenExpires s;
     ops := l; callers := callers s; fetches := fetches s;
     writes := writes s |}.

Definition set_callers (l : list caller) (s : state) : state :=
  {| heap := heap s; cached := cached s; refreshing := refreshing s;
     envTokenExpires := envTokenExpires s;
     ops := ops s; callers := l; fetches := fetches s;
     writes := writes s |}.

Definition add_fetch (refresh_token : jsstring) (s : state) : state :=
  {| heap := heap s; cached := cached s; refreshing := refreshing s;
     envTokenExpires := envTokenExpires s;
     ops := ops s; callers := callers s;
     fetches := fetches s ++ [refresh_token];
     writes := writes s |}.

Definition add_write (a : AuthData) (s : state) : state :=
  {| heap := heap s; cached := cached s; refreshing := refreshing s;
     envTokenExpires := envTokenExpires s;
     ops := ops s; callers := callers s; fetches := fetches s;
     writes := writes s ++ [a] |}.

Definition set_pc (op : nat) (p : refresh_pc) (s : state) : state :=
  match nth_error (ops s) op with
  | Some o => set_ops (update_nth op {| auth := auth o; pc := p |} (ops s)) s
  | None => s
  end.

Definition pc_of (s : state) (op : nat) : option refresh_pc :=
  option_map pc (nth_error (ops s) op).

(** The message of the error thrown on a response that is not ok. *)
Definition refresh_failed (status : Z) (text : String.string) : String.string :=
  String.append "Token refresh failed ("
    (String.append (DecimalString.NilZero.string_of_int (Z.to_int status))
       (String.append "): " text)).

Definition no_refresh_token : String.string :=
  "No refresh token available. Set CLAUDE_OAUTH_REFRESH env var.".

Section Manager.

Variable e : env.

(** [refreshToken(auth)] up to its first [await], or to its [throw]: the
    new refresh is appended to [ops]. *)
Definition refreshToken (a : nat) (s : state) : state * nat :=
  let op := length (ops s) in
  match refresh (deref s a) with
  | [] =>
      (set_ops (ops s ++ [{| auth := a;
                             pc := Settled (Rejected no_refresh_token) |}]) s,
       op)
  | r =>
      (add_fetch r (set_ops (ops s ++ [{| auth := a; pc := AwaitFetch |}]) s),
       op)
  end.

(** [getAccessToken] from the expiry test to its [return]; [c] is the
    object [cached] refers to. *)
Definition check (now : Z) (c : nat) (s : state) : state * caller :=
  if (now <? expires (deref s c) - EXPIRY_BUFFER_MS)%Z
  then (s, Returned (access (deref s c)))
  else
    match refreshing s with
    | Some op => (s, Following op)
    | None =>
        let '(s', op) := refreshToken c s in
        (set_refreshing (Some op) s', Following op)
    end.

Definition add_caller (c : caller) (s : state) : state :=
  set_callers (callers s ++ [c]) s.

(** [getAccessToken()] up to its first suspension or its [return]; the
    new caller is appended to [callers]. *)
Definition getAccessToken (now : Z) (s : state) : state :=
  match cached s with
  | Some r => let '(s', c) := check now r s in add_caller c s'
  | None =>
      match initFromEnv e now with
      | Some a =>
          let '(s1, r) := alloc a (set_envTokenExpires (now + 3600000) s) in
          let '(s2, c) := check now r (set_cached r s1) in
          add_caller c s2
      | None => add_caller ReadingAuth s
      end
  end.

(** [writeAuth(auth)] up to its [await] or [return]. *)
Definition writeAuth (a : AuthData) (s : state) : state :=
  match CLAUDE_OAUTH_TOKEN e with
  | Some _ => s
  | None => add_write a s
  end.

Definition step (s : state) (t : turn) : state :=
  match t with
  | Call now => getAccessToken now s
  | ReadAuthDone c r now =>
      match nth_error (callers s) c with
      | Some ReadingAuth =>
          match r with
          | inl a =>
              let '(s1, ref) := alloc a s in
              let '(s2, c') := check now ref (set_cached ref s1) in
              set_callers (update_nth c c' (callers s2)) s2
          | inr err =>
              set_callers (update_nth c (ReadFailed err) (callers s)) s
          end
      | _ => s
      end
  | FetchDone op r =>
      match pc_of s op with
      | Some AwaitFetch =>
          match r with
          | inl (true, _) => set_pc op AwaitJson s
          | inl (false, status) => set_pc op (AwaitText status) s
          | inr err => set_pc op (Settled (Rejected err)) s
          end
      | _ => s
      end
  | TextDone op r =>
      match pc_of s op with
      | Some (AwaitText status) =>
          match r with
          | inl text =>
              set_pc op (Settled (Rejected (refresh_failed status text))) s
          | inr err => set_pc op (Settled (Rejected err)) s
          end
      | _ => s
      end
  | JsonDone op r now =>
      match nth_error (ops s) op with
      | Some {| auth := a; pc := AwaitJson |} =>
          match r with
          | inl data =>
              let old := deref s a in
              let new :=
                {| type := type old;
                   access := access_token data;
                   refresh := match refresh_token data with
                              | Some (c :: t) => c :: t
                              | _ => refresh old
                              end;
                   expires := now + expires_in data * 1000 |} in
              set_pc op AwaitWrite
                (writeAuth new (set_heap (update_nth a new (heap s)) s))
          | inr err => set_pc op (Settled (Rejected err)) s
          end
      | _ => s
      end
  | WriteDone op r =>
      match nth_error (ops s) op with
      | Some {| auth := a; pc := AwaitWrite |} =>
          match r with
          | None =>
              set_pc op (Settled (Resolved (access (deref s a))))
                (set_cached a s)
          | Some err => set_pc op (Settled (Rejected err)) s
          end
      | _ => s
      end
  | Finally op =>
      match pc_of s op with
      | Some (Settled r) => set_refreshing None (set_pc op (Finalised r) s)
      | _ => s
      end
  end.

Definition exec (s : state) (ts : list turn) : state := fold_left step ts s.

(** What the promise returned to caller [c] has settled with, if it has. *)
Definition result (s : state) (c : nat) : option outcome :=
  match nth_error (callers s) c with
  | Some (Returned t) => Some (Resolved t)
  | Some (ReadFailed err) => Some (Rejected err)
  | Some (Following op) =>
      match pc_of s op with
      | Some (Finalised r) => Some r
      | _ => None
      end
  | _ => None
  end.

(** A refresh is outstanding from its start until its [finally] callback
    has run. *)
Definition outstanding (s : state) (op : nat) : bool :=
  match pc_of s op with
  | Some (Finalised _) | None => false
  | Some _ => true
  end.

End Manager.

End Auth.


(* ===================================================================== *)
(** * Vocabulary of the statements *)
(* ===================================================================== *)

Unset Implicit Arguments.

(** The ledger after a sequence of [recordRequest] calls. *)
Definition record_all (recs : list RequestRecord) (stats : Stats) : Stats :=
  fold_left (fun st rec => recordRequest rec st) recs stats.

(** A step [f] of the pipeline leaves property [k] of the body alone. *)
Definition keeps (k : jsstring) (f : value -> completion value) : Prop :=
  forall b b', f b = Normal b' -> own b' k = own b k.

(** The separator of server-sent events, ["\n\n"]. *)
Definition BLANK_LINE : jsstring := [LF; LF].

(** The frames of a text, those pieces that are followed by the blank-line
    separator, and the fragment left after the last separator. *)
Definition frames (text : jsstring) : list jsstring :=
  snd (pop (split text BLANK_LINE)).

Definition fragment (text : jsstring) : jsstring :=
  match fst (pop (split text BLANK_LINE)) with
  | Some s => s
  | None => []
  end.

(** The text a fresh decoder produces from a whole byte stream, and the
    decoder it leaves. *)
Definition decoded (stream : list Byte.byte) : jsstring :=
  snd (Utf8.decode Utf8.new_TextDecoder stream).


(** The reads of an upstream body that delivers [chunks] and then ends. *)
Definition completed (chunks : list (list Byte.byte)) : list read_result :=
  map ReadChunk chunks ++ [ReadDone].




(** ** Sample documents *)

(** The compact JSON text of a value whose strings need no escape. *)
Definition QUOTE : char16 := 34%N.

Definition quoted (s : jsstring) : jsstring := QUOTE :: s ++ [QUOTE].

Fixpoint json_text (v : value) : jsstring :=
  match v with
  | VNull => lit "null"
  | VBool true => lit "true"
  | VBool false => lit "false"
  | VNum n => num_toString n
  | VStr s => quoted s
  | VArr items _ => lit "[" ++ join (lit ",") (map json_text items) ++ lit "]"
  | VObj props =>
      lit "{"
      ++ join (lit ",")
           (map (fun kv => quoted (fst kv) ++ lit ":" ++ json_text (snd kv))
                props)
      ++ lit "}"
  end.

(** [JSON.parse] restricted to the texts of the documents [docs]; any other
    text is a syntax error. *)
Definition parse_only (docs : list value) (s : jsstring) : option value :=
  find (fun v => str_eqb (json_text v) s) docs.

(** The bytes of an ASCII text. *)
Definition ascii_bytes (s : jsstring) : list Byte.byte :=
  map (fun c => match Byte.of_N c with Some b => b | None => Byte.x3f end) s.

(** The frame of one server-sent event, without its separator. *)
Definition event_frame (name : String.string) (data : value) : jsstring :=
  lit "event: " ++ lit name ++ [LF] ++ lit "data: " ++ json_text data.

(** The events of the example of the specification. *)
Definition message_start_event : value :=
  obj [("type"%string, str "message_start");
       ("message"%string,
        obj [("model"%string, str "claude-opus-4-6");
             ("usage"%string,
              obj [("input_tokens"%string, VNum 100);
                   ("cache_read_input_tokens"%string, VNum 20)])])].

Definition message_delta_event : value :=
  obj [("type"%string, str "message_delta");
       ("delta"%string, obj [("stop_reason"%string, str "end_turn")]);
       ("usage"%string, obj [("output_tokens"%string, VNum 7)])].


Definition sample_clock (ms : Z) : clock :=
  {| now := ms; nowISO := lit "2026-01-01T00:00:00.000Z" |}.

(** The consumer reading a relayed response to its end. *)
Fixpoint deliver_all (JSON_parse : jsstring -> option value) (t : clock)
    (reads : list read_result) (stats : Stats) (b : response_body)
  : Stats * response_body :=
  match reads with
  | [] => (stats, b)
  | r :: rest =>
      let '(stats', b') := deliver JSON_parse t r stats b in
      deliver_all JSON_parse t rest stats' b'
  end.


(** Intercepted responses whose loop still awaits a read, and those whose
    loop ended in the [catch] branch. *)
Definition in_flight (b : response_body) : bool :=
  match b with
  | Intercepted i => pumping i
  | _ => false
  end.


Definition count {A} (p : A -> bool) (l : list A) : Z :=
  Z.of_nat (length (filter p l)).

Definition text_delta_event (text : String.string) : value :=
  obj [("type"%string, str "content_block_delta");
       ("index"%string, VNum 0);
       ("delta"%string,
        obj [("type"%string, str "text_delta"); ("text"%string, str text)])].

Definition full_parse : jsstring -> option value :=
  parse_only [message_start_event; text_delta_event "ab";
              text_delta_event "cd"; message_delta_event].

(** The stream of the example of the specification: four events, each
    followed by a blank line. *)
Definition sample_stream : list Byte.byte :=
  ascii_bytes
    (event_frame "message_start" message_start_event ++ BLANK_LINE
     ++ event_frame "content_block_delta" (text_delta_event "ab") ++ BLANK_LINE
     ++ event_frame "content_block_delta" (text_delta_event "cd") ++ BLANK_LINE
     ++ event_frame "message_delta" message_delta_event ++ BLANK_LINE).

(** The same stream cut in the middle of a line, in the middle of a
    separator and in the middle of a frame. *)
Definition sample_chunks : list (list Byte.byte) :=
  [firstn 10 sample_stream;
   firstn 138 (skipn 10 sample_stream);
   firstn 152 (skipn 148 sample_stream);
   skipn 300 sample_stream].

Definition streaming_body : value :=
  obj [("model"%string, str "claude-opus-4-6");
       ("stream"%string, VBool true);
       ("messages"%string,
        arr [obj [("role"%string, str "user");
                  ("content"%string, str "hi")]])].



(** What one property contributes to [countCache] of its object. *)
Definition nested_count (kv : jsstring * value) : nat :=
  if truthy (snd kv) && is_object (snd kv) then countCache (snd kv) else 0.

(** The annotation count of the body a step returned. *)
Definition cache_total_of (r : completion value) : option nat :=
  match r with
  | Normal body => Some (cache_total body)
  | Throw _ => None
  end.

(** The [system] blocks of the body a step returned. *)
Definition system_of (r : completion value) : option value :=
  match r with
  | Normal body => own body (lit "system")
  | Throw _ => None
  end.

(** A content block carrying its own annotation. *)
Definition cached_text (text : String.string) : value :=
  obj [("type"%string, str "text"); ("text"%string, str text);
       ("cache_control"%string, ephemeral)].

Definition user_message (content : list value) : value :=
  obj [("role"%string, str "user"); ("content"%string, arr content)].

Definition tool (name : String.string) : value :=
  obj [("name"%string, str name);
       ("input_schema"%string, obj [("type"%string, str "object")])].

(** A request that arrives with three annotations, and one with five. *)
Definition three_marks_body : value :=
  obj [("model"%string, str "claude-sonnet-4-5");
       ("system"%string, arr [text_block CC_SYSTEM]);
       ("messages"%string,
        arr [user_message [cached_text "a"; cached_text "b"; cached_text "c"]]);
       ("tools"%string, arr [tool "bash"])].

Definition five_marks_body : value :=
  obj [("model"%string, str "claude-sonnet-4-5");
       ("system"%string, arr [text_block CC_SYSTEM]);
       ("messages"%string,
        arr [user_message [cached_text "a"; cached_text "b"; cached_text "c";
                           cached_text "d"; cached_text "e"]]);
       ("tools"%string, arr [tool "bash"])].

(** A request whose system prompt is the identity block alone. *)
Definition identity_body : value :=
  obj [("model"%string, str "claude-sonnet-4-5");
       ("system"%string, arr [text_block CC_SYSTEM])].

(** ** Token manager *)



(** The network calls a refresh of credential [a] issues. *)
Definition refresh_calls (a : Auth.AuthData) : list jsstring :=
  match Auth.refresh a with
  | [] => []
  | r => [r]
  end.

(** An environment that supplies both tokens, and one that supplies the
    access token alone. *)
Definition env_with_refresh : Auth.env :=
  {| Auth.CLAUDE_OAUTH_TOKEN := Some (lit "access-0");
     Auth.CLAUDE_OAUTH_REFRESH := Some (lit "refresh-0") |}.

Definition env_without_refresh : Auth.env :=
  {| Auth.CLAUDE_OAUTH_TOKEN := Some (lit "access-0");
     Auth.CLAUDE_OAUTH_REFRESH := None |}.

Definition new_tokens : Auth.token_response :=
  {| Auth.access_token := lit "access-1";
     Auth.refresh_token := Some (lit "refresh-1");
     Auth.expires_in := 3600 |}.




Definition joined_refresh : list Auth.turn :=
  [Auth.Call 3540001;
   Auth.Call 3540002;
   Auth.FetchDone 0 (inl (true, 200%Z));
   Auth.Call 3540003;
   Auth.JsonDone 0 (inl new_tokens) 3541000;
   Auth.WriteDone 0 None].

(* ===================================================================== *)
(** * Further parts of the program and the vocabulary of their statements *)
(* ===================================================================== *)

(** The top-level properties [messagesRelay] may assign. *)
Definition assigned_keys : list jsstring :=
  [lit "system"; lit "model"; lit "tools"; lit "max_tokens";
   lit "context_management"].

Definition is_assigned_key (k : jsstring) : bool :=
  existsb (str_eqb k) assigned_keys.

(** No block of a list carries the internal marker. *)
Definition unmarked (blocks : list value) : Prop :=
  Forall (fun b => own b (lit "_proxy") = None) blocks.

(** How a block may differ between two stages of the pipeline: not at
    all, by the loss of its marker, or by a cache-control marker it has
    been given. *)
Definition retouched (b b' : value) : Prop :=
  b' = b \/
  delete_member b (lit "_proxy") = Normal b' \/
  set_member b (lit "cache_control") ephemeral = Normal b'.

(** Two arrays that differ at most in the last entry, the second having
    [cache_control] set on it. *)
Definition last_annotated (sent kept : list value) : Prop :=
  kept = sent \/
  exists (init : list value) (last last' : value),
    sent = init ++ [last] /\ kept = init ++ [last'] /\
    set_member last (lit "cache_control") ephemeral = Normal last'.

Definition COMPACT_KIND : jsstring := lit "compact_20260112".
Definition CLEAR_TOOLS_KIND : jsstring := lit "clear_tool_uses_20250919".
Definition WEB_FETCH_KIND : jsstring := lit "web_fetch_20250910".

(** The entries a guarded push may have put behind the entries [before]:
    [after] is [before] followed by some of [candidates], and a candidate
    was added only where the scan for its kind found nothing. *)
Definition merged_into (candidates : list (jsstring * value))
    (before after : list value) : Prop :=
  exists added : list value,
    after = before ++ added /\
    (forall x, In x added -> exists ty, In (ty, x) candidates) /\
    (forall ty x, In (ty, x) candidates -> In x added ->
                  some (has_type ty) before = Normal false) /\
    length added <= length candidates.

(** A request for an Opus model with the long-context suffix, which brings
    a clear-tool-uses edit of its own and a web-fetch tool of its own. *)
Definition opus_body : value :=
  obj [("model"%string, str "claude-opus-4-5[1m]");
       ("system"%string, arr [text_block CC_SYSTEM]);
       ("context_management"%string,
        obj [("edits"%string,
              arr [obj [("type"%string, str "clear_tool_uses_20250919");
                        ("keep"%string, VNum 3)]])]);
       ("tools"%string,
        arr [tool "bash";
             obj [("type"%string, str "web_fetch_20250910");
                  ("name"%string, str "web_fetch");
                  ("max_uses"%string, VNum 1)]])].

(** ** Ledger totals *)





(** ** Intercepted streams *)







(** ** Token manager *)

(** The caller went through [readAuth]: it awaits the credential file or
    failed reading it. *)
Definition reads_file (c : Auth.caller) : bool :=
  match c with
  | Auth.ReadingAuth | Auth.ReadFailed _ => true
  | _ => false
  end.

(** The refresh in the slot, if any, is outstanding. *)
Definition slot_live (s : Auth.state) : Prop :=
  forall op, Auth.refreshing s = Some op -> Auth.outstanding s op = true.

(** A process without [CLAUDE_OAUTH_TOKEN], the credential its file holds,
    expired at time 1000, and the process once the token endpoint has
    answered the refresh of its first caller. *)
Definition file_env : Auth.env :=
  {| Auth.CLAUDE_OAUTH_TOKEN := None; Auth.CLAUDE_OAUTH_REFRESH := None |}.

Definition file_credential : Auth.AuthData :=
  {| Auth.type := lit "oauth";
     Auth.access := lit "access-0";
     Auth.refresh := lit "refresh-0";
     Auth.expires := 1000 |}.

Definition awaiting_json : Auth.state :=
  Auth.exec file_env Auth.init
    [Auth.Call 0;
     Auth.ReadAuthDone 0 (inl file_credential) 2000;
     Auth.FetchDone 0 (inl (true, 200%Z))].

(** A token response that rotates no refresh token. *)
Definition access_only : Auth.token_response :=
  {| Auth.access_token := lit "access-1";
     Auth.refresh_token := None;
     Auth.expires_in := 3600 |}.

(** [getTokenExpiry()] *)
Definition getTokenExpiry (s : Auth.state) : Z :=
  match Auth.cached s with
  | Some r => Auth.expires (Auth.deref s r)
  | None => 0
  end.

(** ** The request log line *)

(** [edits.map((e) => e.type)]: reading [type] of a [null] entry throws. *)
Fixpoint edit_types (edits : list value) : completion (list (option value)) :=
  match edits with
  | [] => Normal []
  | e :: rest =>
      t <- member (Some e) (lit "type") ;;
      ts <- edit_types rest ;;
      Normal (t :: ts)
  end.

(** [a.join(sep)] on values: [undefined] and [null] give the empty
    string, any other entry its ToString. *)
Definition join_values (sep : jsstring) (l : list (option value)) : jsstring :=
  join sep (map (fun o => match o with
                          | None | Some VNull => []
                          | Some v => toString v
                          end) l).

(** The last interpolation of the line [messagesRelay] logs before it
    calls [fetch]:
    [body.context_management
       ? " | ctx_mgmt=" + body.context_management.edits.map((e) => e.type).join(",")
       : ""].
    The interpolations before it read [body.model], [body.messages?.length]
    and [body.tools?.length ?? 0] of a body that is an object by then and
    complete whatever these are. *)
Definition ctx_mgmt_note (body : value) : completion jsstring :=
  cm <- member (Some body) (lit "context_management") ;;
  if truthy_opt cm then
    edits <- member cm (lit "edits") ;;
    match edits with
    | Some (VArr items _) =>
        types <- edit_types items ;;
        Normal (lit " | ctx_mgmt=" ++ join_values (lit ",") types)
    | _ => TypeError
    end
  else Normal [].

(** The statements of [messagesRelay] on the body from [c.req.json()] to
    the call of [fetch]: the body that is serialised for the upstream
    request, or the exception that ends the request before anything is
    sent.  The block on the beta flags that stands between the rewriting
    and the log line works on the headers alone; it is [add_betas]
    below. *)
Definition messagesRelay_request (cfg : config) (custom : option jsstring)
    (body : value) : completion value :=
  body <- messagesRelay_body cfg custom body ;;
  _ <- ctx_mgmt_note body ;;
  Normal body.

(** A request for a Sonnet model and one for an Opus model, each with a
    [context_management] object that has no [edits]. *)
Definition sonnet_bare_context : value :=
  obj [("model"%string, str "claude-sonnet-4-5");
       ("context_management"%string, obj [])].


(** ** The custom system prompt *)

(** The code units [String.prototype.trim] removes: WhiteSpace and
    LineTerminator of ECMAScript. *)
Definition is_white_space (c : char16) : bool :=
  existsb (N.eqb c)
    [0x9; 0xA; 0xB; 0xC; 0xD; 0x20; 0xA0; 0x1680; 0x2028; 0x2029; 0x202F;
     0x205F; 0x3000; 0xFEFF]%N
  || ((0x2000 <=? c) && (c <=? 0x200A))%N.

(** [s.trimStart()] and [s.trim()] *)
Fixpoint trimStart (s : jsstring) : jsstring :=
  match s with
  | c :: rest => if is_white_space c then trimStart rest else s
  | [] => []
  end.

Definition trim (s : jsstring) : jsstring :=
  rev (trimStart (rev (trimStart s))).

(** [customSystemPrompt] and [customSystemMtime].  Times are in
    milliseconds; the function only compares them for equality. *)
Record prompt_cache := {
  customSystemPrompt : option jsstring;
  customSystemMtime : Z
}.

Definition prompt_cache0 : prompt_cache :=
  {| customSystemPrompt := None; customSystemMtime := 0 |}.

(** The prompt file as one call finds it: what [statSync(...).mtimeMs] and
    [readFileSync(..., "utf-8")] return, [None] where they throw. *)
Record prompt_file := {
  mtimeMs : option Z;
  utf8_text : option jsstring
}.

(** [getCustomSystem()]: the module variables after the call and the value
    returned.  A throw of [statSync] or of [readFileSync] leaves
    [customSystemMtime] as it was and sets the prompt to [null]. *)
Definition getCustomSystem (f : prompt_file) (c : prompt_cache)
  : prompt_cache * option jsstring :=
  let dropped := {| customSystemPrompt := None;
                    customSystemMtime := customSystemMtime c |} in
  let c' :=
    match mtimeMs f with
    | Some mtime =>
        if negb (mtime =? customSystemMtime c)%Z then
          match utf8_text f with
          | Some text => {| customSystemPrompt := Some (trim text);
                            customSystemMtime := mtime |}
          | None => dropped
          end
        else c
    | None => dropped
    end in
  (c', match customSystemPrompt c' with
       | Some (x :: p) => Some (x :: p)
       | _ => None
       end).

(** The module variables after one call for each state of the file in
    [files], in order. *)
Definition prompt_calls (files : list prompt_file) (c : prompt_cache)
  : prompt_cache :=
  fold_left (fun c f => fst (getCustomSystem f c)) files c.

(** A prompt file last modified at [mtime] that holds [text], and the
    file missing. *)
Definition prompt_at (mtime : Z) (text : String.string) : prompt_file :=
  {| mtimeMs := Some mtime; utf8_text := Some (lit text) |}.

Definition prompt_missing : prompt_file :=
  {| mtimeMs := None; utf8_text := None |}.

(** ** Request headers *)

(** [k.toLowerCase()] on a header name.  Header names are tokens of
    ASCII characters, on which the method maps [A]-[Z] to [a]-[z]. *)
Definition ascii_lower (c : char16) : char16 :=
  if ((0x41 <=? c) && (c <=? 0x5A))%N then (c + 0x20)%N else c.

Definition toLowerCase (s : jsstring) : jsstring := map ascii_lower s.

(** The normalization [Headers] applies to a value: leading and trailing
    HTTP whitespace (tab, line feed, carriage return, space) is removed. *)
Definition is_http_space (c : char16) : bool :=
  existsb (N.eqb c) [0x9; 0xA; 0xD; 0x20]%N.

Fixpoint strip_start (s : jsstring) : jsstring :=
  match s with
  | c :: rest => if is_http_space c then strip_start rest else s
  | [] => []
  end.

Definition normalize_value (s : jsstring) : jsstring :=
  rev (strip_start (rev (strip_start s))).

(** A [Headers] object: its header list, names in lower case, one entry
    per name, in the order the names were first set.  The case in which a
    name was given is not kept: header names are case-insensitive on the
    wire. *)
Definition Headers : Type := list (jsstring * jsstring).

Fixpoint header_lookup (name : jsstring) (h : Headers) : option jsstring :=
  match h with
  | [] => None
  | (k, v) :: rest => if str_eqb k name then Some v else header_lookup name rest
  end.

Fixpoint header_assign (name value : jsstring) (h : Headers) : Headers :=
  match h with
  | [] => [(name, value)]
  | (k, v) :: rest =>
      if str_eqb k name then (k, value) :: rest
      else (k, v) :: header_assign name value rest
  end.

(** [headers.get(name)], [null] as [None]. *)
Definition headers_get (h : Headers) (name : jsstring) : option jsstring :=
  header_lookup (toLowerCase name) h.

(** A [Set] of strings: its elements in insertion order. *)
Definition set_add (x : jsstring) (l : list jsstring) : list jsstring :=
  if existsb (str_eqb x) l then l else l ++ [x].

Definition set_delete (x : jsstring) (l : list jsstring) : list jsstring :=
  filter (fun y => negb (str_eqb x y)) l.

(** [new Set(array)] *)
Definition new_Set (l : list jsstring) : list jsstring :=
  fold_left (fun acc x => set_add x acc) l [].

Definition REQUIRED_BETAS : list jsstring :=
  [lit "oauth-2025-04-20"; lit "claude-code-20250219"].
Definition STRIPPED_BETAS : list jsstring := [].
Definition COMPACTION_BETA : jsstring := lit "compact-2026-01-12".
Definition CONTEXT_MGMT_BETA : jsstring := lit "context-management-2025-06-27".
Definition WEB_FETCH_BETA : jsstring := lit "web-fetch-2025-09-10".
Definition USER_AGENT : jsstring := lit "claude-cli/2.1.2 (external, cli)".

Definition COMMA : jsstring := lit ",".

Section RequestHeaders.

(** The check of the runtime on a normalized header value; [set] throws a
    [TypeError] where it fails.  The names the proxy sets are tokens: the
    names [forEach] yields and three literals. *)
Variable valid_value : jsstring -> bool.

(** [headers.set(name, value)] *)
Definition headers_set (h : Headers) (name value : jsstring)
  : completion Headers :=
  let value := normalize_value value in
  if valid_value value
  then Normal (header_assign (toLowerCase name) value h)
  else TypeError.

(** The callback of [incoming.forEach] in [buildHeaders]. *)
Definition copy_header (h : Headers) (kv : jsstring * jsstring)
  : completion Headers :=
  let '(k, v) := kv in
  let lower := toLowerCase k in
  if negb (str_eqb lower (lit "x-api-key")) && negb (str_eqb lower (lit "host"))
  then headers_set h k v
  else Normal h.

Fixpoint copy_headers (incoming : list (jsstring * jsstring)) (h : Headers)
  : completion Headers :=
  match incoming with
  | [] => Normal h
  | kv :: rest => h <- copy_header h kv ;; copy_headers rest h
  end.

(** [buildHeaders(incoming, token)]; [incoming] is the sequence of name
    and value pairs that [incoming.forEach] yields. *)
Definition buildHeaders (incoming : list (jsstring * jsstring))
    (token : jsstring) : completion Headers :=
  headers <- copy_headers incoming [] ;;
  headers <- headers_set headers (lit "Authorization")
               (lit "Bearer " ++ token) ;;
  headers <- headers_set headers (lit "User-Agent") USER_AGENT ;;
  let existing := headers_get headers (lit "anthropic-beta") in
  let betas := new_Set (match existing with
                        | Some (c :: s) => map trim (split (c :: s) COMMA)
                        | _ => []
                        end) in
  let betas := fold_left (fun acc b => set_add b acc) REQUIRED_BETAS betas in
  let betas := fold_left (fun acc b => set_delete b acc) STRIPPED_BETAS betas in
  headers_set headers (lit "anthropic-beta") (join COMMA betas).

(** The block of [messagesRelay] under the comment [Beta headers]; [opus]
    is the constant [isOpus] of the function. *)
Definition add_betas (cfg : config) (opus : bool) (headers : Headers)
  : completion Headers :=
  let betaHeader := match headers_get headers (lit "anthropic-beta") with
                    | Some (c :: s) => c :: s
                    | _ => []
                    end in
  let betasToAdd : list jsstring := [] in
  let betasToAdd :=
    if opus && COMPACTION_ENABLED cfg
       && negb (includes betaHeader COMPACTION_BETA)
    then betasToAdd ++ [COMPACTION_BETA] else betasToAdd in
  let betasToAdd :=
    if opus && CLEAR_TOOLS_ENABLED cfg
       && negb (includes betaHeader CONTEXT_MGMT_BETA)
    then betasToAdd ++ [CONTEXT_MGMT_BETA] else betasToAdd in
  let betasToAdd :=
    if WEB_FETCH_ENABLED cfg && negb (includes betaHeader WEB_FETCH_BETA)
    then betasToAdd ++ [WEB_FETCH_BETA] else betasToAdd in
  if (0 <? length betasToAdd)%nat then
    headers_set headers (lit "anthropic-beta")
      (match betaHeader with
       | _ :: _ => betaHeader ++ COMMA ++ join COMMA betasToAdd
       | [] => join COMMA betasToAdd
       end)
  else Normal headers.

End RequestHeaders.

(** The value check of the Fetch standard: no NUL, line feed or carriage
    return, and no code unit above 0xFF. *)
Definition field_value (s : jsstring) : bool :=
  forallb (fun c => negb (existsb (N.eqb c) [0x0; 0xA; 0xD]%N)
                    && (c <=? 0xFF)%N) s.

(** The value the client sent for [name], as [forEach] yields it: the
    last pair whose name is [name] in lower case. *)
Fixpoint last_value (name : jsstring) (incoming : list (jsstring * jsstring))
  : option jsstring :=
  match incoming with
  | [] => None
  | (k, v) :: rest =>
      match last_value name rest with
      | Some x => Some x
      | None => if str_eqb (toLowerCase k) name then Some v else None
      end
  end.

(** The names [buildHeaders] decides itself. *)
Definition managed_header (name : jsstring) : bool :=
  existsb (str_eqb name)
    [lit "x-api-key"; lit "host"; lit "authorization"; lit "user-agent";
     lit "anthropic-beta"].

(** The entries of the [anthropic-beta] header the client sent, trimmed. *)
Definition client_betas (incoming : list (jsstring * jsstring))
  : list jsstring :=
  match option_map normalize_value (last_value (lit "anthropic-beta") incoming)
  with
  | Some (c :: s) => map trim (split (c :: s) COMMA)
  | _ => []
  end.

(** The headers of a client that authenticates with an API key and asks
    for a beta of its own. *)
Definition client_headers : list (jsstring * jsstring) :=
  [(lit "accept", lit "application/json");
   (lit "anthropic-beta", lit "fine-grained-tool-streaming-2025-05-14, oauth-2025-04-20");
   (lit "authorization", lit "Bearer sk-client");
   (lit "content-type", lit "application/json");
   (lit "host", lit "localhost:3456");
   (lit "x-api-key", lit "sk-ant-client")].

(** A string without HTTP whitespace at either end. *)
Definition clean_ends (s : jsstring) : Prop :=
  (forall c rest, s = c :: rest -> is_http_space c = false) /\
  (forall c rest, rev s = c :: rest -> is_http_space c = false).

(** The name is not one of the two [buildHeaders] leaves out. *)
Definition copied_name (name : jsstring) : bool :=
  negb (str_eqb name (lit "x-api-key")) && negb (str_eqb name (lit "host")).

(** The beta flag of a feature is asked for: the feature is enabled, and
    the model is an Opus model where the feature is bound to one. *)
Definition wanted_betas (cfg : config) (opus : bool) : list jsstring :=
  (if opus && COMPACTION_ENABLED cfg then [COMPACTION_BETA] else [])
  ++ (if opus && CLEAR_TOOLS_ENABLED cfg then [CONTEXT_MGMT_BETA] else [])
  ++ (if WEB_FETCH_ENABLED cfg then [WEB_FETCH_BETA] else []).

(** ** The system prompt of the client *)

(** The blocks the client sent as [system]: the array as it is, a string
    as the one text block [ensureSystem] makes of it, nothing for a value
    that is falsy or absent. *)
Definition sent_system (body : value) : list value :=
  match own body (lit "system") with
  | Some (VArr items _) => items
  | Some (VStr (c :: s)) => [text_block (c :: s)]
  | _ => []
  end.

(** ** Requests the relay accepts *)








(* ===================================================================== *)
(** * Properties of the string methods and of the decoder *)
(* ===================================================================== *)

Example split_frames :
  split (lit "a" ++ [LF; LF] ++ lit "b" ++ [LF; LF; LF] ++ lit "c") [LF; LF]
  = [lit "a"; lit "b"; LF :: lit "c"].
Proof. reflexivity. Qed.

Example decode_ascii :
  snd (Utf8.decode Utf8.new_TextDecoder (bytes_of "data: x")) = lit "data: x".
Proof. reflexivity. Qed.

(** U+20AC cut after its first byte: nothing is emitted until the sequence
    is complete. *)
Example decode_split_euro :
  let '(t1, s1) := Utf8.decode Utf8.new_TextDecoder [Byte.xe2] in
  let '(_, s2) := Utf8.decode t1 [Byte.x82; Byte.xac] in
  (s1, s2) = ([], [0x20AC%N]).
Proof. reflexivity. Qed.

Example split_edge_cases :
  split [] BLANK_LINE = [[]]
  /\ split (lit "a" ++ BLANK_LINE) BLANK_LINE = [lit "a"; []]
  /\ split [LF; LF; LF] BLANK_LINE = [[]; [LF]]
  /\ split (lit "event: x" ++ [LF] ++ lit "data: y") [LF]
     = [lit "event: x"; lit "data: y"].
Proof. repeat split; reflexivity. Qed.

Example replace_first_occurrence :
  replace (lit "a[1m]b[1m]") (lit "[1m]") [] = lit "ab[1m]"
  /\ replace (lit "claude") (lit "[1m]") [] = lit "claude".
Proof. split; reflexivity. Qed.

(** A byte order mark is dropped, a byte that starts no sequence is
    replaced, and a scalar value beyond U+FFFF becomes a surrogate pair. *)
Example decode_special_bytes :
  decoded [Byte.xef; Byte.xbb; Byte.xbf; Byte.x41] = lit "A"
  /\ decoded [Byte.x41; Byte.xff; Byte.x42] = [65; 0xFFFD; 66]%N
  /\ decoded [Byte.xf0; Byte.x9f; Byte.x98; Byte.x80] = [0xD83D; 0xDE00]%N
  /\ decoded [Byte.xe2; Byte.x41] = [0xFFFD; 65]%N.
Proof. repeat split; reflexivity. Qed.

Example plus_operator :
  js_plus (VNum 1) (VNum 2) = VNum 3
  /\ js_plus (VNum 0) (str "5") = str "05"
  /\ js_plus (VNum 7) (VBool true) = VNum 8
  /\ js_plus (VNum 0) (arr [VNum 1; VNull; VNum 2]) = str "01,,2"
  /\ js_plus (VNum 0) (obj []) = str "0[object Object]".
Proof. repeat split; reflexivity. Qed.

Example countCache_nested :
  countCache
    (arr [obj [("cache_control"%string, ephemeral)];
          obj [("content"%string,
                arr [obj [("cache_control"%string, ephemeral)];
                     obj [("cache_control"%string, VNull)]])];
          str "cache_control"])
  = 2.
Proof. reflexivity. Qed.



Lemma str_eqb_eq (s t : jsstring) : str_eqb s t = true <-> s = t.
Proof.
  revert t. induction s as [|c s IH]; intros [|d t]; simpl;
    try (split; [ discriminate | congruence ]); try tauto.
  rewrite andb_true_iff, N.eqb_eq, IH. split.
  - intros [-> ->]. reflexivity.
  - intros [= -> ->]. tauto.
Qed.

Lemma str_eqb_refl (s : jsstring) : str_eqb s s = true.
Proof. now apply str_eqb_eq. Qed.

Lemma str_eqb_neq (s t : jsstring) : str_eqb s t = false <-> s <> t.
Proof.
  rewrite <- str_eqb_eq. destruct (str_eqb s t); split; congruence.
Qed.

Lemma startsWith_iff (s p : jsstring) :
  startsWith s p = true <-> exists r, s = p ++ r.
Proof.
  revert s. induction p as [|d p IH]; intros s; simpl.
  - split; [ intros _; now exists s | reflexivity ].
  - destruct s as [|c s].
    + split; [ discriminate | intros [r H]; discriminate ].
    + rewrite andb_true_iff, N.eqb_eq, IH. split.
      * intros [-> [r ->]]. now exists r.
      * intros [r [= -> ->]]. split; [ reflexivity | now exists r ].
Qed.

Lemma startsWith_app_l (s p r : jsstring) :
  startsWith s p = true -> startsWith (s ++ r) p = true.
Proof.
  rewrite !startsWith_iff. intros [q ->]. exists (q ++ r).
  now rewrite app_assoc.
Qed.

(** [indexOf] returns the least offset at which the pattern occurs. *)
Lemma indexOf_Some (s p : jsstring) (i : nat) :
  indexOf s p = Some i ->
  startsWith (skipn i s) p = true /\
  i + length p <= length s /\
  forall j, j < i -> startsWith (skipn j s) p = false.
Proof.
  revert i. induction s as [|c s IH]; intros i; cbn [indexOf].
  - destruct (startsWith [] p) eqn:E; [ | discriminate ].
    intros [= <-]. cbn [skipn]. split; [ exact E | ].
    split; [ | intros j Hj; lia ].
    apply startsWith_iff in E. destruct E as [r E].
    destruct p; [ simpl; lia | discriminate ].
  - destruct (startsWith (c :: s) p) eqn:E.
    + intros [= <-]. cbn [skipn]. split; [ exact E | ].
      split; [ | intros j Hj; lia ].
      apply startsWith_iff in E. destruct E as [r E].
      rewrite E, length_app. lia.
    + destruct (indexOf s p) as [k|] eqn:Ek; [ | discriminate ].
      cbn [option_map]. intros [= <-].
      destruct (IH k eq_refl) as (Hs & Hlen & Hmin).
      cbn [skipn length]. split; [ exact Hs | ]. split; [ lia | ].
      intros [|j] Hj; cbn [skipn]; [ exact E | apply Hmin; lia ].
Qed.

Lemma indexOf_None (s p : jsstring) :
  indexOf s p = None -> forall j, startsWith (skipn j s) p = false.
Proof.
  induction s as [|c s IH]; cbn [indexOf].
  - destruct (startsWith [] p) eqn:E; [ discriminate | ].
    intros _ j. now rewrite skipn_nil.
  - destruct (startsWith (c :: s) p) eqn:E; [ discriminate | ].
    destruct (indexOf s p) eqn:Ek; [ discriminate | ].
    intros _ [|j]; cbn [skipn]; [ exact E | now apply IH ].
Qed.

(** The offset found is characterised by the two facts above. *)
Lemma indexOf_unique (s p : jsstring) (i : nat) :
  startsWith (skipn i s) p = true ->
  (forall j, j < i -> startsWith (skipn j s) p = false) ->
  indexOf s p = Some i.
Proof.
  intros Hs Hmin. destruct (indexOf s p) as [k|] eqn:E.
  - destruct (indexOf_Some _ _ _ E) as (Hk & _ & Hkmin).
    destruct (Nat.lt_trichotomy k i) as [Hlt | [-> | Hgt]].
    + rewrite (Hmin k Hlt) in Hk. discriminate.
    + reflexivity.
    + rewrite (Hkmin i Hgt) in Hs. discriminate.
  - rewrite (indexOf_None _ _ E i) in Hs. discriminate.
Qed.


(* ===================================================================== *)
(** * The statistics ledger *)
(* ===================================================================== *)

Lemma pop_snoc {A} (l : list A) (x : A) : pop (l ++ [x]) = (Some x, l).
Proof. unfold pop. rewrite rev_app_distr. simpl. now rewrite rev_involutive. Qed.

Lemma pop_removelast {A} (l : list A) : snd (pop l) = removelast l.
Proof.
  destruct l as [|a l] using rev_ind; [ reflexivity | ].
  rewrite pop_snoc, removelast_last. reflexivity.
Qed.

Lemma recordRequest_recent (rec : RequestRecord) (stats : Stats) :
  length (recentRequests stats) <= MAX_RECENT ->
  recentRequests (recordRequest rec stats)
  = firstn MAX_RECENT (rec :: recentRequests stats).
Proof.
  intros Hlen. unfold recordRequest, unshift. cbn [recentRequests].
  destruct (Nat.ltb_spec MAX_RECENT (length (rec :: recentRequests stats)))
    as [Hfull | Hroom].
  - rewrite pop_removelast, removelast_firstn_len.
    f_equal. cbn [length] in *. lia.
  - symmetry. apply firstn_all2. exact Hroom.
Qed.

Lemma recordRequest_bounded (rec : RequestRecord) (stats : Stats) :
  length (recentRequests stats) <= MAX_RECENT ->
  length (recentRequests (recordRequest rec stats)) <= MAX_RECENT.
Proof.
  intros Hlen. rewrite recordRequest_recent by exact Hlen.
  rewrite length_firstn. lia.
Qed.

Lemma record_all_recent (recs : list RequestRecord) (stats : Stats) :
  length (recentRequests stats) <= MAX_RECENT ->
  recentRequests (record_all recs stats)
  = firstn MAX_RECENT (rev recs ++ recentRequests stats).
Proof.
  revert stats. induction recs as [|rec recs IH]; intros stats Hlen.
  - cbn [record_all fold_left rev app]. symmetry. apply firstn_all2. exact Hlen.
  - cbn [record_all fold_left]. fold (record_all recs (recordRequest rec stats)).
    rewrite IH by (apply recordRequest_bounded; exact Hlen).
    rewrite recordRequest_recent by exact Hlen.
    cbn [rev]. rewrite <- app_assoc. cbn [app].
    remember (rev recs) as older eqn:E. clear E IH.
    destruct (Nat.le_gt_cases MAX_RECENT (length older)) as [Hge | Hlt].
    + rewrite !firstn_app.
      replace (MAX_RECENT - length older) with 0 by lia.
      reflexivity.
    + rewrite !firstn_app. f_equal.
      rewrite firstn_firstn. f_equal. lia.
Qed.

(** C8.  Starting from the empty ledger of a fresh process, after any
    sequence of [recordRequest] calls the ring buffer [recentRequests]
    holds at most 20 records, and after each call its entry at position 0
    is the record that call was given. *)
Theorem ring_buffer_bounded_newest_first :
  (forall (recs : list RequestRecord),
      length (recentRequests (record_all recs stats0)) <= 20)
  /\
  (forall (earlier : list RequestRecord) (latest : RequestRecord),
      nth_error (recentRequests (record_all (earlier ++ [latest]) stats0)) 0
      = Some latest).
Proof.
  assert (H0 : length (recentRequests stats0) <= MAX_RECENT)
    by (cbn; unfold MAX_RECENT; lia).
  split.
  - intros recs. rewrite record_all_recent by exact H0.
    rewrite length_firstn. unfold MAX_RECENT. lia.
  - intros earlier latest. rewrite record_all_recent by exact H0.
    rewrite rev_app_distr. reflexivity.
Qed.

(* ===================================================================== *)
(** * Property tables and completions *)
(* ===================================================================== *)

Lemma bind_Normal {A B} (c : completion A) (k : A -> completion B) (r : B) :
  bind c k = Normal r -> exists a, c = Normal a /\ k a = Normal r.
Proof. destruct c as [a|m]; simpl; [ now exists a | discriminate ]. Qed.

(** Break the successful run of a sequence of statements into its steps. *)
Ltac inv_bind H :=
  let a := fresh "a" in
  let Ha := fresh "Ha" in
  apply bind_Normal in H; destruct H as (a & Ha & H).

Ltac inv_normal :=
  repeat match goal with
         | H : Normal _ = Normal _ |- _ => injection H as H; subst
         | H : Throw _ = Normal _ |- _ => discriminate H
         | H : TypeError = Normal _ |- _ => discriminate H
         end.

Lemma lookup_assign_same k x ps : lookup k (assign k x ps) = Some x.
Proof.
  induction ps as [|[k' v'] ps IH]; simpl.
  - now rewrite str_eqb_refl.
  - destruct (str_eqb k' k) eqn:E; simpl; rewrite E; [ reflexivity | exact IH ].
Qed.

Lemma lookup_assign_other k k' x ps :
  str_eqb k k' = false -> lookup k' (assign k x ps) = lookup k' ps.
Proof.
  intros Hk. induction ps as [|[k0 v0] ps IH]; simpl.
  - rewrite Hk. reflexivity.
  - destruct (str_eqb k0 k) eqn:E; simpl.
    + apply str_eqb_eq in E. subst k0. rewrite Hk. reflexivity.
    + destruct (str_eqb k0 k'); [ reflexivity | exact IH ].
Qed.

Lemma own_set_member_other b k x b' k' :
  set_member b k x = Normal b' ->
  str_eqb k k' = false ->
  own b' k' = own b k'.
Proof.
  destruct b; simpl; intros H Hk; inv_normal; simpl.
  - now rewrite lookup_assign_other.
  - now apply lookup_assign_other.
Qed.

Lemma own_set_member_same b k x b' :
  set_member b k x = Normal b' ->
  str_eqb k (lit "length") = false ->
  own b' k = Some x.
Proof.
  destruct b; simpl; intros H Hk; inv_normal; simpl.
  - rewrite Hk. apply lookup_assign_same.
  - apply lookup_assign_same.
Qed.

Lemma keeps_bind k f g :
  keeps k f -> keeps k g -> keeps k (fun b => bind (f b) g).
Proof.
  intros Hf Hg b b' H. inv_bind H.
  rewrite (Hg _ _ H). now apply Hf.
Qed.

Lemma keeps_set_member k k' x :
  str_eqb k' k = false -> keeps k (fun b => set_member b k' x).
Proof. intros Hk b b' H. eapply own_set_member_other; eassumption. Qed.

Lemma keeps_ensureSystem k custom :
  str_eqb (lit "system") k = false -> keeps k (ensureSystem custom).
Proof.
  intros Hk b b' H. unfold ensureSystem in H.
  inv_bind H. inv_bind H.
  assert (E0 : own a0 k = own b k).
  { destruct (negb (truthy_opt a)).
    - eapply own_set_member_other; eassumption.
    - destruct a as [[]|]; inv_normal; try reflexivity.
      eapply own_set_member_other; eassumption. }
  destruct (own a0 (lit "system")) as [[]|]; inv_normal.
  inv_bind H. inv_bind H.
  rewrite <- E0. eapply own_set_member_other; eassumption.
Qed.

Lemma keeps_strip_markers k :
  str_eqb (lit "system") k = false -> keeps k strip_markers.
Proof.
  intros Hk b b' H. unfold strip_markers in H.
  destruct (own b (lit "system")) as [[]|]; inv_normal; try reflexivity.
  inv_bind H. eapply own_set_member_other; eassumption.
Qed.

Lemma keeps_place_cache_control k :
  str_eqb (lit "system") k = false -> str_eqb (lit "tools") k = false ->
  keeps k place_cache_control.
Proof.
  intros Hs Ht b b' H. unfold place_cache_control in H.
  inv_bind H. destruct a as [existing b1].
  assert (E1 : own b1 k = own b k).
  { destruct (may_mark _ b _) as [[items named]|]; inv_normal;
      [ | reflexivity ].
    inv_bind Ha. destruct a as [marked items']. inv_bind Ha. inv_normal.
    eapply own_set_member_other; eassumption. }
  rewrite <- E1.
  destruct (may_mark _ b1 _) as [[items named]|]; inv_normal;
    [ | reflexivity ].
  inv_bind H. destruct a as [marked items'].
  eapply own_set_member_other; eassumption.
Qed.

Lemma keeps_override_max_tokens k cfg :
  str_eqb (lit "max_tokens") k = false -> keeps k (override_max_tokens cfg).
Proof.
  intros Hk b b' H. unfold override_max_tokens in H.
  destruct (MAX_TOKENS_OVERRIDE cfg); inv_normal; [ | reflexivity ].
  destruct (truthy _); inv_normal; [ | reflexivity ].
  eapply own_set_member_other; eassumption.
Qed.

Lemma keeps_manage_context k cfg :
  str_eqb (lit "context_management") k = false -> keeps k (manage_context cfg).
Proof.
  intros Hk b b' H. unfold manage_context in H.
  inv_bind H. destruct a; inv_normal; [ | reflexivity ].
  inv_bind H.
  assert (E0 : own a k = own b k).
  { destruct (negb _); inv_normal; [ | reflexivity ].
    eapply own_set_member_other; eassumption. }
  rewrite <- E0.
  destruct (own a _) as [cm|]; inv_normal.
  inv_bind H. destruct (own a0 _) as [[]|]; inv_normal.
  inv_bind H. inv_bind H. inv_bind H.
  eapply own_set_member_other; eassumption.
Qed.

Lemma keeps_inject_web_fetch k cfg :
  str_eqb (lit "tools") k = false -> keeps k (inject_web_fetch cfg).
Proof.
  intros Hk b b' H. unfold inject_web_fetch in H.
  destruct (WEB_FETCH_ENABLED cfg); inv_normal; [ | reflexivity ].
  inv_bind H.
  assert (E0 : own a k = own b k).
  { destruct (own b (lit "tools")) as [[]|]; inv_normal; try reflexivity;
      eapply own_set_member_other; eassumption. }
  rewrite <- E0.
  destruct (own a _) as [[]|]; inv_normal.
  inv_bind H. eapply own_set_member_other; eassumption.
Qed.

(* ===================================================================== *)
(** * The model alias rewrite *)
(* ===================================================================== *)










(* ===================================================================== *)
(** * Splitting a text that arrives in pieces *)
(* ===================================================================== *)

Lemma length_ind {A} (P : list A -> Prop) :
  (forall s, (forall t, length t < length s -> P t) -> P s) ->
  forall s, P s.
Proof.
  intros step s. remember (length s) as n eqn:E. revert s E.
  induction n as [n IH] using lt_wf_ind. intros s ->.
  apply step. intros t Ht. now apply (IH (length t)).
Qed.

Lemma split_ne_eq c sep' s :
  split_ne c sep' s =
  match indexOf s (c :: sep') with
  | None => [s]
  | Some i => firstn i s :: split_ne c sep' (skipn (i + length (c :: sep')) s)
  end.
Proof.
  rewrite split_ne_equation_1.
  destruct (inspect (indexOf s (c :: sep'))) as [o e].
  destruct o; cbn [split_ne_unfold_clause_1]; rewrite e; reflexivity.
Qed.


Lemma startsWith_app_long (s r p : jsstring) :
  length p <= length s -> startsWith (s ++ r) p = startsWith s p.
Proof.
  revert s. induction p as [|d p IH]; intros s Hlen; [ reflexivity | ].
  destruct s as [|c s]; cbn [length] in Hlen; [ lia | ].
  cbn [app startsWith]. rewrite IH by lia. reflexivity.
Qed.

(** An occurrence found in the text read so far is still the first one
    once more text has arrived. *)
Lemma indexOf_app_l (a b p : jsstring) (i : nat) :
  indexOf a p = Some i -> indexOf (a ++ b) p = Some i.
Proof.
  intros E. destruct (indexOf_Some _ _ _ E) as (Hs & Hlen & Hmin).
  apply indexOf_unique.
  - rewrite skipn_app. replace (i - length a) with 0 by lia.
    cbn [skipn]. now apply startsWith_app_l.
  - intros j Hj. rewrite skipn_app. replace (j - length a) with 0 by lia.
    cbn [skipn]. rewrite startsWith_app_long.
    + now apply Hmin.
    + rewrite length_skipn. lia.
Qed.





Example frames_of_two_events :
  frames (lit "a" ++ BLANK_LINE ++ lit "b" ++ BLANK_LINE ++ lit "c")
  = [lit "a"; lit "b"]
  /\ fragment (lit "a" ++ BLANK_LINE ++ lit "b" ++ BLANK_LINE ++ lit "c")
     = lit "c".
Proof. split; reflexivity. Qed.

(* ===================================================================== *)
(** * The stream interceptor *)
(* ===================================================================== *)

Section InterceptorFacts.

Variable JSON_parse : jsstring -> option value.
















End InterceptorFacts.

Section InterceptorClaims.

Variable JSON_parse : jsstring -> option value.




End InterceptorClaims.


(* ===================================================================== *)
(** * Usage records of completed responses *)
(* ===================================================================== *)






Section RecordFacts.

Variable JSON_parse : jsstring -> option value.





End RecordFacts.

Example sample_chunks_cut_the_stream :
  concat sample_chunks = sample_stream
  /\ map (@length Byte.byte) sample_chunks = [10; 138; 152; 199]
  /\ nth_error (decoded (firstn 148 sample_stream)) 147 = Some LF
  /\ nth_error (decoded (skipn 148 sample_stream)) 0 = Some LF.
Proof. vm_compute. repeat split; reflexivity. Qed.

(** The example of the specification, read in the four chunks above. *)
Example sample_usage_record :
  let relayed :=
    messagesRelay_response default_config streaming_body true (sample_clock 1000)
      stats0 in
  let finish :=
    deliver_all full_parse (sample_clock 1250) (completed sample_chunks)
      (fst relayed) (snd relayed) in
  recentRequests (fst finish)
  = [ {| ts := lit "2026-01-01T00:00:00.000Z";
         model := str "claude-opus-4-6";
         messages := VNum 1;
         inputTokens := 100;
         outputTokens := VNum 7;
         cacheCreation := VNum 0;
         cacheRead := VNum 20;
         durationMs := 250;
         stopReason := str "end_turn" |} ]
  /\ activeRequests (fst finish) = 0%Z.
Proof. vm_compute. split; reflexivity. Qed.



(* ===================================================================== *)
(** * The in-flight counter *)
(* ===================================================================== *)



Lemma activeRequests_recordRequest rec stats :
  activeRequests (recordRequest rec stats) = activeRequests stats.
Proof. reflexivity. Qed.

Section CounterFacts.

Variable JSON_parse : jsstring -> option value.
Variable cfg : config.





(** The ring buffer stays within its capacity whatever the interleaving
    of the responses that complete. *)
Lemma server_ring_buffer_bounded (turns : list turn) :
  length (recentRequests (stats (exec JSON_parse cfg server0 turns)))
  <= MAX_RECENT.
Proof.
  unfold exec.
  assert (Inv : length (recentRequests (stats server0)) <= MAX_RECENT)
    by (cbn; unfold MAX_RECENT; lia).
  revert Inv. generalize server0.
  induction turns as [|e turns IH]; intros s Inv; [ exact Inv | ].
  cbn [fold_left]. apply IH.
  destruct e as [body has_body t | n t r]; cbn [step].
  - unfold messagesRelay_response.
    destruct (THINKING_LOG_ENABLED cfg && isStreaming body && has_body);
      exact Inv.
  - destruct (nth_error (responses s) n) as [[i|c|]|]; try exact Inv.
    cbn [deliver]. unfold pump. destruct (pumping i); [ | exact Inv ].
    destruct r; try exact Inv.
    cbn [stats]. now apply recordRequest_bounded.
Qed.

End CounterFacts.

(** Two streaming requests, the first of which fails mid-stream while the
    second completes: nothing is in flight any more and the counter
    stays at 1. *)
Example active_requests_after_failure :
  let s := exec full_parse default_config server0
             [Respond streaming_body true (sample_clock 0);
              Respond streaming_body true (sample_clock 1);
              Deliver 0 (sample_clock 2) (ReadChunk (firstn 10 sample_stream));
              Deliver 1 (sample_clock 3) (ReadChunk sample_stream);
              Deliver 0 (sample_clock 4) (ReadFail "connection reset");
              Deliver 1 (sample_clock 5) ReadDone] in
  activeRequests (stats s) = 1%Z
  /\ count in_flight (responses s) = 0%Z
  /\ length (recentRequests (stats s)) = 1.
Proof. vm_compute. repeat split; reflexivity. Qed.

(* ===================================================================== *)
(** * Cache-control placement *)
(* ===================================================================== *)

Lemma pop_Some {A} (l init : list A) (x : A) :
  pop l = (Some x, init) -> l = init ++ [x].
Proof.
  destruct l as [|a l] using rev_ind; [ discriminate | ].
  rewrite pop_snoc. now intros [= -> ->].
Qed.

Lemma countCache_VObj props :
  countCache (VObj props)
  = (if truthy_opt (lookup (lit "cache_control") props) then 1 else 0)
    + list_sum (map nested_count props).
Proof. reflexivity. Qed.

Lemma countCache_VArr items named :
  countCache (VArr items named)
  = (if truthy_opt (lookup (lit "cache_control") named) then 1 else 0)
    + list_sum (map countCache items).
Proof. reflexivity. Qed.

Lemma nested_count_assign k x ps :
  truthy_opt (lookup k ps) = false ->
  nested_count (k, x) = 0 ->
  list_sum (map nested_count (assign k x ps)) = list_sum (map nested_count ps).
Proof.
  intros Hold Hx. induction ps as [|[k' v'] ps IH]; cbn [assign map list_sum fold_right].
  - unfold nested_count in *. cbn [snd] in *. rewrite Hx. reflexivity.
  - cbn [lookup] in Hold. destruct (str_eqb k' k) eqn:E;
      cbn [map list_sum fold_right].
    + f_equal. unfold nested_count in *. cbn [snd truthy_opt] in *.
      rewrite Hx, Hold. reflexivity.
    + f_equal. apply IH. exact Hold.
Qed.

(** Attaching the marker to a block that has none adds one annotation. *)
Lemma countCache_marked (last last' : value) :
  truthy_opt (own last (lit "cache_control")) = false ->
  set_member last (lit "cache_control") ephemeral = Normal last' ->
  countCache last' = countCache last + 1.
Proof.
  intros Hfalsy Hset. destruct last; cbn [set_member] in Hset; inv_normal.
  - change (own (VArr items named) (lit "cache_control"))
      with (lookup (lit "cache_control") named) in Hfalsy.
    rewrite !countCache_VArr, lookup_assign_same, Hfalsy.
    cbn [truthy_opt ephemeral]. cbn. lia.
  - cbn [own] in Hfalsy.
    rewrite !countCache_VObj, lookup_assign_same, Hfalsy.
    rewrite nested_count_assign by (exact Hfalsy || reflexivity).
    cbn. lia.
Qed.

Lemma mark_last_count items marked items' :
  mark_last items = Normal (marked, items') ->
  list_sum (map countCache items')
  = list_sum (map countCache items) + (if marked then 1 else 0).
Proof.
  unfold mark_last. destruct (pop items) as [[last|] init] eqn:Hpop;
    [ | discriminate ].
  apply pop_Some in Hpop. subst items. intros H. inv_bind H.
  assert (Hc : a = own last (lit "cache_control"))
    by (destruct last; cbn [member] in Ha; inv_normal; reflexivity).
  subst a. destruct (truthy_opt (own last (lit "cache_control"))) eqn:Hfalsy;
    cbn [negb] in H.
  - inv_normal. lia.
  - inv_bind H. inv_normal.
    rewrite !map_app, !list_sum_app. cbn [map list_sum fold_right].
    rewrite (countCache_marked _ _ Hfalsy Ha0). lia.
Qed.

Lemma countCache_of_set_same body k items items' named body' n :
  own body k = Some (VArr items named) ->
  str_eqb k (lit "length") = false ->
  set_member body k (VArr items' named) = Normal body' ->
  list_sum (map countCache items') = list_sum (map countCache items) + n ->
  countCache_of body' k = countCache_of body k + n.
Proof.
  intros Hown Hk Hset Hsum. unfold countCache_of.
  rewrite (own_set_member_same _ _ _ _ Hset Hk), Hown.
  rewrite !countCache_VArr. lia.
Qed.

Lemma countCache_of_set_other body k x body' k' :
  set_member body k x = Normal body' ->
  str_eqb k k' = false ->
  countCache_of body' k' = countCache_of body k'.
Proof.
  intros Hset Hk. unfold countCache_of.
  now rewrite (own_set_member_other _ _ _ _ _ Hset Hk).
Qed.

Lemma may_mark_Some existing body k items named :
  may_mark existing body k = Some (items, named) ->
  existing < MAX_CACHE_BLOCKS /\ own body k = Some (VArr items named).
Proof.
  unfold may_mark. destruct (own body k) as [[]|]; try discriminate.
  destruct (Nat.ltb_spec existing MAX_CACHE_BLOCKS); [ | discriminate ].
  destruct (0 <? length items0); [ | discriminate ].
  intros [= -> ->]. auto.
Qed.

(** C3, as the code has it.  The placement step never takes an annotation
    away and never pushes the number of annotations in [system],
    [messages] and [tools] above 4: after the step the number is at most
    the larger of 4 and the number before it.  A body that arrives with at
    most 4 annotations leaves with at most 4. *)
Theorem cache_control_budget :
  forall (body body' : value),
    place_cache_control body = Normal body' ->
    cache_total body <= cache_total body' /\
    cache_total body' <= Nat.max 4 (cache_total body) /\
    (cache_total body <= 4 -> cache_total body' <= 4).
Proof.
  intros body body' H. unfold place_cache_control in H.
  inv_bind H. destruct a as [existing body1].
  assert (H1 : existing = cache_total body1 /\
               cache_total body <= existing /\
               existing <= Nat.max 4 (cache_total body)).
  { destruct (may_mark (cache_total body) body (lit "system"))
      as [[items named]|] eqn:Hm; inv_normal; [ | lia ].
    apply may_mark_Some in Hm. destruct Hm as [Hlt Hown].
    inv_bind Ha. destruct a as [marked items'].
    inv_bind Ha. inv_normal.
    pose proof (mark_last_count _ _ _ Ha0) as Hsum.
    unfold MAX_CACHE_BLOCKS in Hlt. unfold cache_total in *.
    rewrite (countCache_of_set_same _ _ _ _ _ _ _ Hown eq_refl Ha1 Hsum).
    rewrite (countCache_of_set_other _ _ _ _ (lit "messages") Ha1 eq_refl).
    rewrite (countCache_of_set_other _ _ _ _ (lit "tools") Ha1 eq_refl).
    destruct marked; lia. }
  destruct H1 as (-> & Hge & Hle).
  destruct (may_mark (cache_total body1) body1 (lit "tools"))
    as [[items named]|] eqn:Hm; inv_normal; [ | lia ].
  apply may_mark_Some in Hm. destruct Hm as [Hlt Hown].
  inv_bind H. destruct a as [marked items'].
  pose proof (mark_last_count _ _ _ Ha0) as Hsum.
  assert (Htot : cache_total body'
                 = cache_total body1 + (if marked then 1 else 0)).
  { unfold cache_total.
    rewrite (countCache_of_set_same _ _ _ _ _ _ _ Hown eq_refl H Hsum).
    rewrite (countCache_of_set_other _ _ _ _ (lit "messages") H eq_refl).
    rewrite (countCache_of_set_other _ _ _ _ (lit "system") H eq_refl).
    lia. }
  unfold MAX_CACHE_BLOCKS in Hlt. destruct marked; lia.
Qed.

(** A body with three annotations: the last system block takes the fourth
    and the tools are left alone. *)
Lemma cache_control_budget_witness :
  exists body' : value,
    place_cache_control three_marks_body = Normal body' /\
    cache_total three_marks_body = 3 /\
    cache_total body' <= 4.
Proof.
  eexists. split; [ vm_compute; reflexivity | ].
  split; [ reflexivity | ].
  refine (proj2 (proj2 (cache_control_budget three_marks_body _ _)) _).
  - vm_compute. reflexivity.
  - vm_compute. lia.
Defined.

(** C3 as stated fails on a body that arrives with more than 4
    annotations: the step removes none, and the body is forwarded with all
    5. *)
Lemma cache_control_counterexample :
  cache_total five_marks_body = 5
  /\ cache_total_of (place_cache_control five_marks_body) = Some 5
  /\ cache_total_of (messagesRelay_body default_config None five_marks_body) = Some 5.
Proof. vm_compute. repeat split; reflexivity. Qed.

Example cache_control_placed :
  cache_total_of (place_cache_control three_marks_body) = Some 4
  /\ cache_total_of (place_cache_control identity_body) = Some 1.
Proof. vm_compute. split; reflexivity. Qed.

(* ===================================================================== *)
(** * System prompt normalisation *)
(* ===================================================================== *)



Lemma some_Normal_true_nonempty p items :
  some p items = Normal true -> items <> [].
Proof. destruct items; [ discriminate | discriminate ]. Qed.

(** A block inserted behind the first one does not hide a block the scan
    accepted, as long as the callback does not throw on it. *)
Lemma some_splice p x bx items :
  some p items = Normal true ->
  p x = Normal bx ->
  some p (splice_1_0 x items) = Normal true.
Proof.
  destruct items as [|y rest]; [ discriminate | ].
  cbn [splice_1_0 firstn skipn app some]. intros H Hx.
  destruct (p y) as [[]|]; cbn [bind] in *; try discriminate;
    [ reflexivity | ].
  rewrite Hx. cbn [bind]. destruct bx; [ reflexivity | exact H ].
Qed.

Lemma some_splice_found p x items :
  some p items = Normal false ->
  items <> [] ->
  p x = Normal true ->
  some p (splice_1_0 x items) = Normal true.
Proof.
  destruct items as [|y rest]; [ congruence | ].
  cbn [splice_1_0 firstn skipn app some]. intros H _ Hx.
  destruct (p y) as [[]|]; cbn [bind] in *; try discriminate.
  rewrite Hx. reflexivity.
Qed.

Lemma is_identity_block_text_block :
  is_identity_block (text_block CC_SYSTEM) = Normal true.
Proof. vm_compute. reflexivity. Qed.

Lemma is_identity_block_proxy_block text :
  is_identity_block (proxy_block text) = Normal (includes text CC_SYSTEM).
Proof. reflexivity. Qed.

Lemma is_proxy_block_proxy_block text :
  is_proxy_block (proxy_block text) = Normal true.
Proof. reflexivity. Qed.


(** What a successful run of [ensureSystem] leaves in [system]. *)
Lemma ensureSystem_result custom body body' :
  ensureSystem custom body = Normal body' ->
  exists items named,
    own body' (lit "system") = Some (VArr items named) /\
    some is_identity_block items = Normal true /\
    match custom with
    | Some (_ :: _) => some is_proxy_block items = Normal true
    | _ => True
    end.
Proof.
  intros H. unfold ensureSystem in H. inv_bind H. inv_bind H.
  destruct (own a0 (lit "system")) as [[| | | |items named|]|];
    inv_normal.
  inv_bind H. inv_bind H.
  exists a2, named. split.
  { eapply own_set_member_same; [ exact H | reflexivity ]. }
  assert (Hauth : some is_identity_block
                    (if a1 then items
                     else unshift (text_block CC_SYSTEM) items)
                  = Normal true).
  { destruct a1; [ exact Ha1 | ].
    unfold unshift. cbn [some]. rewrite is_identity_block_text_block.
    reflexivity. }
  destruct custom as [[|c text]|]; inv_normal; auto.
  inv_bind Ha2. inv_normal.
  match goal with
  | Hc : some is_proxy_block _ = Normal ?b |- _ =>
      destruct b; split; auto;
      [ eapply some_splice; [ exact Hauth | ];
        apply is_identity_block_proxy_block
      | apply some_splice_found; [ exact Hc | | reflexivity ];
        eapply some_Normal_true_nonempty; exact Hauth ]
  end.
Qed.

Example ensureSystem_shapes :
  system_of (ensureSystem None (obj []))
  = Some (arr [text_block CC_SYSTEM])
  /\ system_of (ensureSystem None (obj [("system"%string, str "Be kind.")]))
     = Some (arr [text_block CC_SYSTEM; text_block (lit "Be kind.")])
  /\ system_of (ensureSystem (Some (lit "Be brief."))
                  (obj [("system"%string, str "Be kind.")]))
     = Some (arr [text_block CC_SYSTEM; proxy_block (lit "Be brief.");
                  text_block (lit "Be kind.")])
  /\ ensureSystem None (obj [("system"%string, VNum 5)]) = TypeError
  /\ ensureSystem None VNull = TypeError.
Proof. vm_compute. repeat split; reflexivity. Qed.




(* ===================================================================== *)
(** * The token manager *)
(* ===================================================================== *)

Module AuthFacts.
Import Auth.

Lemma nth_error_replace_nth {A} (l : list A) n m x :
  nth_error (update_nth n x l) m
  = if Nat.eqb n m
    then match nth_error l n with Some _ => Some x | None => None end
    else nth_error l m.
Proof.
  revert n m. induction l as [|y l IH]; intros [|n] [|m]; cbn; auto;
    try (destruct (Nat.eqb n m); reflexivity).
Qed.

Lemma length_replace_nth {A} (l : list A) n x :
  length (update_nth n x l) = length l.
Proof.
  revert n. induction l as [|y l IH]; intros [|n]; cbn; auto.
Qed.

Lemma pc_of_set_pc s op p op' :
  pc_of (set_pc op p s) op'
  = if Nat.eqb op op'
    then match pc_of s op with Some _ => Some p | None => None end
    else pc_of s op'.
Proof.
  unfold set_pc, pc_of.
  destruct (nth_error (ops s) op) as [o|] eqn:E.
  - cbn [ops set_ops]. rewrite nth_error_replace_nth, E.
    destruct (Nat.eqb op op'); reflexivity.
  - destruct (Nat.eqb_spec op op') as [<- | _]; [ | reflexivity ].
    rewrite E. reflexivity.
Qed.

Lemma set_pc_frame s op p :
  refreshing (set_pc op p s) = refreshing s /\
  callers (set_pc op p s) = callers s /\
  fetches (set_pc op p s) = fetches s /\
  length (ops (set_pc op p s)) = length (ops s) /\
  cached (set_pc op p s) = cached s /\
  heap (set_pc op p s) = heap s.
Proof.
  unfold set_pc. destruct (nth_error (ops s) op); cbn;
    rewrite ?length_replace_nth; repeat split; reflexivity.
Qed.

Section Facts.

Variable e : env.










(** ** Refreshes that are under way *)



Lemma refreshToken_new c s :
  snd (refreshToken c s) = length (ops s) /\
  outstanding (fst (refreshToken c s)) (length (ops s)) = true /\
  length (ops (fst (refreshToken c s))) = S (length (ops s)) /\
  fetches (fst (refreshToken c s)) = fetches s ++ refresh_calls (deref s c) /\
  callers (fst (refreshToken c s)) = callers s /\
  refreshing (fst (refreshToken c s)) = refreshing s.
Proof.
  unfold refreshToken, outstanding, pc_of, refresh_calls.
  destruct (refresh (deref s c)); cbn [fst snd ops set_ops add_fetch
    fetches callers refreshing];
    rewrite nth_error_app2, Nat.sub_diag, length_app by lia;
    cbn; rewrite ?app_nil_r; repeat split; auto; lia.
Qed.




Lemma outstanding_set_pc s op0 p op :
  outstanding s op0 = true ->
  (forall r, p <> Finalised r) ->
  outstanding (set_pc op0 p s) op = outstanding s op.
Proof.
  intros H0 Hp. unfold outstanding in *. rewrite pc_of_set_pc.
  destruct (Nat.eqb_spec op0 op) as [<- | _]; [ | reflexivity ].
  destruct (pc_of s op0) as [q|]; [ | discriminate ].
  destruct q; try discriminate; destruct p; try reflexivity;
    exfalso; eapply Hp; reflexivity.
Qed.


Lemma pc_outstanding s op p :
  pc_of s op = Some p -> (forall r, p <> Finalised r) ->
  outstanding s op = true.
Proof.
  unfold outstanding. intros -> Hp. destruct p; try reflexivity.
  exfalso. eapply Hp. reflexivity.
Qed.




(** ** Settled promises stay settled *)









End Facts.

End AuthFacts.



(** Four callers find the credential expired; one network call is made
    and all four receive the token it returned.  A caller arriving after
    the refresh is given the same token from the cache. *)
Example four_callers_one_refresh :
  let e := env_with_refresh in
  let s := Auth.exec e Auth.init
             ([Auth.Call 0; Auth.Call 3540000] ++ joined_refresh
              ++ [Auth.Finally 0; Auth.Call 3542000]) in
  Auth.fetches s = [lit "refresh-0"]
  /\ map (Auth.result s) [1; 2; 3; 4; 5]
     = repeat (Some (Auth.Resolved (lit "access-1"))) 5
  /\ Auth.refreshing s = None
  /\ Auth.writes s = [].
Proof. vm_compute. repeat split; reflexivity. Qed.

(** The same callers when the token endpoint answers 401: one network
    call, and the same failure for all four. *)
Example four_callers_one_failure :
  let e := env_with_refresh in
  let s := Auth.exec e Auth.init
             [Auth.Call 0; Auth.Call 3540000; Auth.Call 3540001;
              Auth.Call 3540002; Auth.FetchDone 0 (inl (false, 401%Z));
              Auth.Call 3540003; Auth.TextDone 0 (inl "denied"%string);
              Auth.Finally 0] in
  Auth.fetches s = [lit "refresh-0"]
  /\ map (Auth.result s) [1; 2; 3; 4]
     = repeat (Some (Auth.Rejected "Token refresh failed (401): denied")) 4.
Proof. vm_compute. repeat split; reflexivity. Qed.


(* ===================================================================== *)
(** * The request body between parsing and forwarding *)
(* ===================================================================== *)

Lemma str_eqb_sym (s t : jsstring) : str_eqb s t = str_eqb t s.
Proof.
  destruct (str_eqb s t) eqn:E.
  - apply str_eqb_eq in E. subst. symmetry. apply str_eqb_refl.
  - symmetry. apply str_eqb_neq. apply str_eqb_neq in E. congruence.
Qed.

Lemma keeps_strip_model_suffix k :
  str_eqb (lit "model") k = false -> keeps k strip_model_suffix.
Proof.
  intros Hk b b' H. unfold strip_model_suffix in H.
  inv_bind H. destruct a; inv_normal; [ | reflexivity ].
  destruct (own b (lit "model")) as [[]|]; inv_normal.
  eapply own_set_member_other; eassumption.
Qed.

Lemma not_assigned_key k :
  is_assigned_key k = false ->
  str_eqb (lit "system") k = false /\
  str_eqb (lit "model") k = false /\
  str_eqb (lit "tools") k = false /\
  str_eqb (lit "max_tokens") k = false /\
  str_eqb (lit "context_management") k = false.
Proof.
  unfold is_assigned_key, assigned_keys. cbn [existsb].
  rewrite !orb_false_iff. intros (H1 & H2 & H3 & H4 & H5 & _).
  rewrite !(str_eqb_sym _ k). auto.
Qed.

(** X1.  [messagesRelay] assigns five properties of the body ([system],
    [model], [tools], [max_tokens], [context_management]) and no other:
    when the rewriting completes, every other property of the parsed
    body, [messages] among them, has the value the client sent, and is
    absent if the client did not send it. *)
Theorem body_passes_other_properties :
  forall (cfg : config) (custom : option jsstring) (body body' : value)
         (k : jsstring),
    messagesRelay_body cfg custom body = Normal body' ->
    is_assigned_key k = false ->
    own body' k = own body k.
Proof.
  intros cfg custom body body' k H Hk.
  destruct (not_assigned_key k Hk) as (Hs & Hm & Ht & Hx & Hc).
  unfold messagesRelay_body in H.
  inv_bind H. inv_bind H. inv_bind H. inv_bind H. inv_bind H. inv_bind H.
  rewrite (keeps_inject_web_fetch k cfg Ht _ _ H).
  rewrite (keeps_manage_context k cfg Hc _ _ Ha4).
  rewrite (keeps_override_max_tokens k cfg Hx _ _ Ha3).
  rewrite <- (keeps_ensureSystem k custom Hs _ _ Ha).
  rewrite <- (keeps_strip_model_suffix k Hm _ _ Ha0).
  rewrite <- (keeps_strip_markers k Hs _ _ Ha1).
  destruct (CACHE_ENABLED cfg); inv_normal; [ | reflexivity ].
  apply (keeps_place_cache_control k Hs Ht _ _ Ha2).
Qed.

(** The messages of a streaming request come out as they went in. *)
Lemma body_passes_other_properties_witness :
  exists body' : value,
    messagesRelay_body default_config None streaming_body = Normal body' /\
    own body' (lit "messages") = own streaming_body (lit "messages").
Proof.
  destruct (messagesRelay_body default_config None streaming_body)
    as [body'|msg] eqn:E; [ | vm_compute in E; discriminate E ].
  exists body'. split; [ reflexivity | ].
  exact (body_passes_other_properties default_config None streaming_body
           body' (lit "messages") E eq_refl).
Defined.

Lemma lookup_remove_key_same k ps : lookup k (remove_key k ps) = None.
Proof.
  induction ps as [|[k' v] ps IH]; [ reflexivity | ].
  unfold remove_key in *. cbn [filter fst].
  destruct (str_eqb k' k) eqn:E; cbn [negb]; [ exact IH | ].
  cbn [lookup]. rewrite E. exact IH.
Qed.

Lemma lookup_remove_key_other k k' ps :
  str_eqb k k' = false -> lookup k' (remove_key k ps) = lookup k' ps.
Proof.
  intros Hk. induction ps as [|[k0 v] ps IH]; [ reflexivity | ].
  unfold remove_key in *. cbn [filter fst lookup].
  destruct (str_eqb k0 k) eqn:E; cbn [negb].
  - apply str_eqb_eq in E. subst k0. rewrite Hk. exact IH.
  - cbn [lookup]. destruct (str_eqb k0 k'); [ reflexivity | exact IH ].
Qed.

Lemma own_delete_member_other b k b' k' :
  delete_member b k = Normal b' ->
  str_eqb k k' = false ->
  own b' k' = own b k'.
Proof.
  destruct b; cbn [delete_member]; intros H Hk; inv_normal; try reflexivity;
    cbn [own]; now rewrite lookup_remove_key_other.
Qed.

Lemma own_delete_proxy b b' :
  delete_member b (lit "_proxy") = Normal b' ->
  own b' (lit "_proxy") = None.
Proof.
  destruct b; cbn [delete_member]; intros H; inv_normal; try reflexivity.
  - change (own (VArr items (remove_key (lit "_proxy") named)) (lit "_proxy"))
      with (lookup (lit "_proxy") (remove_key (lit "_proxy") named)).
    apply lookup_remove_key_same.
  - cbn [own]. apply lookup_remove_key_same.
Qed.

Lemma delete_proxy_retouched blocks blocks' :
  delete_proxy blocks = Normal blocks' ->
  unmarked blocks' /\ Forall2 retouched blocks blocks'.
Proof.
  revert blocks'. induction blocks as [|b rest IH]; intros blocks' H;
    cbn [delete_proxy] in H.
  - inv_normal. split; constructor.
  - inv_bind H. inv_bind H. inv_normal.
    destruct (IH _ Ha0) as [Hu Hr]. split; constructor; auto.
    + eapply own_delete_proxy. exact Ha.
    + right. left. exact Ha.
Qed.

Lemma Forall2_retouched_refl blocks : Forall2 retouched blocks blocks.
Proof. induction blocks; constructor; auto. now left. Qed.

Lemma mark_last_retouched items marked items' :
  mark_last items = Normal (marked, items') ->
  Forall2 retouched items items'.
Proof.
  unfold mark_last. destruct (pop items) as [[last|] init] eqn:Hpop;
    [ | discriminate ].
  apply pop_Some in Hpop. subst items. intros H. inv_bind H.
  destruct (negb (truthy_opt a)); inv_normal;
    [ | apply Forall2_retouched_refl ].
  inv_bind H. inv_normal. apply Forall2_app.
  - apply Forall2_retouched_refl.
  - constructor; [ | constructor ]. right. right. exact Ha0.
Qed.

(** A retouched block answers the scan for the identity block as before. *)
Lemma retouched_identity b b' :
  retouched b b' -> b <> VNull ->
  is_identity_block b' = is_identity_block b.
Proof.
  intros H Hb.
  assert (Hown : own b' (lit "type") = own b (lit "type") /\
                 own b' (lit "text") = own b (lit "text") /\
                 b' <> VNull).
  { destruct H as [-> | [H | H]]; [ auto | | ].
    - rewrite !(own_delete_member_other _ _ _ _ H) by reflexivity.
      repeat split. destruct b; cbn in H; inv_normal; congruence.
    - rewrite !(own_set_member_other _ _ _ _ _ H) by reflexivity.
      repeat split. destruct b; cbn in H; inv_normal; congruence. }
  destruct Hown as (Ht & Hx & Hn). unfold is_identity_block.
  destruct b; try congruence; destruct b'; try congruence;
    cbn [member bind]; rewrite Ht, Hx; reflexivity.
Qed.

Lemma retouched_unmarked b b' :
  retouched b b' ->
  own b (lit "_proxy") = None -> own b' (lit "_proxy") = None.
Proof.
  intros [-> | [H | H]] Hb; [ exact Hb | | ].
  - eapply own_delete_proxy. exact H.
  - now rewrite (own_set_member_other _ _ _ _ _ H) by reflexivity.
Qed.

Lemma some_identity_retouched items items' :
  Forall2 retouched items items' ->
  some is_identity_block items = Normal true ->
  some is_identity_block items' = Normal true.
Proof.
  induction 1 as [|b b' items items' Hb Hrest IH]; [ discriminate | ].
  cbn [some]. intros H.
  assert (Hn : b <> VNull) by (intros ->; discriminate H).
  rewrite (retouched_identity b b' Hb Hn).
  destruct (is_identity_block b) as [[]|]; cbn [bind] in *;
    [ reflexivity | auto | discriminate ].
Qed.

Lemma unmarked_retouched items items' :
  Forall2 retouched items items' -> unmarked items -> unmarked items'.
Proof.
  unfold unmarked. induction 1 as [|b b' items items' Hb Hrest IH];
    intros Hu; constructor; inversion Hu; subst; auto.
  eapply retouched_unmarked; eassumption.
Qed.

Lemma place_cache_control_system body body' items named :
  place_cache_control body = Normal body' ->
  own body (lit "system") = Some (VArr items named) ->
  exists items',
    own body' (lit "system") = Some (VArr items' named) /\
    Forall2 retouched items items'.
Proof.
  intros H Hsys. unfold place_cache_control in H.
  inv_bind H. destruct a as [existing body1].
  assert (H1 : exists items',
             own body1 (lit "system") = Some (VArr items' named) /\
             Forall2 retouched items items').
  { destruct (may_mark (cache_total body) body (lit "system"))
      as [[its nm]|] eqn:Hm; inv_normal.
    - apply may_mark_Some in Hm. destruct Hm as [_ Hown].
      rewrite Hsys in Hown. injection Hown as <- <-.
      inv_bind Ha. destruct a as [marked items']. inv_bind Ha. inv_normal.
      exists items'. split.
      + eapply own_set_member_same; [ eassumption | reflexivity ].
      + eapply mark_last_retouched. eassumption.
    - exists items. split; [ exact Hsys | apply Forall2_retouched_refl ]. }
  destruct H1 as (items' & Hsys1 & Hr). exists items'. split; [ | exact Hr ].
  destruct (may_mark existing body1 (lit "tools")) as [[its nm]|];
    inv_normal; [ | exact Hsys1 ].
  inv_bind H. destruct a as [marked its'].
  rewrite (own_set_member_other _ _ _ _ (lit "system") H eq_refl).
  exact Hsys1.
Qed.

(** X2.  Whatever the client sent as [system] and whether or not a custom
    prompt is configured, when the rewriting completes the body has an
    array as [system], the scan for the identity block succeeds on it, and
    none of its blocks carries the internal [_proxy] marker. *)
Theorem forwarded_system_shape :
  forall (cfg : config) (custom : option jsstring) (body body' : value),
    messagesRelay_body cfg custom body = Normal body' ->
    exists (items : list value) (named : list (jsstring * value)),
      own body' (lit "system") = Some (VArr items named) /\
      some is_identity_block items = Normal true /\
      unmarked items.
Proof.
  intros cfg custom body body' H. unfold messagesRelay_body in H.
  inv_bind H. inv_bind H. inv_bind H. inv_bind H. inv_bind H. inv_bind H.
  destruct (ensureSystem_result _ _ _ Ha) as (items0 & named & Hs0 & Hi0 & _).
  rewrite <- (keeps_strip_model_suffix (lit "system") eq_refl _ _ Ha0) in Hs0.
  unfold strip_markers in Ha1. rewrite Hs0 in Ha1. inv_bind Ha1.
  destruct (delete_proxy_retouched _ _ Ha5) as [Hu1 Hr1].
  pose proof (own_set_member_same _ _ _ _ Ha1 eq_refl) as Hs1.
  pose proof (some_identity_retouched _ _ Hr1 Hi0) as Hi1.
  assert (H2 : exists items2,
             own a2 (lit "system") = Some (VArr items2 named) /\
             Forall2 retouched a5 items2).
  { destruct (CACHE_ENABLED cfg); inv_normal.
    - eapply place_cache_control_system; eassumption.
    - exists a5. split; [ exact Hs1 | apply Forall2_retouched_refl ]. }
  destruct H2 as (items2 & Hs2 & Hr2).
  exists items2, named. split; [ | split ].
  - rewrite (keeps_inject_web_fetch (lit "system") cfg eq_refl _ _ H).
    rewrite (keeps_manage_context (lit "system") cfg eq_refl _ _ Ha4).
    rewrite (keeps_override_max_tokens (lit "system") cfg eq_refl _ _ Ha3).
    exact Hs2.
  - eapply some_identity_retouched; eassumption.
  - eapply unmarked_retouched; eassumption.
Qed.

(** A bare string prompt with a custom prompt configured. *)
Lemma forwarded_system_shape_witness :
  exists body' : value,
    messagesRelay_body default_config (Some (lit "Be brief."))
      (obj [("system"%string, str "Be kind.")]) = Normal body' /\
    exists (items : list value) (named : list (jsstring * value)),
      own body' (lit "system") = Some (VArr items named) /\
      some is_identity_block items = Normal true /\
      unmarked items.
Proof.
  destruct (messagesRelay_body default_config (Some (lit "Be brief."))
              (obj [("system"%string, str "Be kind.")]))
    as [body'|msg] eqn:E; [ | vm_compute in E; discriminate E ].
  exists body'. split; [ reflexivity | ].
  exact (forwarded_system_shape default_config (Some (lit "Be brief."))
           (obj [("system"%string, str "Be kind.")]) body' E).
Defined.

(* ===================================================================== *)
(** * Context management and the web-fetch tool *)
(* ===================================================================== *)

Lemma some_app_l p l r :
  some p l = Normal true -> some p (l ++ r) = Normal true.
Proof.
  induction l as [|x l IH]; [ discriminate | ].
  cbn [app some]. destruct (p x) as [[]|]; cbn [bind]; auto.
Qed.

Lemma some_snoc_found p l x :
  some p l = Normal false -> p x = Normal true ->
  some p (l ++ [x]) = Normal true.
Proof.
  intros H Hx. induction l as [|y l IH].
  - cbn [app some]. rewrite Hx. reflexivity.
  - cbn [app some] in *. destruct (p y) as [[]|]; cbn [bind] in *;
      try discriminate. auto.
Qed.

(** The guarded push: the list comes back as it was when the scan finds an
    entry of the kind, and with the new entry at its end when the scan
    finds none. *)
Lemma push_unless_typed_spec enabled ty edit l l' :
  push_unless_typed enabled ty edit l = Normal l' ->
  has_type ty edit = Normal true ->
  (enabled = true -> some (has_type ty) l' = Normal true) /\
  ((l' = l /\ (enabled = true -> some (has_type ty) l = Normal true)) \/
   (l' = l ++ [edit] /\ enabled = true /\
    some (has_type ty) l = Normal false)).
Proof.
  unfold push_unless_typed. intros H Hedit.
  destruct enabled; inv_normal; [ | split; [ discriminate | left; split;
                                             [ reflexivity | discriminate ] ] ].
  inv_bind H. inv_normal. destruct a.
  - split; [ auto | left; auto ].
  - split; [ intros _; now apply some_snoc_found | right; auto ].
Qed.

Lemma push_unless_typed_keeps enabled ty edit l l' ty' :
  push_unless_typed enabled ty edit l = Normal l' ->
  some (has_type ty') l = Normal true ->
  some (has_type ty') l' = Normal true.
Proof.
  unfold push_unless_typed. intros H Hl.
  destruct enabled; inv_normal; [ | exact Hl ].
  inv_bind H. inv_normal. destruct a; [ exact Hl | now apply some_app_l ].
Qed.

Lemma isOpus_same_model b b' :
  own b' (lit "model") = own b (lit "model") -> isOpus b' = isOpus b.
Proof. unfold isOpus. now intros ->. Qed.

Lemma some_app_false_l p l r :
  some p (l ++ r) = Normal false -> some p l = Normal false.
Proof.
  induction l as [|x l IH]; [ reflexivity | ].
  cbn [app some]. destruct (p x) as [[]|]; cbn [bind]; auto.
Qed.

Lemma compact_is_not_clear cfg : compact_edit cfg <> clear_tools_edit.
Proof. discriminate. Qed.

(** What [manage_context] leaves in the body of a request for the
    high-capability tier. *)
Lemma manage_context_opus cfg body body' :
  manage_context cfg body = Normal body' ->
  isOpus body = Normal true ->
  exists cm edits named,
    own body' (lit "context_management") = Some cm /\
    own cm (lit "edits") = Some (VArr edits named) /\
    (COMPACTION_ENABLED cfg = true ->
     some (has_type COMPACT_KIND) edits = Normal true) /\
    (CLEAR_TOOLS_ENABLED cfg = true ->
     some (has_type CLEAR_TOOLS_KIND) edits = Normal true) /\
    forall cm0 edits0 named0,
      own body (lit "context_management") = Some cm0 ->
      own cm0 (lit "edits") = Some (VArr edits0 named0) ->
      merged_into [(COMPACT_KIND, compact_edit cfg);
                   (CLEAR_TOOLS_KIND, clear_tools_edit)] edits0 edits.
Proof.
  intros H Hopus. unfold manage_context in H. rewrite Hopus in H.
  cbn [bind] in H. inv_bind H.
  destruct (own a (lit "context_management")) as [cmv|] eqn:Hcm;
    inv_normal.
  inv_bind H.
  destruct (own a0 (lit "edits")) as [[| | | |E named|]|] eqn:HE; inv_normal.
  inv_bind H. inv_bind H. inv_bind H.
  destruct (push_unless_typed_spec _ _ _ _ _ Ha1 eq_refl) as [Hc1 Hs1].
  destruct (push_unless_typed_spec _ _ _ _ _ Ha2 eq_refl) as [Hc2 Hs2].
  exists a3, a2, named. split; [ | split; [ | split; [ | split ] ] ].
  - eapply own_set_member_same; [ exact H | reflexivity ].
  - eapply own_set_member_same; [ exact Ha3 | reflexivity ].
  - intros Hen. eapply push_unless_typed_keeps; [ exact Ha2 | auto ].
  - exact Hc2.
  - intros cm0 edits0 named0 Hcm0 Hed0.
    assert (Htruthy : truthy cm0 = true)
      by (destruct cm0; try reflexivity; cbn in Hed0;
          try discriminate Hed0;
          destruct (str_eqb _ _) in Hed0; discriminate Hed0).
    rewrite Hcm0 in Ha. cbn [truthy_opt] in Ha. rewrite Htruthy in Ha.
    cbn [negb] in Ha. inv_normal.
    assert (cmv = cm0) by congruence. subst cmv.
    rewrite Hed0 in Ha0. inv_normal.
    assert (HE' : E = edits0 /\ named = named0) by (split; congruence).
    destruct HE' as [-> ->].
    destruct Hs1 as [[-> _] | (-> & _ & Hf1)];
      destruct Hs2 as [[-> _] | (-> & _ & Hf2)].
    + exists []. rewrite app_nil_r. repeat split; cbn; try tauto; lia.
    + exists [clear_tools_edit]. repeat split; cbn [length]; try lia.
      * intros x [<- | []]. exists CLEAR_TOOLS_KIND. cbn. auto.
      * intros ty x Hc [<- | []]. destruct Hc as [Hin | [Hin | []]].
        -- exfalso. apply (compact_is_not_clear cfg). congruence.
        -- assert (ty = CLEAR_TOOLS_KIND) by congruence. subst ty.
           exact Hf2.
    + exists [compact_edit cfg]. repeat split; cbn [length]; try lia.
      * intros x [<- | []]. exists COMPACT_KIND. cbn. auto.
      * intros ty x Hc [<- | []]. destruct Hc as [Hin | [Hin | []]].
        -- assert (ty = COMPACT_KIND) by congruence. subst ty. exact Hf1.
        -- exfalso. apply (compact_is_not_clear cfg). congruence.
    + exists [compact_edit cfg; clear_tools_edit].
      rewrite <- app_assoc. repeat split; cbn [length]; try lia.
      * intros x [<- | [<- | []]];
          [ exists COMPACT_KIND | exists CLEAR_TOOLS_KIND ]; cbn; auto.
      * intros ty x Hc _. destruct Hc as [Hin | [Hin | []]].
        -- assert (ty = COMPACT_KIND) by congruence. subst ty. exact Hf1.
        -- assert (ty = CLEAR_TOOLS_KIND) by congruence. subst ty.
           eapply some_app_false_l. exact Hf2.
Qed.

(** The body [manage_context] is given in the pipeline holds the client's
    [context_management], and the model it tests is the forwarded one. *)
Lemma pipeline_around_manage_context cfg custom body body' :
  messagesRelay_body cfg custom body = Normal body' ->
  exists before after,
    manage_context cfg before = Normal after /\
    own before (lit "context_management")
    = own body (lit "context_management") /\
    isOpus before = isOpus body' /\
    own body' (lit "context_management")
    = own after (lit "context_management").
Proof.
  intros H. unfold messagesRelay_body in H.
  inv_bind H. inv_bind H. inv_bind H. inv_bind H. inv_bind H. inv_bind H.
  exists a3, a4. split; [ exact Ha4 | ]. split; [ | split ].
  - rewrite (keeps_override_max_tokens (lit "context_management") cfg
               eq_refl _ _ Ha3).
    rewrite <- (keeps_ensureSystem (lit "context_management") custom
                  eq_refl _ _ Ha).
    rewrite <- (keeps_strip_model_suffix (lit "context_management")
                  eq_refl _ _ Ha0).
    rewrite <- (keeps_strip_markers (lit "context_management")
                  eq_refl _ _ Ha1).
    destruct (CACHE_ENABLED cfg); inv_normal; [ | reflexivity ].
    apply (keeps_place_cache_control (lit "context_management")
             eq_refl eq_refl _ _ Ha2).
  - symmetry. apply isOpus_same_model.
    rewrite (keeps_inject_web_fetch (lit "model") cfg eq_refl _ _ H).
    apply (keeps_manage_context (lit "model") cfg eq_refl _ _ Ha4).
  - apply (keeps_inject_web_fetch (lit "context_management") cfg
             eq_refl _ _ H).
Qed.

Lemma context_untouched cfg custom body body' :
  messagesRelay_body cfg custom body = Normal body' ->
  isOpus body' = Normal false ->
  own body' (lit "context_management")
  = own body (lit "context_management").
Proof.
  intros H Hopus.
  destruct (pipeline_around_manage_context _ _ _ _ H)
    as (before & after & Hm & Hcm & Hop & Hafter).
  rewrite Hafter, <- Hcm. rewrite <- Hop in Hopus.
  unfold manage_context in Hm. rewrite Hopus in Hm. cbn [bind] in Hm.
  inv_normal. reflexivity.
Qed.

(** X3.  When the model identifier of the rewritten body does not contain
    ["opus"] (or there is none), the rewritten body has the
    [context_management] the client sent, absent if the client sent none,
    whichever of compaction and tool-result clearing are enabled. *)
Theorem context_management_only_for_opus :
  forall (cfg : config) (custom : option jsstring) (body body' : value),
    messagesRelay_body cfg custom body = Normal body' ->
    isOpus body' = Normal false ->
    own body' (lit "context_management")
    = own body (lit "context_management").
Proof.
  intros cfg custom body body'. apply context_untouched.
Qed.

Lemma context_management_only_for_opus_witness :
  exists body' : value,
    messagesRelay_body default_config None three_marks_body = Normal body' /\
    own body' (lit "context_management") = None.
Proof.
  destruct (messagesRelay_body default_config None three_marks_body)
    as [body'|msg] eqn:E; [ | vm_compute in E; discriminate E ].
  exists body'. split; [ reflexivity | ].
  rewrite (context_management_only_for_opus default_config None
             three_marks_body body' E).
  - reflexivity.
  - vm_compute in E. injection E as <-. vm_compute. reflexivity.
Defined.

(** X4.  When the model identifier of the rewritten body contains
    ["opus"], the body has a [context_management.edits] array in which the
    scan finds a compaction edit when compaction is enabled and a
    clear-tool-uses edit when clearing is enabled.  The edits the client
    sent are kept in front, in their order; behind them come at most the
    two edits of the proxy, each only if the scan found no edit of its
    kind among the client's. *)
Theorem context_edits_merged :
  forall (cfg : config) (custom : option jsstring) (body body' : value),
    messagesRelay_body cfg custom body = Normal body' ->
    isOpus body' = Normal true ->
    exists (cm : value) (edits : list value)
           (named : list (jsstring * value)),
      own body' (lit "context_management") = Some cm /\
      own cm (lit "edits") = Some (VArr edits named) /\
      (COMPACTION_ENABLED cfg = true ->
       some (has_type COMPACT_KIND) edits = Normal true) /\
      (CLEAR_TOOLS_ENABLED cfg = true ->
       some (has_type CLEAR_TOOLS_KIND) edits = Normal true) /\
      forall cm0 edits0 named0,
        own body (lit "context_management") = Some cm0 ->
        own cm0 (lit "edits") = Some (VArr edits0 named0) ->
        merged_into [(COMPACT_KIND, compact_edit cfg);
                     (CLEAR_TOOLS_KIND, clear_tools_edit)] edits0 edits.
Proof.
  intros cfg custom body body' H Hopus.
  destruct (pipeline_around_manage_context _ _ _ _ H)
    as (before & after & Hm & Hcm & Hop & Hafter).
  rewrite <- Hop in Hopus.
  destruct (manage_context_opus _ _ _ Hm Hopus)
    as (cm & edits & named & H1 & H2 & H3 & H4 & H5).
  exists cm, edits, named. rewrite Hafter.
  repeat split; auto. intros cm0 edits0 named0 Hc0.
  apply H5. now rewrite Hcm.
Qed.

Lemma context_edits_merged_witness :
  exists (body' cm : value) (edits : list value)
         (named : list (jsstring * value)),
    messagesRelay_body default_config None opus_body = Normal body' /\
    own body' (lit "context_management") = Some cm /\
    own cm (lit "edits") = Some (VArr edits named) /\
    some (has_type COMPACT_KIND) edits = Normal true.
Proof.
  destruct (messagesRelay_body default_config None opus_body)
    as [body'|msg] eqn:E; [ | vm_compute in E; discriminate E ].
  assert (Hopus : isOpus body' = Normal true).
  { vm_compute in E. injection E as <-. vm_compute. reflexivity. }
  destruct (context_edits_merged default_config None opus_body body' E Hopus)
    as (cm & edits & named & H1 & H2 & H3 & _).
  exists body', cm, edits, named.
  repeat split; [ exact H1 | exact H2 | exact (H3 eq_refl) ].
Defined.

(** The inner statement of cache placement changes the last entry at most,
    by the assignment of its [cache_control]. *)
Lemma mark_last_annotated items marked items' :
  mark_last items = Normal (marked, items') ->
  last_annotated items items'.
Proof.
  unfold mark_last. destruct (pop items) as [[last|] init] eqn:Hpop;
    [ | discriminate ].
  apply pop_Some in Hpop. subst items. intros H. inv_bind H.
  destruct (negb (truthy_opt a)); inv_normal; [ | left; reflexivity ].
  inv_bind H. inv_normal. right. exists init, last, a0. auto.
Qed.

(** Cache placement on [tools]: an array keeps its entries in their order,
    the last one possibly annotated; anything else is left as it is. *)
Lemma place_cache_control_tools body body' :
  place_cache_control body = Normal body' ->
  (forall items named,
      own body (lit "tools") = Some (VArr items named) ->
      exists items',
        own body' (lit "tools") = Some (VArr items' named) /\
        last_annotated items items') /\
  (forall v, own body' (lit "tools") = Some v -> isArray v = true ->
             exists items named,
               own body (lit "tools") = Some (VArr items named)).
Proof.
  intros H. unfold place_cache_control in H.
  inv_bind H. destruct a as [existing body1].
  assert (E1 : own body1 (lit "tools") = own body (lit "tools")).
  { destruct (may_mark (cache_total body) body (lit "system"))
      as [[its nm]|]; inv_normal; [ | reflexivity ].
    inv_bind Ha. destruct a as [marked items']. inv_bind Ha. inv_normal.
    eapply own_set_member_other; [ eassumption | reflexivity ]. }
  rewrite <- E1.
  destruct (may_mark existing body1 (lit "tools")) as [[its nm]|] eqn:Hm;
    inv_normal.
  - apply may_mark_Some in Hm. destruct Hm as [_ Hown].
    inv_bind H. destruct a as [marked its'].
    pose proof (own_set_member_same _ _ _ _ H eq_refl) as Hs.
    split.
    + intros items named Ht. rewrite Hown in Ht.
      assert (its = items) by congruence. assert (nm = named) by congruence.
      subst. exists its'. split; [ exact Hs | ].
      eapply mark_last_annotated. eassumption.
    + intros v _ _. eauto.
  - split.
    + intros items named Ht. exists items.
      split; [ exact Ht | left; reflexivity ].
    + intros v Hv Harr. destruct v; try discriminate. eauto.
Qed.

(** The tools of the body [inject_web_fetch] is given in the pipeline. *)
Lemma pipeline_before_web_fetch cfg custom body body' :
  messagesRelay_body cfg custom body = Normal body' ->
  exists before,
    inject_web_fetch cfg before = Normal body' /\
    (forall items named,
        own body (lit "tools") = Some (VArr items named) ->
        exists kept,
          own before (lit "tools") = Some (VArr kept named) /\
          last_annotated items kept) /\
    (forall v, own before (lit "tools") = Some v -> isArray v = true ->
               exists items named,
                 own body (lit "tools") = Some (VArr items named)).
Proof.
  intros H. unfold messagesRelay_body in H.
  inv_bind H. inv_bind H. inv_bind H. inv_bind H. inv_bind H. inv_bind H.
  exists a4. split; [ exact H | ].
  assert (E1 : own a1 (lit "tools") = own body (lit "tools")).
  { rewrite (keeps_strip_markers (lit "tools") eq_refl _ _ Ha1).
    rewrite (keeps_strip_model_suffix (lit "tools") eq_refl _ _ Ha0).
    apply (keeps_ensureSystem (lit "tools") custom eq_refl _ _ Ha). }
  assert (E4 : own a4 (lit "tools") = own a2 (lit "tools")).
  { rewrite (keeps_manage_context (lit "tools") cfg eq_refl _ _ Ha4).
    apply (keeps_override_max_tokens (lit "tools") cfg eq_refl _ _ Ha3). }
  rewrite E4, <- E1.
  destruct (CACHE_ENABLED cfg); inv_normal.
  - apply place_cache_control_tools. exact Ha2.
  - split.
    + intros items named Ht. exists items.
      split; [ exact Ht | left; reflexivity ].
    + intros v Hv Harr. destruct v; try discriminate. eauto.
Qed.

Lemma web_fetch_tool_kind :
  has_type WEB_FETCH_KIND web_fetch_tool = Normal true.
Proof. reflexivity. Qed.

(** X5.  With the web-fetch tool enabled, the rewritten body has an array
    as [tools] in which the scan finds a tool of the web-fetch type.  An
    array sent by the client keeps its named properties and its tools in
    their order, none dropped, each as sent but for a [cache_control] set
    on the last; the proxy's tool follows them only if the scan found none
    of its type.  Anything else sent as [tools], or nothing, is replaced
    by the array of the proxy's tool alone. *)
Theorem web_fetch_tool_offered :
  forall (cfg : config) (custom : option jsstring) (body body' : value),
    messagesRelay_body cfg custom body = Normal body' ->
    WEB_FETCH_ENABLED cfg = true ->
    exists (tools : list value) (named : list (jsstring * value)),
      own body' (lit "tools") = Some (VArr tools named) /\
      some (has_type WEB_FETCH_KIND) tools = Normal true /\
      (forall sent named0,
          own body (lit "tools") = Some (VArr sent named0) ->
          named = named0 /\
          exists kept,
            last_annotated sent kept /\
            merged_into [(WEB_FETCH_KIND, web_fetch_tool)] kept tools) /\
      ((forall sent named0,
           own body (lit "tools") <> Some (VArr sent named0)) ->
       tools = [web_fetch_tool] /\ named = []).
Proof.
  intros cfg custom body body' H Hon.
  destruct (pipeline_before_web_fetch _ _ _ _ H)
    as (before & Hw & Hkept & Hnone).
  unfold inject_web_fetch in Hw. rewrite Hon in Hw. inv_bind Hw.
  destruct (own a (lit "tools")) as [[| | | |tools0 named|]|] eqn:Ht;
    try discriminate.
  inv_bind Hw. rename a0 into tools.
  destruct (push_unless_typed_spec _ _ _ _ _ Ha0 web_fetch_tool_kind)
    as [Hfound Hcases].
  exists tools, named. split; [ | split; [ auto | ] ].
  { eapply own_set_member_same; [ eassumption | reflexivity ]. }
  assert (Hmerge : merged_into [(WEB_FETCH_KIND, web_fetch_tool)]
                     tools0 tools).
  { destruct Hcases as [[-> _] | (-> & _ & Hno)].
    - exists []. rewrite app_nil_r. repeat split;
        [ intros x [] | intros ty x _ [] | cbn; lia ].
    - exists [web_fetch_tool]. repeat split.
      + intros x [<- | []]. exists WEB_FETCH_KIND. left. reflexivity.
      + intros ty x [Hc | []] _.
        assert (ty = WEB_FETCH_KIND) by congruence. subst ty. exact Hno.
      + cbn. lia. }
  destruct (own before (lit "tools")) as [v|] eqn:Hb.
  - destruct (isArray v) eqn:Harr.
    + destruct v as [| | | |its nm|]; try discriminate. inv_normal.
      assert (its = tools0) by congruence.
      assert (nm = named) by congruence. subst.
      split.
      * intros sent named0 Hsent.
        destruct (Hkept _ _ Hsent) as (kept & Hk & Hr).
        assert (kept = tools0) by congruence.
        assert (named0 = named) by congruence. subst.
        split; [ reflexivity | ]. exists tools0. auto.
      * intros Hnot. destruct (Hnone _ eq_refl eq_refl) as (s & n & Hs).
        destruct (Hnot _ _ Hs).
    + assert (Hset : set_member before (lit "tools") (arr []) = Normal a)
        by (destruct v; try discriminate; exact Ha).
      pose proof (own_set_member_same _ _ _ _ Hset eq_refl) as Hs.
      rewrite Hs in Ht. unfold arr in Ht.
      assert (tools0 = []) by congruence. assert (named = []) by congruence.
      subst. split.
      * intros sent named0 Hsent.
        destruct (Hkept _ _ Hsent) as (kept & Hk & _).
        assert (v = VArr kept named0) by congruence. subst. discriminate.
      * intros _. split; [ | reflexivity ].
        destruct Hcases as [[-> Hyes] | (-> & _ & _)];
          [ specialize (Hyes eq_refl); discriminate | reflexivity ].
  - pose proof (own_set_member_same _ _ _ _ Ha eq_refl) as Hs.
    rewrite Hs in Ht. unfold arr in Ht.
    assert (tools0 = []) by congruence. assert (named = []) by congruence.
    subst. split.
    + intros sent named0 Hsent.
      destruct (Hkept _ _ Hsent) as (kept & Hk & _). discriminate.
    + intros _. split; [ | reflexivity ].
      destruct Hcases as [[-> Hyes] | (-> & _ & _)];
        [ specialize (Hyes eq_refl); discriminate | reflexivity ].
Qed.

(** The client's two tools stay in front; it brought a web-fetch tool of
    its own, so none is added. *)
Lemma web_fetch_tool_offered_witness :
  exists (body' : value) (tools : list value)
         (named : list (jsstring * value)),
    messagesRelay_body default_config None opus_body = Normal body' /\
    own body' (lit "tools") = Some (VArr tools named) /\
    some (has_type WEB_FETCH_KIND) tools = Normal true.
Proof.
  destruct (messagesRelay_body default_config None opus_body)
    as [body'|msg] eqn:E; [ | vm_compute in E; discriminate E ].
  destruct (web_fetch_tool_offered default_config None opus_body body' E
              eq_refl) as (tools & named & H1 & H2 & _).
  exists body', tools, named. auto.
Defined.

(* ===================================================================== *)
(** * The totals of the ledger *)
(* ===================================================================== *)









(* ===================================================================== *)
(** * The text between the frames *)
(* ===================================================================== *)

(** The piece in front of the first occurrence of a separator holds no
    occurrence of it. *)
Lemma indexOf_firstn_None (s : jsstring) (c : char16) (sep' : jsstring)
    (i : nat) :
  indexOf s (c :: sep') = Some i -> indexOf (firstn i s) (c :: sep') = None.
Proof.
  intros E. destruct (indexOf (firstn i s) (c :: sep')) as [k|] eqn:Ek;
    [ exfalso | reflexivity ].
  pose proof (indexOf_app_l _ (skipn i s) _ _ Ek) as Hk.
  rewrite firstn_skipn, E in Hk.
  destruct (indexOf_Some _ _ _ Ek) as (_ & Hlen & _).
  rewrite length_firstn in Hlen. cbn [length] in Hlen.
  assert (k = i) by congruence. lia.
Qed.

Lemma split_ne_pieces (c : char16) (sep' s : jsstring) :
  Forall (fun piece => indexOf piece (c :: sep') = None) (split_ne c sep' s).
Proof.
  induction s as [s IH] using length_ind. rewrite split_ne_eq.
  destruct (indexOf s (c :: sep')) as [i|] eqn:E.
  - destruct (indexOf_Some _ _ _ E) as (_ & Hlen & _). cbn [length] in Hlen.
    constructor; [ now apply indexOf_firstn_None | ].
    apply IH. rewrite length_skipn. cbn [length]. lia.
  - constructor; [ exact E | constructor ].
Qed.







(* ===================================================================== *)
(** * Which frames the usage record comes from *)
(* ===================================================================== *)











(* ===================================================================== *)
(** * The token manager: the credential file and the slot *)
(* ===================================================================== *)

Module AuthInvariants.
Import Auth.
Import AuthFacts.

(** What the expiry test and the start of a refresh leave alone. *)
Lemma check_frame now c s :
  writes (fst (check now c s)) = writes s /\
  callers (fst (check now c s)) = callers s /\
  heap (fst (check now c s)) = heap s /\
  cached (fst (check now c s)) = cached s /\
  reads_file (snd (check now c s)) = false.
Proof.
  unfold check.
  destruct (now <? expires (deref s c) - EXPIRY_BUFFER_MS)%Z;
    [ repeat split | ].
  destruct (refreshing s); [ repeat split | ].
  unfold refreshToken. destruct (refresh (deref s c)); repeat split.
Qed.

Lemma outstanding_callers s l op :
  outstanding (set_callers l s) op = outstanding s op.
Proof. reflexivity. Qed.

Lemma check_slot_live now c s :
  slot_live s ->
  slot_live (fst (check now c s)) /\
  forall op, snd (check now c s) = Following op ->
             outstanding (fst (check now c s)) op = true.
Proof.
  intros Inv. unfold check.
  destruct (now <? expires (deref s c) - EXPIRY_BUFFER_MS)%Z;
    [ split; [ exact Inv | discriminate ] | ].
  destruct (refreshing s) as [op0|] eqn:Hslot.
  - split; [ exact Inv | ]. cbn [fst snd]. intros op [= <-].
    apply Inv. exact Hslot.
  - pose proof (refreshToken_new c s) as (Hsnd & Hout & _).
    destruct (refreshToken c s) as [s' op']. cbn [fst snd] in *. subst op'.
    split.
    + intros op. cbn [refreshing set_refreshing]. intros [= <-]. exact Hout.
    + intros op [= <-]. exact Hout.
Qed.

Section Invariants.

Variable e : env.

Lemma step_slot_live s t : slot_live s -> slot_live (step e s t).
Proof.
  intros Inv. destruct t as [now | c r now | op0 r | op0 text
                            | op0 r now | op0 r | op0]; cbn [step].
  - unfold getAccessToken. destruct (cached s) as [c|].
    + destruct (check_slot_live now c s Inv) as [H _].
      destruct (check now c s) as [s' c']. exact H.
    + destruct (initFromEnv e now) as [a|]; [ | exact Inv ].
      cbn [alloc].
      match goal with
      | |- context [check now ?c ?s1] =>
          destruct (check_slot_live now c s1 Inv) as [H _];
          destruct (check now c s1) as [s' c']; exact H
      end.
  - destruct (nth_error (callers s) c) as [[]|]; try exact Inv.
    destruct r as [a | err]; [ | exact Inv ].
    cbn [alloc].
    match goal with
    | |- context [check now ?c ?s1] =>
        destruct (check_slot_live now c s1 Inv) as [H _];
        destruct (check now c s1) as [s' c']; exact H
    end.
  - destruct (pc_of s op0) as [[]|] eqn:Hpc; try exact Inv.
    assert (Hout : outstanding s op0 = true)
      by (eapply pc_outstanding; [ exact Hpc | discriminate ]).
    destruct r as [[[] status] | err]; intros op Hop;
      match goal with
      | H : refreshing (set_pc ?o ?p ?s1) = _ |- _ =>
          destruct (set_pc_frame s1 o p) as (Hr & _); rewrite Hr in H
      end;
      (rewrite outstanding_set_pc; [ now apply Inv | exact Hout
                                    | discriminate ]).
  - destruct (pc_of s op0) as [[]|] eqn:Hpc; try exact Inv.
    assert (Hout : outstanding s op0 = true)
      by (eapply pc_outstanding; [ exact Hpc | discriminate ]).
    destruct text; intros op Hop;
      match goal with
      | H : refreshing (set_pc ?o ?p ?s1) = _ |- _ =>
          destruct (set_pc_frame s1 o p) as (Hr & _); rewrite Hr in H
      end;
      (rewrite outstanding_set_pc; [ now apply Inv | exact Hout
                                    | discriminate ]).
  - destruct (nth_error (ops s) op0) as [[a []]|] eqn:Hop0; try exact Inv.
    assert (Hout : outstanding s op0 = true)
      by (unfold outstanding, pc_of; now rewrite Hop0).
    destruct r as [data | err]; intros op Hop;
      match goal with
      | H : refreshing (set_pc ?o ?p ?s1) = _ |- _ =>
          destruct (set_pc_frame s1 o p) as (Hr & _); rewrite Hr in H
      end.
    + rewrite outstanding_set_pc;
        [ | unfold writeAuth; destruct (CLAUDE_OAUTH_TOKEN e); exact Hout
          | discriminate ].
      unfold writeAuth in *. destruct (CLAUDE_OAUTH_TOKEN e);
        apply Inv; exact Hop.
    + rewrite outstanding_set_pc; [ now apply Inv | exact Hout
                                   | discriminate ].
  - destruct (nth_error (ops s) op0) as [[a []]|] eqn:Hop0; try exact Inv.
    assert (Hout : outstanding s op0 = true)
      by (unfold outstanding, pc_of; now rewrite Hop0).
    destruct r as [err | ]; intros op Hop;
      match goal with
      | H : refreshing (set_pc ?o ?p ?s1) = _ |- _ =>
          destruct (set_pc_frame s1 o p) as (Hr & _); rewrite Hr in H
      end;
      (rewrite outstanding_set_pc; [ now apply Inv | exact Hout
                                    | discriminate ]).
  - destruct (pc_of s op0) as [[]|] eqn:Hpc; try exact Inv.
    intros op Hop. discriminate Hop.
Qed.

Lemma exec_slot_live ts s : slot_live s -> slot_live (exec e s ts).
Proof.
  revert s. induction ts as [|t ts IH]; intros s Inv; [ exact Inv | ].
  cbn [exec fold_left]. apply IH. now apply step_slot_live.
Qed.

Lemma init_slot_live : slot_live init.
Proof. intros op H. discriminate H. Qed.

(** A caller that a turn hands a promise is handed the promise of a
    refresh that is outstanding after the turn. *)
Lemma step_hands_outstanding s t k op :
  slot_live s ->
  nth_error (callers (step e s t)) k = Some (Following op) ->
  nth_error (callers s) k <> Some (Following op) ->
  outstanding (step e s t) op = true.
Proof.
  intros Inv Hk Hnot.
  assert (Hsame : callers (step e s t) = callers s -> False).
  { intros E. rewrite E in Hk. contradiction. }
  destruct t as [now | c r now | op0 r | op0 text
                | op0 r now | op0 r | op0]; cbn [step] in *.
  - unfold getAccessToken in *. destruct (cached s) as [c|].
    + destruct (check_slot_live now c s Inv) as [_ H].
      destruct (check_frame now c s) as (_ & Hc & _).
      destruct (check now c s) as [s' c']. cbn [fst snd] in *.
      unfold add_caller in *. rewrite outstanding_callers.
      cbn [callers set_callers] in Hk. rewrite Hc in Hk.
      destruct (Nat.lt_ge_cases k (length (callers s))) as [Hlt | Hge].
      * rewrite nth_error_app1 in Hk by exact Hlt. contradiction.
      * rewrite nth_error_app2 in Hk by exact Hge.
        destruct (k - length (callers s)) as [|[|]]; try discriminate Hk.
        apply H. cbn in Hk. congruence.
    + destruct (initFromEnv e now) as [a|].
      * cbn [alloc] in *.
        match goal with
        | |- context [check now ?c ?s1] =>
            destruct (check_slot_live now c s1 Inv) as [_ H];
            destruct (check_frame now c s1) as (_ & Hc & _);
            destruct (check now c s1) as [s' c']
        end.
        cbn [fst snd] in *.
        unfold add_caller in *. rewrite outstanding_callers.
        cbn [callers set_callers] in Hk. rewrite Hc in Hk.
        cbn [callers set_cached set_envTokenExpires] in Hk.
        destruct (Nat.lt_ge_cases k (length (callers s))) as [Hlt | Hge].
        -- rewrite nth_error_app1 in Hk by exact Hlt. contradiction.
        -- rewrite nth_error_app2 in Hk by exact Hge.
           destruct (k - length (callers s)) as [|[|]]; try discriminate Hk.
           apply H. cbn in Hk. congruence.
      * unfold add_caller in Hk. cbn [callers set_callers] in Hk.
        destruct (Nat.lt_ge_cases k (length (callers s))) as [Hlt | Hge].
        -- rewrite nth_error_app1 in Hk by exact Hlt. contradiction.
        -- rewrite nth_error_app2 in Hk by exact Hge.
           destruct (k - length (callers s)) as [|[|]]; discriminate Hk.
  - destruct (nth_error (callers s) c) as [[]|] eqn:Hrd;
      try (exfalso; apply Hsame; reflexivity).
    destruct r as [a | err].
    + cbn [alloc] in *.
      match goal with
      | |- context [check now ?c ?s1] =>
          destruct (check_slot_live now c s1 Inv) as [_ H];
          destruct (check_frame now c s1) as (_ & Hc & _);
          destruct (check now c s1) as [s' c']
      end.
      cbn [fst snd] in *. rewrite outstanding_callers.
      cbn [callers set_callers] in Hk. rewrite Hc in Hk.
      cbn [callers set_cached] in Hk.
      rewrite nth_error_replace_nth in Hk.
      destruct (Nat.eqb_spec c k) as [-> | _]; [ | contradiction ].
      rewrite Hrd in Hk. apply H. congruence.
    + cbn [callers set_callers] in Hk.
      rewrite nth_error_replace_nth in Hk.
      destruct (Nat.eqb_spec c k) as [-> | _]; [ | contradiction ].
      rewrite Hrd in Hk. discriminate Hk.
  - exfalso. apply Hsame.
    destruct (pc_of s op0) as [[]|]; try reflexivity.
    destruct r as [[[] status] | err];
      match goal with
      | |- context [set_pc ?o ?p ?s1] =>
          destruct (set_pc_frame s1 o p) as (_ & -> & _); reflexivity
      end.
  - exfalso. apply Hsame.
    destruct (pc_of s op0) as [[]|]; try reflexivity.
    destruct text;
      match goal with
      | |- context [set_pc ?o ?p ?s1] =>
          destruct (set_pc_frame s1 o p) as (_ & -> & _); reflexivity
      end.
  - exfalso. apply Hsame.
    destruct (nth_error (ops s) op0) as [[a []]|]; try reflexivity.
    destruct r as [data | err];
      match goal with
      | |- context [set_pc ?o ?p ?s1] =>
          destruct (set_pc_frame s1 o p) as (_ & -> & _)
      end; [ | reflexivity ].
    unfold writeAuth. destruct (CLAUDE_OAUTH_TOKEN e); reflexivity.
  - exfalso. apply Hsame.
    destruct (nth_error (ops s) op0) as [[a []]|]; try reflexivity.
    destruct r as [err | ];
      match goal with
      | |- context [set_pc ?o ?p ?s1] =>
          destruct (set_pc_frame s1 o p) as (_ & -> & _); reflexivity
      end.
  - exfalso. apply Hsame.
    destruct (pc_of s op0) as [[]|]; try reflexivity.
    cbn [callers set_refreshing].
    match goal with
    | |- context [set_pc ?o ?p ?s1] =>
        destruct (set_pc_frame s1 o p) as (_ & -> & _); reflexivity
    end.
Qed.

(** With the access token taken from the environment, no turn writes the
    credential file or sends a caller through [readAuth]. *)
Lemma step_file_free s t tok :
  CLAUDE_OAUTH_TOKEN e = Some tok ->
  writes s = [] /\ forallb (fun c => negb (reads_file c)) (callers s) = true ->
  writes (step e s t) = [] /\
  forallb (fun c => negb (reads_file c)) (callers (step e s t)) = true.
Proof.
  intros Htok [Hw Hc].
  destruct t as [now | c r now | op0 r | op0 text
                | op0 r now | op0 r | op0]; cbn [step].
  - unfold getAccessToken, initFromEnv. rewrite Htok.
    destruct (cached s) as [c|].
    + destruct (check_frame now c s) as (Hw' & Hc' & _ & _ & Hr).
      destruct (check now c s) as [s' c']. cbn [fst snd] in *.
      unfold add_caller. cbn [writes callers set_callers].
      rewrite Hw', Hc', forallb_app, Hc. cbn. rewrite Hr. auto.
    + cbn [alloc].
      match goal with
      | |- context [check now ?c ?s1] =>
          destruct (check_frame now c s1) as (Hw' & Hc' & _ & _ & Hr);
          destruct (check now c s1) as [s' c']
      end.
      cbn [fst snd] in *.
      unfold add_caller. cbn [writes callers set_callers].
      rewrite Hw', Hc', forallb_app. cbn. rewrite Hc, Hr. auto.
  - destruct (nth_error (callers s) c) as [[]|] eqn:Hrd; auto.
    exfalso. apply nth_error_In in Hrd.
    rewrite forallb_forall in Hc. specialize (Hc _ Hrd). discriminate Hc.
  - destruct (pc_of s op0) as [[]|]; auto.
    destruct r as [[[] status] | err]; unfold set_pc;
      destruct (nth_error (ops s) op0); auto.
  - destruct (pc_of s op0) as [[]|]; auto.
    destruct text; unfold set_pc; destruct (nth_error (ops s) op0); auto.
  - destruct (nth_error (ops s) op0) as [[a []]|] eqn:Hop; auto.
    destruct r as [data | err]; unfold set_pc, writeAuth; rewrite ?Htok;
      cbn [ops set_heap]; rewrite Hop; auto.
  - destruct (nth_error (ops s) op0) as [[a []]|] eqn:Hop; auto.
    destruct r as [err | ]; unfold set_pc; cbn [ops set_cached];
      rewrite Hop; auto.
  - destruct (pc_of s op0) as [[]|]; auto.
    unfold set_pc; destruct (nth_error (ops s) op0); auto.
Qed.

End Invariants.

End AuthInvariants.

(** X11.  With [CLAUDE_OAUTH_TOKEN] set, the credential file is never
    touched: whatever the callers, the answers of the token endpoint and
    the interleaving, nothing is written to the file and no caller goes
    through [readAuth]. *)
Theorem env_credential_never_touches_file :
  forall (e : Auth.env) (tok : jsstring) (ts : list Auth.turn),
    Auth.CLAUDE_OAUTH_TOKEN e = Some tok ->
    Auth.writes (Auth.exec e Auth.init ts) = [] /\
    forall (k : nat) (c : Auth.caller),
      nth_error (Auth.callers (Auth.exec e Auth.init ts)) k = Some c ->
      reads_file c = false.
Proof.
  intros e tok ts Htok.
  assert (H : Auth.writes (Auth.exec e Auth.init ts) = [] /\
              forallb (fun c => negb (reads_file c))
                (Auth.callers (Auth.exec e Auth.init ts)) = true).
  { assert (H0 : Auth.writes Auth.init = [] /\
                 forallb (fun c => negb (reads_file c))
                   (Auth.callers Auth.init) = true) by (split; reflexivity).
    revert H0. generalize Auth.init. induction ts as [|t ts IH];
      intros s Hs; [ exact Hs | ].
    cbn [Auth.exec fold_left]. apply IH.
    eapply AuthInvariants.step_file_free; eassumption. }
  destruct H as [Hw Hc]. split; [ exact Hw | ].
  intros k c Hk. apply nth_error_In in Hk.
  rewrite forallb_forall in Hc. specialize (Hc _ Hk).
  now apply Bool.negb_true_iff in Hc.
Qed.

(** A whole refresh with the tokens from the environment: the new token
    is kept in memory only. *)
Lemma env_credential_never_touches_file_witness :
  Auth.writes
    (Auth.exec env_with_refresh Auth.init (Auth.Call 0 :: joined_refresh))
  = [].
Proof.
  exact (proj1 (env_credential_never_touches_file env_with_refresh
                  (lit "access-0") (Auth.Call 0 :: joined_refresh) eq_refl)).
Defined.

(** X12.  A caller is never handed the promise of a refresh that is over:
    in every state the process can reach, when a turn hands a caller the
    promise of a refresh, the [finally] callback of that refresh has not
    run.  So the outcome of a finished refresh, a failure in particular,
    is not served to later callers. *)
Theorem handed_promise_is_outstanding :
  forall (e : Auth.env) (ts : list Auth.turn) (t : Auth.turn)
         (k op : nat),
    let s := Auth.exec e Auth.init ts in
    nth_error (Auth.callers (Auth.step e s t)) k = Some (Auth.Following op) ->
    nth_error (Auth.callers s) k <> Some (Auth.Following op) ->
    Auth.outstanding (Auth.step e s t) op = true.
Proof.
  intros e ts t k op s. apply AuthInvariants.step_hands_outstanding.
  apply AuthInvariants.exec_slot_live. apply AuthInvariants.init_slot_live.
Qed.

(** After a refresh has failed for want of a refresh token and its
    callback has run, the next caller starts refresh number 1. *)
Lemma handed_promise_is_outstanding_witness :
  Auth.outstanding
    (Auth.step env_without_refresh
       (Auth.exec env_without_refresh Auth.init
          [Auth.Call 0; Auth.Call 3540001; Auth.Finally 0])
       (Auth.Call 3540002)) 1 = true.
Proof.
  apply (handed_promise_is_outstanding env_without_refresh
           [Auth.Call 0; Auth.Call 3540001; Auth.Finally 0]
           (Auth.Call 3540002) 2 1).
  - vm_compute. reflexivity.
  - vm_compute. discriminate.
Defined.

(* ===================================================================== *)
(** * The token manager: the end of a refresh *)
(* ===================================================================== *)

Module AuthRefresh.
Import Auth.
Import AuthFacts.

Lemma set_pc_at s op a p0 p :
  nth_error (ops s) op = Some {| auth := a; pc := p0 |} ->
  nth_error (ops (set_pc op p s)) op = Some {| auth := a; pc := p |}.
Proof.
  intros H. unfold set_pc. rewrite H. cbn [ops set_ops auth].
  rewrite nth_error_replace_nth, Nat.eqb_refl, H. reflexivity.
Qed.

Lemma set_pc_rest s op p :
  writes (set_pc op p s) = writes s /\
  envTokenExpires (set_pc op p s) = envTokenExpires s.
Proof. unfold set_pc. destruct (nth_error (ops s) op); split; reflexivity. Qed.

Lemma nth_update_nth {A} (l : list A) (n : nat) (x d : A) :
  n < length l -> nth n (update_nth n x l) d = x.
Proof.
  intros H. apply nth_error_nth. rewrite nth_error_replace_nth, Nat.eqb_refl.
  destruct (nth_error l n) eqn:E; [ reflexivity | ].
  apply nth_error_None in E. lia.
Qed.

Section Refresh.

Variable e : env.

(** The state once the token response has been read and [writeAuth] has
    been called: the object the refresh was given holds the new tokens,
    and it is the object handed to [writeAuth]. *)
Lemma after_json s op a data now :
  nth_error (ops s) op = Some {| auth := a; pc := AwaitJson |} ->
  a < length (heap s) ->
  let s1 := step e s (JsonDone op (inl data) now) in
  nth_error (ops s1) op = Some {| auth := a; pc := AwaitWrite |} /\
  access (deref s1 a) = access_token data /\
  expires (deref s1 a) = (now + expires_in data * 1000)%Z /\
  refresh (deref s1 a) = match refresh_token data with
                         | Some (c :: t) => c :: t
                         | _ => refresh (deref s a)
                         end /\
  cached s1 = cached s /\
  refreshing s1 = refreshing s /\
  callers s1 = callers s /\
  fetches s1 = fetches s /\
  length (ops s1) = length (ops s) /\
  writes s1 = writes s ++ match CLAUDE_OAUTH_TOKEN e with
                          | Some _ => []
                          | None => [deref s1 a]
                          end.
Proof.
  intros Hop Ha. cbn [step]. rewrite Hop.
  set (new := {| type := type (deref s a);
                 access := access_token data;
                 refresh := match refresh_token data with
                            | Some (c :: t) => c :: t
                            | _ => refresh (deref s a)
                            end;
                 expires := now + expires_in data * 1000 |}).
  set (s0 := writeAuth e new (set_heap (update_nth a new (heap s)) s)).
  assert (H0 : ops s0 = ops s /\ heap s0 = update_nth a new (heap s) /\
               cached s0 = cached s /\ refreshing s0 = refreshing s /\
               callers s0 = callers s /\ fetches s0 = fetches s /\
               writes s0 = writes s ++ match CLAUDE_OAUTH_TOKEN e with
                                       | Some _ => []
                                       | None => [new]
                                       end).
  { unfold s0, writeAuth. destruct (CLAUDE_OAUTH_TOKEN e);
      cbn; rewrite ?app_nil_r; repeat split. }
  destruct H0 as (Hops & Hheap & Hc & Hr & Hcl & Hf & Hw).
  assert (Hd : deref (set_pc op AwaitWrite s0) a = new).
  { unfold deref.
    destruct (set_pc_frame s0 op AwaitWrite) as (_ & _ & _ & _ & _ & ->).
    rewrite Hheap. now apply nth_update_nth. }
  rewrite Hd.
  destruct (set_pc_frame s0 op AwaitWrite) as (-> & -> & -> & -> & -> & _).
  destruct (set_pc_rest s0 op AwaitWrite) as (-> & _).
  rewrite Hops. repeat split; auto.
  rewrite <- Hops in Hop. apply (set_pc_at _ _ _ _ _ Hop).
Qed.

(** A caller that finds the cached token fresh is answered with it, and
    nothing else moves. *)
Lemma call_fresh s a now :
  cached s = Some a ->
  (now < expires (deref s a) - EXPIRY_BUFFER_MS)%Z ->
  step e s (Call now) = add_caller (Returned (access (deref s a))) s.
Proof.
  intros Hc Hnow. cbn [step]. unfold getAccessToken, check. rewrite Hc.
  apply Z.ltb_lt in Hnow. rewrite Hnow. reflexivity.
Qed.

(** A caller that finds the cached token expired and the slot empty
    starts a refresh that posts the refresh token of the cached object. *)
Lemma call_expired s a now :
  cached s = Some a ->
  refreshing s = None ->
  (expires (deref s a) - EXPIRY_BUFFER_MS <= now)%Z ->
  fetches (step e s (Call now)) = fetches s ++ refresh_calls (deref s a) /\
  refreshing (step e s (Call now)) = Some (length (ops s)).
Proof.
  intros Hc Hslot Hnow. cbn [step]. unfold getAccessToken, check.
  rewrite Hc, Hslot. apply Z.ltb_ge in Hnow. rewrite Hnow.
  destruct (refreshToken_new a s) as (Hsnd & _ & _ & Hf & _).
  destruct (refreshToken a s) as [s' op']. cbn [fst snd] in *. subst op'.
  split; [ exact Hf | reflexivity ].
Qed.

End Refresh.

End AuthRefresh.

Module AuthOutcome.
Import Auth.
Import AuthFacts.
Import AuthRefresh.

Lemma set_pc_deref s op p a : deref (set_pc op p s) a = deref s a.
Proof.
  unfold deref. destruct (set_pc_frame s op p) as (_ & _ & _ & _ & _ & ->).
  reflexivity.
Qed.

Lemma pc_of_at s op a p :
  nth_error (ops s) op = Some {| auth := a; pc := p |} -> pc_of s op = Some p.
Proof. unfold pc_of. now intros ->. Qed.

Section Outcome.

Variable e : env.

(** The three turns that end a refresh whose token response has arrived:
    the response is read, [writeAuth] settles with [w], the [finally]
    callback runs. *)
Lemma refresh_ends s op a data now w :
  nth_error (ops s) op = Some {| auth := a; pc := AwaitJson |} ->
  a < length (heap s) ->
  let s3 := exec e s [JsonDone op (inl data) now; WriteDone op w;
                      Finally op] in
  refreshing s3 = None /\
  callers s3 = callers s /\
  fetches s3 = fetches s /\
  access (deref s3 a) = access_token data /\
  expires (deref s3 a) = (now + expires_in data * 1000)%Z /\
  refresh (deref s3 a) = match refresh_token data with
                         | Some (c :: t) => c :: t
                         | _ => refresh (deref s a)
                         end /\
  cached s3 = match w with None => Some a | Some _ => cached s end /\
  pc_of s3 op
  = Some (Finalised match w with
                    | None => Resolved (access_token data)
                    | Some err => Rejected err
                    end) /\
  writes s3 = writes s ++ match CLAUDE_OAUTH_TOKEN e with
                          | Some _ => []
                          | None => [deref s3 a]
                          end.
Proof.
  intros Hop Ha.
  change (exec e s [JsonDone op (inl data) now; WriteDone op w; Finally op])
    with (step e (step e (step e s (JsonDone op (inl data) now))
                    (WriteDone op w)) (Finally op)).
  destruct (after_json e s op a data now Hop Ha)
    as (Hop1 & Hacc & Hexp & Href & Hc1 & _ & Hcl1 & Hf1 & _ & Hw1).
  set (s1 := step e s (JsonDone op (inl data) now)) in *.
  clearbody s1.
  set (r := match w with
            | None => Resolved (access_token data)
            | Some err => Rejected err
            end).
  assert (H2 : exists s1',
             step e s1 (WriteDone op w) = set_pc op (Settled r) s1' /\
             nth_error (ops s1') op = Some {| auth := a; pc := AwaitWrite |} /\
             (forall x, deref s1' x = deref s1 x) /\
             callers s1' = callers s1 /\ fetches s1' = fetches s1 /\
             cached s1' = match w with None => Some a | Some _ => cached s1
                          end /\
             writes s1' = writes s1).
  { cbn [step]. rewrite Hop1. destruct w as [err|].
    - exists s1. repeat split; auto.
    - exists (set_cached a s1). rewrite Hacc. repeat split; auto. }
  destruct H2 as (s1' & -> & Hop1' & Hd1 & Hcl1' & Hf1' & Hc1' & Hw1').
  set (s2 := set_pc op (Settled r) s1').
  assert (Hpc2 : pc_of s2 op = Some (Settled r)).
  { unfold s2. rewrite pc_of_set_pc, Nat.eqb_refl.
    now rewrite (pc_of_at _ _ _ _ Hop1'). }
  cbn [step]. rewrite Hpc2.
  assert (Hd : forall x,
             deref (set_refreshing None (set_pc op (Finalised r) s2)) x
             = deref s1 x).
  { intros x. change (deref (set_pc op (Finalised r) s2) x = deref s1 x).
    unfold s2. rewrite !set_pc_deref. apply Hd1. }
  rewrite !Hd.
  change (pc_of (set_refreshing None (set_pc op (Finalised r) s2)) op)
    with (pc_of (set_pc op (Finalised r) s2) op).
  rewrite pc_of_set_pc, Nat.eqb_refl, Hpc2.
  cbn [refreshing callers fetches cached writes set_refreshing].
  destruct (set_pc_frame s2 op (Finalised r)) as (_ & -> & -> & _ & -> & _).
  destruct (set_pc_rest s2 op (Finalised r)) as (-> & _).
  unfold s2.
  destruct (set_pc_frame s1' op (Settled r)) as (_ & -> & -> & _ & -> & _).
  destruct (set_pc_rest s1' op (Settled r)) as (-> & _).
  rewrite Hcl1', Hf1', Hc1', Hw1', Hcl1, Hf1, Hc1, Hw1.
  repeat split; auto.
Qed.

End Outcome.

End AuthOutcome.

(** X13.  In a process that keeps its credential in the file, when the
    write of the file fails after the token endpoint has answered, the
    refresh fails with the error of the write: every caller waiting on it
    is rejected with that error and the slot is emptied.  The new tokens
    were assigned to the credential object before the write, and that
    object is what was handed to the write; so where it is the cached
    object a later caller, before the new expiry less the buffer, is
    answered with the new token without a refresh. *)
Theorem write_failure_rejects_but_keeps_token :
  forall (e : Auth.env) (s : Auth.state) (op a : nat)
         (data : Auth.token_response) (now now' : Z) (err : String.string),
    Auth.CLAUDE_OAUTH_TOKEN e = None ->
    nth_error (Auth.ops s) op
    = Some {| Auth.auth := a; Auth.pc := Auth.AwaitJson |} ->
    a < length (Auth.heap s) ->
    Auth.cached s = Some a ->
    (now' < now + Auth.expires_in data * 1000 - Auth.EXPIRY_BUFFER_MS)%Z ->
    let s3 := Auth.exec e s [Auth.JsonDone op (inl data) now;
                             Auth.WriteDone op (Some err);
                             Auth.Finally op] in
    Auth.refreshing s3 = None /\
    Auth.writes s3 = Auth.writes s ++ [Auth.deref s3 a] /\
    Auth.access (Auth.deref s3 a) = Auth.access_token data /\
    (forall k, nth_error (Auth.callers s) k = Some (Auth.Following op) ->
               Auth.result s3 k = Some (Auth.Rejected err)) /\
    Auth.step e s3 (Auth.Call now')
    = Auth.add_caller (Auth.Returned (Auth.access_token data)) s3.
Proof.
  intros e s op a data now now' err Hfile Hop Ha Hc Hnow.
  destruct (AuthOutcome.refresh_ends e s op a data now (Some err) Hop Ha)
    as (Hslot & Hcl & _ & Hacc & Hexp & _ & Hc3 & Hpc & Hw).
  rewrite Hfile in Hw.
  cbv zeta. split; [ exact Hslot | ]. split; [ exact Hw | ].
  split; [ exact Hacc | ]. split.
  - intros k Hk. unfold Auth.result. rewrite Hcl, Hk, Hpc. reflexivity.
  - rewrite <- Hacc. apply AuthRefresh.call_fresh.
    + rewrite Hc3. exact Hc.
    + rewrite Hexp. exact Hnow.
Qed.

(** The first caller of a process that reads its credential from the
    file: the refresh fetched a token, the disk is full. *)
Lemma write_failure_rejects_but_keeps_token_witness :
  Auth.result
    (Auth.exec file_env awaiting_json
       [Auth.JsonDone 0 (inl new_tokens) 3000;
        Auth.WriteDone 0 (Some "ENOSPC"%string);
        Auth.Finally 0]) 0
  = Some (Auth.Rejected "ENOSPC"%string) /\
  Auth.step file_env
    (Auth.exec file_env awaiting_json
       [Auth.JsonDone 0 (inl new_tokens) 3000;
        Auth.WriteDone 0 (Some "ENOSPC"%string);
        Auth.Finally 0]) (Auth.Call 4000)
  = Auth.add_caller (Auth.Returned (lit "access-1"))
      (Auth.exec file_env awaiting_json
         [Auth.JsonDone 0 (inl new_tokens) 3000;
          Auth.WriteDone 0 (Some "ENOSPC"%string);
          Auth.Finally 0]).
Proof.
  destruct (write_failure_rejects_but_keeps_token file_env awaiting_json 0 0
              new_tokens 3000 4000 "ENOSPC"%string
              eq_refl eq_refl ltac:(vm_compute; lia) eq_refl eq_refl)
    as (_ & _ & _ & Hk & Hcall).
  split; [ apply Hk; reflexivity | exact Hcall ].
Defined.

(** X14.  When a refresh succeeds, every caller waiting on it receives
    the new access token, the refreshed object becomes the cached one,
    and [getTokenExpiry] reports the new expiry.  The next refresh, started
    by the first caller at or after the new expiry less the buffer, posts
    the refresh token of the response if it brought one that is not empty,
    and the refresh token used before otherwise. *)
Theorem refresh_rotates_the_refresh_token :
  forall (e : Auth.env) (s : Auth.state) (op a : nat)
         (data : Auth.token_response) (now now' : Z),
    nth_error (Auth.ops s) op
    = Some {| Auth.auth := a; Auth.pc := Auth.AwaitJson |} ->
    a < length (Auth.heap s) ->
    (now + Auth.expires_in data * 1000 - Auth.EXPIRY_BUFFER_MS <= now')%Z ->
    let s3 := Auth.exec e s [Auth.JsonDone op (inl data) now;
                             Auth.WriteDone op None;
                             Auth.Finally op] in
    (forall k, nth_error (Auth.callers s) k = Some (Auth.Following op) ->
               Auth.result s3 k
               = Some (Auth.Resolved (Auth.access_token data))) /\
    Auth.cached s3 = Some a /\
    getTokenExpiry s3 = (now + Auth.expires_in data * 1000)%Z /\
    (forall r, Auth.refresh_token data = Some r -> r <> [] ->
               Auth.fetches (Auth.step e s3 (Auth.Call now'))
               = Auth.fetches s ++ [r]) /\
    (Auth.refresh_token data = None \/ Auth.refresh_token data = Some [] ->
     Auth.fetches (Auth.step e s3 (Auth.Call now'))
     = Auth.fetches s ++ refresh_calls (Auth.deref s a)).
Proof.
  intros e s op a data now now' Hop Ha Hnow.
  destruct (AuthOutcome.refresh_ends e s op a data now None Hop Ha)
    as (Hslot & Hcl & Hf & Hacc & Hexp & Href & Hc3 & Hpc & _).
  cbv zeta.
  set (s3 := Auth.exec e s _) in *. clearbody s3.
  assert (Hcall : Auth.fetches (Auth.step e s3 (Auth.Call now'))
                  = Auth.fetches s ++ refresh_calls (Auth.deref s3 a)).
  { rewrite <- Hf. apply AuthRefresh.call_expired; auto.
    rewrite Hexp. exact Hnow. }
  split; [ | split; [ exact Hc3 | split; [ | split ] ] ].
  - intros k Hk. unfold Auth.result. rewrite Hcl, Hk, Hpc. reflexivity.
  - unfold getTokenExpiry. rewrite Hc3. exact Hexp.
  - intros r Hr Hne. rewrite Hcall. unfold refresh_calls.
    rewrite Href, Hr. destruct r; [ congruence | reflexivity ].
  - intros Hr. rewrite Hcall. unfold refresh_calls. rewrite Href.
    destruct Hr as [-> | ->]; reflexivity.
Qed.

(** The refresh of the process that reads its credential from the file
    brings [refresh-1]; the refresh an hour later posts it. *)
Lemma refresh_rotates_the_refresh_token_witness :
  Auth.fetches
    (Auth.step file_env
       (Auth.exec file_env awaiting_json
          [Auth.JsonDone 0 (inl new_tokens) 3000;
           Auth.WriteDone 0 None;
           Auth.Finally 0]) (Auth.Call 3600000))
  = [lit "refresh-0"; lit "refresh-1"].
Proof.
  destruct (refresh_rotates_the_refresh_token file_env awaiting_json 0 0
              new_tokens 3000 3600000
              eq_refl ltac:(vm_compute; lia) ltac:(vm_compute; discriminate))
    as (_ & _ & _ & Hr & _).
  exact (Hr (lit "refresh-1") eq_refl ltac:(discriminate)).
Defined.

(* ===================================================================== *)
(** * The request log line *)
(* ===================================================================== *)



(** X15.  A request for a model that is not an Opus model, which brings
    a truthy [context_management] without an [edits] array, passes the
    whole rewriting of its body and then ends in a [TypeError] thrown by
    the log line: nothing is sent upstream. *)
Theorem context_without_edits_ends_the_request :
  forall (cfg : config) (custom : option jsstring) (body body' cm : value),
    messagesRelay_body cfg custom body = Normal body' ->
    isOpus body' = Normal false ->
    own body (lit "context_management") = Some cm ->
    truthy cm = true ->
    (forall items named, own cm (lit "edits") <> Some (VArr items named)) ->
    messagesRelay_request cfg custom body = TypeError.
Proof.
  intros cfg custom body body' cm H Hopus Hcm Htruthy Hnone.
  unfold messagesRelay_request. rewrite H. cbn [bind].
  pose proof (context_untouched _ _ _ _ H Hopus) as Hsame.
  rewrite Hcm in Hsame. unfold ctx_mgmt_note.
  assert (Hb : member (Some body') (lit "context_management")
               = Normal (Some cm)).
  { destruct body'; cbn in Hsame; try discriminate Hsame;
      cbn [member]; now rewrite <- Hsame. }
  rewrite Hb. cbn [bind truthy_opt]. rewrite Htruthy.
  assert (Hc : member (Some cm) (lit "edits")
               = Normal (own cm (lit "edits")))
    by (destruct cm; try discriminate Htruthy; reflexivity).
  rewrite Hc. cbn [bind].
  destruct (own cm (lit "edits")) as [[| | | |items named|]|] eqn:HE;
    try reflexivity.
  destruct (Hnone items named eq_refl).
Qed.

Lemma context_without_edits_ends_the_request_witness :
  messagesRelay_request default_config None sonnet_bare_context = TypeError.
Proof.
  destruct (messagesRelay_body default_config None sonnet_bare_context)
    as [body'|msg] eqn:E; [ | vm_compute in E; discriminate E ].
  apply (context_without_edits_ends_the_request default_config None
           sonnet_bare_context body' (obj []) E).
  - vm_compute in E. injection E as <-. vm_compute. reflexivity.
  - reflexivity.
  - reflexivity.
  - intros items named. vm_compute. discriminate.
Defined.



(* ===================================================================== *)
(** * The custom system prompt *)
(* ===================================================================== *)

Lemma trimStart_suffix (s : jsstring) :
  exists pre, s = pre ++ trimStart s.
Proof.
  induction s as [|c s [pre IH]]; [ now exists [] | ].
  cbn [trimStart]. destruct (is_white_space c).
  - exists (c :: pre). cbn [app]. now f_equal.
  - now exists [].
Qed.

Lemma trimStart_head (s : jsstring) (c : char16) (rest : jsstring) :
  trimStart s = c :: rest -> is_white_space c = false.
Proof.
  induction s as [|d s IH]; [ discriminate | ].
  cbn [trimStart]. destruct (is_white_space d) eqn:E; [ exact IH | ].
  intros [= <- _]. exact E.
Qed.

Lemma trimStart_fixed (s : jsstring) :
  (forall c rest, s = c :: rest -> is_white_space c = false) ->
  trimStart s = s.
Proof.
  destruct s as [|c s]; [ reflexivity | ]. intros H.
  cbn [trimStart]. now rewrite (H c s eq_refl).
Qed.

(** A trimmed string has no white space at either end, so trimming it
    again changes nothing. *)
Lemma trim_ends (s : jsstring) :
  (forall c rest, trim s = c :: rest -> is_white_space c = false) /\
  (forall c rest, rev (trim s) = c :: rest -> is_white_space c = false).
Proof.
  unfold trim. rewrite rev_involutive.
  set (t := trimStart s). set (u := trimStart (rev t)).
  split; [ | intros c rest; apply trimStart_head ].
  intros c rest Hr.
  destruct (trimStart_suffix (rev t)) as [pre Hpre]. fold u in Hpre.
  assert (Ht : t = rev u ++ rev pre).
  { rewrite <- (rev_involutive t), Hpre, rev_app_distr. reflexivity. }
  rewrite Hr in Ht. cbn [app] in Ht.
  apply (trimStart_head s c (rest ++ rev pre)). exact Ht.
Qed.

Lemma trim_trim (s : jsstring) : trim (trim s) = trim s.
Proof.
  destruct (trim_ends s) as [Hhead Hlast].
  unfold trim at 1. rewrite (trimStart_fixed (trim s) Hhead).
  rewrite (trimStart_fixed (rev (trim s)) Hlast).
  apply rev_involutive.
Qed.

(** The prompt the module holds came from the file. *)
Lemma prompt_calls_source (files : list prompt_file) (p : jsstring) :
  customSystemPrompt (prompt_calls files prompt_cache0) = Some p ->
  exists f text, In f files /\ utf8_text f = Some text /\ p = trim text.
Proof.
  induction files as [|f files IH] using rev_ind; [ discriminate | ].
  unfold prompt_calls. rewrite fold_left_app. cbn [fold_left].
  fold (prompt_calls files prompt_cache0).
  unfold getCustomSystem. cbn [fst].
  assert (Hold : customSystemPrompt (prompt_calls files prompt_cache0)
                 = Some p ->
                 exists f0 text, In f0 (files ++ [f]) /\
                                 utf8_text f0 = Some text /\ p = trim text).
  { intros H. destruct (IH H) as (f0 & text & Hin & Ht & Hp).
    exists f0, text. split; [ apply in_or_app; now left | auto ]. }
  destruct (mtimeMs f) as [mtime|]; [ | discriminate ].
  destruct (negb (mtime =? _)%Z); [ | exact Hold ].
  destruct (utf8_text f) as [text|] eqn:Ht; [ | discriminate ].
  cbn [customSystemPrompt]. intros [= <-].
  exists f, text. split; [ apply in_or_app; right; now left | auto ].
Qed.

(** X17.  Whatever happened to the prompt file since the process started,
    [getCustomSystem] returns [null] or a string that is not empty, has no
    white space at either end, and is the trimmed text the file held at
    this call or at an earlier one. *)
Theorem custom_prompt_is_trimmed_file_text :
  forall (files : list prompt_file) (f : prompt_file) (p : jsstring),
    snd (getCustomSystem f (prompt_calls files prompt_cache0)) = Some p ->
    p <> [] /\
    trim p = p /\
    exists (f0 : prompt_file) (text : jsstring),
      In f0 (files ++ [f]) /\ utf8_text f0 = Some text /\ p = trim text.
Proof.
  intros files f p H.
  assert (Hp : customSystemPrompt (prompt_calls (files ++ [f]) prompt_cache0)
               = Some p /\ p <> []).
  { unfold prompt_calls at 1. rewrite fold_left_app. cbn [fold_left].
    fold (prompt_calls files prompt_cache0).
    unfold getCustomSystem in *. cbn [fst snd] in *.
    destruct (customSystemPrompt _) as [[|x q]|]; try discriminate H.
    split; [ exact H | ]. injection H as <-. discriminate. }
  destruct Hp as [Hp Hne].
  destruct (prompt_calls_source _ _ Hp) as (f0 & text & Hin & Ht & ->).
  split; [ exact Hne | ]. split; [ apply trim_trim | ].
  exists f0, text. auto.
Qed.

Lemma custom_prompt_is_trimmed_file_text_witness :
  snd (getCustomSystem (prompt_at 7 "  Be brief.  ")
         (prompt_calls [prompt_missing] prompt_cache0))
  = Some (lit "Be brief.") /\
  trim (lit "Be brief.") = lit "Be brief.".
Proof.
  split; [ vm_compute; reflexivity | ].
  exact (proj1 (proj2 (custom_prompt_is_trimmed_file_text
                         [prompt_missing] (prompt_at 7 "  Be brief.  ")
                         (lit "Be brief.") eq_refl))).
Defined.

(** X18.  A prompt dropped because the file could not be examined is not
    loaded again until the modification time of the file changes: after a
    call at which [statSync] threw, every call that finds the file with
    the modification time of the last successful load returns [null],
    whatever the file holds. *)
Theorem dropped_prompt_is_not_reloaded :
  forall (c : prompt_cache) (gone back : prompt_file)
         (later : list prompt_file),
    mtimeMs gone = None ->
    Forall (fun f => mtimeMs f = Some (customSystemMtime c))
      (later ++ [back]) ->
    snd (getCustomSystem back
           (prompt_calls later (fst (getCustomSystem gone c)))) = None.
Proof.
  intros c gone back later Hgone Hsame.
  assert (H1 : fst (getCustomSystem gone c)
               = {| customSystemPrompt := None;
                    customSystemMtime := customSystemMtime c |}).
  { unfold getCustomSystem. rewrite Hgone. reflexivity. }
  rewrite H1. clear H1 Hgone gone.
  set (c1 := {| customSystemPrompt := None;
                customSystemMtime := customSystemMtime c |}).
  assert (Hstep : forall f, mtimeMs f = Some (customSystemMtime c) ->
                            getCustomSystem f c1 = (c1, None)).
  { intros f Hf. unfold getCustomSystem. rewrite Hf. cbn [customSystemMtime c1].
    rewrite Z.eqb_refl. reflexivity. }
  apply Forall_app in Hsame. destruct Hsame as [Hlater Hback].
  assert (Hc : prompt_calls later c1 = c1).
  { clear Hback. induction later as [|f later IH]; [ reflexivity | ].
    inversion Hlater; subst. cbn [prompt_calls fold_left].
    rewrite (Hstep f) by assumption. cbn [fst]. now apply IH. }
  rewrite Hc. inversion Hback; subst. now rewrite Hstep.
Qed.

(** The prompt was loaded at time 7; the file disappears and comes back
    with its modification time. *)
Lemma dropped_prompt_is_not_reloaded_witness :
  snd (getCustomSystem (prompt_at 7 "Be brief.") prompt_cache0)
  = Some (lit "Be brief.") /\
  snd (getCustomSystem (prompt_at 7 "Be brief.")
         (prompt_calls []
            (fst (getCustomSystem prompt_missing
                    (fst (getCustomSystem (prompt_at 7 "Be brief.")
                            prompt_cache0))))))
  = None.
Proof.
  split; [ vm_compute; reflexivity | ].
  apply (dropped_prompt_is_not_reloaded
           (fst (getCustomSystem (prompt_at 7 "Be brief.") prompt_cache0))
           prompt_missing (prompt_at 7 "Be brief.") []).
  - reflexivity.
  - repeat constructor.
Defined.

(** X19.  Two calls that find the prompt file in the same state return
    the same prompt, and the second leaves the module variables as the
    first left them. *)
Theorem getCustomSystem_settles :
  forall (f : prompt_file) (c : prompt_cache),
    getCustomSystem f (fst (getCustomSystem f c)) = getCustomSystem f c.
Proof.
  intros f c. unfold getCustomSystem. cbn [fst].
  destruct (mtimeMs f) as [mtime|]; [ | reflexivity ].
  destruct (Z.eqb_spec mtime (customSystemMtime c)) as [E | Hne];
    cbn [negb].
  - rewrite E, Z.eqb_refl. reflexivity.
  - destruct (utf8_text f) as [text|]; cbn [customSystemMtime];
      [ rewrite Z.eqb_refl; reflexivity | ].
    destruct (Z.eqb_spec mtime (customSystemMtime c)); [ contradiction | ].
    reflexivity.
Qed.

(* ===================================================================== *)
(** * Request headers *)
(* ===================================================================== *)

Lemma header_lookup_assign_same (name value : jsstring) (h : Headers) :
  header_lookup name (header_assign name value h) = Some value.
Proof.
  induction h as [|[k v] h IH]; cbn [header_assign header_lookup].
  - now rewrite str_eqb_refl.
  - destruct (str_eqb k name) eqn:E; cbn [header_lookup]; rewrite E; auto.
Qed.

Lemma header_lookup_assign_other (name name' value : jsstring) (h : Headers) :
  str_eqb name name' = false ->
  header_lookup name' (header_assign name value h) = header_lookup name' h.
Proof.
  intros Hne. induction h as [|[k v] h IH]; cbn [header_assign header_lookup].
  - now rewrite Hne.
  - destruct (str_eqb k name) eqn:E; cbn [header_lookup].
    + apply str_eqb_eq in E. subst k. now rewrite Hne.
    + now rewrite IH.
Qed.

Section HeaderFacts.

Variable valid_value : jsstring -> bool.

Lemma headers_set_lookup (h : Headers) (name value : jsstring) (h' : Headers) :
  headers_set valid_value h name value = Normal h' ->
  header_lookup (toLowerCase name) h' = Some (normalize_value value) /\
  (forall n, str_eqb (toLowerCase name) n = false ->
             header_lookup n h' = header_lookup n h).
Proof.
  unfold headers_set. destruct (valid_value _); [ | discriminate ].
  intros [= <-]. split; [ apply header_lookup_assign_same | ].
  intros n Hn. now apply header_lookup_assign_other.
Qed.

(** What the loop over the incoming headers leaves under each name. *)
Lemma copy_headers_lookup (incoming : list (jsstring * jsstring)) :
  forall (h h' : Headers),
    copy_headers valid_value incoming h = Normal h' ->
    forall n,
      header_lookup n h' =
      if copied_name n
      then match last_value n incoming with
           | Some v => Some (normalize_value v)
           | None => header_lookup n h
           end
      else header_lookup n h.
Proof.
  induction incoming as [|[k v] rest IH]; intros h h' H n.
  - cbn in H. injection H as <-. cbn [last_value].
    destruct (copied_name n); reflexivity.
  - cbn [copy_headers] in H. inv_bind H. rewrite (IH _ _ H n).
    cbn [last_value]. unfold copy_header in Ha.
    change (negb (str_eqb (toLowerCase k) (lit "x-api-key"))
            && negb (str_eqb (toLowerCase k) (lit "host")))
      with (copied_name (toLowerCase k)) in Ha.
    destruct (copied_name (toLowerCase k)) eqn:Ek.
    + destruct (headers_set_lookup _ _ _ _ Ha) as [L1 L2].
      destruct (copied_name n) eqn:En.
      * destruct (last_value n rest); [ reflexivity | ].
        destruct (str_eqb (toLowerCase k) n) eqn:E.
        -- apply str_eqb_eq in E. subst n. exact L1.
        -- apply L2. exact E.
      * destruct (str_eqb (toLowerCase k) n) eqn:E.
        -- apply str_eqb_eq in E. congruence.
        -- apply L2. exact E.
    + injection Ha as <-.
      destruct (copied_name n) eqn:En; [ | reflexivity ].
      destruct (last_value n rest); [ reflexivity | ].
      destruct (str_eqb (toLowerCase k) n) eqn:E; [ | reflexivity ].
      apply str_eqb_eq in E. congruence.
Qed.

Lemma managed_header_not (n : jsstring) :
  managed_header n = false ->
  copied_name n = true /\
  str_eqb (lit "authorization") n = false /\
  str_eqb (lit "user-agent") n = false /\
  str_eqb (lit "anthropic-beta") n = false.
Proof.
  unfold managed_header, copied_name. cbn [existsb].
  rewrite !Bool.orb_false_iff. intros (H1 & H2 & H3 & H4 & H5 & _).
  rewrite H1, H2, (str_eqb_sym _ n), H3, (str_eqb_sym _ n), H4,
    (str_eqb_sym _ n), H5. auto.
Qed.

(** The header list at the point where [buildHeaders] reads
    [anthropic-beta]. *)
Lemma buildHeaders_steps (incoming : list (jsstring * jsstring))
    (token : jsstring) (h : Headers) :
  buildHeaders valid_value incoming token = Normal h ->
  exists h2 : Headers,
    headers_set valid_value h2 (lit "anthropic-beta")
      (join COMMA
         (fold_left (fun acc b => set_add b acc) REQUIRED_BETAS
            (new_Set (client_betas incoming)))) = Normal h /\
    header_lookup (lit "authorization") h2
    = Some (normalize_value (lit "Bearer " ++ token)) /\
    header_lookup (lit "user-agent") h2 = Some USER_AGENT /\
    (forall n, str_eqb (lit "authorization") n = false ->
               str_eqb (lit "user-agent") n = false ->
               header_lookup n h2 =
               if copied_name n
               then option_map normalize_value (last_value n incoming)
               else None).
Proof.
  intros H. unfold buildHeaders in H.
  inv_bind H. inv_bind H. inv_bind H. rename a into h0, a0 into h1, a1 into h2.
  destruct (headers_set_lookup _ _ _ _ Ha0) as [A1 A2].
  destruct (headers_set_lookup _ _ _ _ Ha1) as [U1 U2].
  change (toLowerCase (lit "Authorization")) with (lit "authorization") in *.
  change (toLowerCase (lit "User-Agent")) with (lit "user-agent") in *.
  assert (Hrest : forall n, str_eqb (lit "authorization") n = false ->
                            str_eqb (lit "user-agent") n = false ->
                            header_lookup n h2 =
                            if copied_name n
                            then option_map normalize_value
                                   (last_value n incoming)
                            else None).
  { intros n Hn1 Hn2. rewrite (U2 n Hn2), (A2 n Hn1).
    rewrite (copy_headers_lookup incoming _ _ Ha n).
    destruct (copied_name n); [ | reflexivity ].
    destruct (last_value n incoming); reflexivity. }
  exists h2. split; [ | split; [ | split; [ | exact Hrest ] ] ].
  - unfold headers_get in H.
    change (toLowerCase (lit "anthropic-beta")) with (lit "anthropic-beta")
      in H.
    rewrite (Hrest (lit "anthropic-beta") eq_refl eq_refl) in H.
    change (copied_name (lit "anthropic-beta")) with true in H.
    unfold STRIPPED_BETAS in H. cbn [fold_left] in H.
    unfold client_betas. exact H.
  - rewrite (U2 (lit "authorization") eq_refl). exact A1.
  - rewrite U1. reflexivity.
Qed.

End HeaderFacts.

(** X20.  Of the headers of the client, the upstream request never
    carries [x-api-key] or [host]; its [Authorization] is ["Bearer "]
    followed by the token of the proxy and its [User-Agent] that of the
    command-line client, whatever the client sent under these names;
    every other header but [anthropic-beta] is passed on with the value
    the client sent, and no header is added under a name the client did
    not send.  Values are stored as [set] normalizes them, without HTTP
    white space at their ends. *)
Theorem upstream_headers_of_client :
  forall (valid_value : jsstring -> bool)
         (incoming : list (jsstring * jsstring)) (token : jsstring)
         (h : Headers),
    buildHeaders valid_value incoming token = Normal h ->
    headers_get h (lit "x-api-key") = None /\
    headers_get h (lit "host") = None /\
    headers_get h (lit "Authorization")
    = Some (normalize_value (lit "Bearer " ++ token)) /\
    headers_get h (lit "User-Agent") = Some USER_AGENT /\
    forall name,
      managed_header (toLowerCase name) = false ->
      headers_get h name
      = option_map normalize_value (last_value (toLowerCase name) incoming).
Proof.
  intros valid_value incoming token h H.
  destruct (buildHeaders_steps valid_value incoming token h H)
    as (h2 & Hset & Hauth & Hua & Hrest).
  destruct (headers_set_lookup _ _ _ _ _ Hset) as [_ B2].
  change (toLowerCase (lit "anthropic-beta")) with (lit "anthropic-beta") in B2.
  unfold headers_get.
  change (toLowerCase (lit "x-api-key")) with (lit "x-api-key").
  change (toLowerCase (lit "host")) with (lit "host").
  change (toLowerCase (lit "Authorization")) with (lit "authorization").
  change (toLowerCase (lit "User-Agent")) with (lit "user-agent").
  repeat split.
  - rewrite (B2 (lit "x-api-key") eq_refl).
    apply (Hrest (lit "x-api-key") eq_refl eq_refl).
  - rewrite (B2 (lit "host") eq_refl).
    apply (Hrest (lit "host") eq_refl eq_refl).
  - rewrite (B2 (lit "authorization") eq_refl). exact Hauth.
  - rewrite (B2 (lit "user-agent") eq_refl). exact Hua.
  - intros name Hname.
    destruct (managed_header_not _ Hname) as (Hc & Ha & Hu & Hb).
    rewrite (B2 _ Hb), (Hrest _ Ha Hu), Hc. reflexivity.
Qed.

Lemma upstream_headers_of_client_witness :
  exists h : Headers,
    buildHeaders field_value client_headers (lit "tok-1") = Normal h /\
    headers_get h (lit "x-api-key") = None /\
    headers_get h (lit "Authorization") = Some (lit "Bearer tok-1").
Proof.
  destruct (buildHeaders field_value client_headers (lit "tok-1"))
    as [h|msg] eqn:E; [ | vm_compute in E; discriminate E ].
  destruct (upstream_headers_of_client field_value client_headers
              (lit "tok-1") h E) as (H1 & _ & H3 & _).
  exists h. repeat split; [ exact H1 | exact H3 ].
Defined.

(** ** Sets of strings *)

Lemma existsb_str_eqb (x : jsstring) (l : list jsstring) :
  existsb (str_eqb x) l = true <-> In x l.
Proof.
  rewrite existsb_exists. split.
  - intros (y & Hin & E). apply str_eqb_eq in E. now subst.
  - intros Hin. exists x. split; [ exact Hin | apply str_eqb_refl ].
Qed.

Lemma set_add_In (x y : jsstring) (l : list jsstring) :
  In y (set_add x l) <-> y = x \/ In y l.
Proof.
  unfold set_add. destruct (existsb (str_eqb x) l) eqn:E.
  - apply existsb_str_eqb in E. split; [ auto | ].
    intros [-> | H]; assumption.
  - rewrite in_app_iff. cbn [In]. intuition.
Qed.

Lemma set_add_NoDup (x : jsstring) (l : list jsstring) :
  NoDup l -> NoDup (set_add x l).
Proof.
  intros H. unfold set_add. destruct (existsb (str_eqb x) l) eqn:E;
    [ exact H | ].
  apply NoDup_app; [ exact H | repeat constructor; intros [] | ].
  intros y Hy [<- | []]. apply existsb_str_eqb in Hy. congruence.
Qed.

Lemma fold_set_add (xs l : list jsstring) :
  NoDup l ->
  NoDup (fold_left (fun acc b => set_add b acc) xs l) /\
  forall y, In y (fold_left (fun acc b => set_add b acc) xs l)
            <-> In y xs \/ In y l.
Proof.
  revert l. induction xs as [|x xs IH]; intros l Hl; cbn [fold_left].
  - split; [ exact Hl | ]. intros y. cbn [In]. tauto.
  - destruct (IH (set_add x l) (set_add_NoDup x l Hl)) as [Hn Hin].
    split; [ exact Hn | ]. intros y. rewrite Hin, set_add_In. cbn [In].
    intuition.
Qed.

(** ** Values that [set] stores as they are *)

Lemma strip_start_fixed (s : jsstring) :
  (forall c rest, s = c :: rest -> is_http_space c = false) ->
  strip_start s = s.
Proof.
  destruct s as [|c s]; [ reflexivity | ]. intros H.
  cbn [strip_start]. now rewrite (H c s eq_refl).
Qed.

Lemma normalize_clean (s : jsstring) : clean_ends s -> normalize_value s = s.
Proof.
  intros [Hhead Hlast]. unfold normalize_value.
  rewrite (strip_start_fixed s Hhead), (strip_start_fixed (rev s) Hlast).
  apply rev_involutive.
Qed.

Lemma clean_ends_comma (a b : jsstring) :
  clean_ends a -> clean_ends b -> clean_ends (a ++ COMMA ++ b).
Proof.
  intros [Ha _] [_ Hb]. split.
  - intros c rest H. destruct a as [|d a].
    + cbn in H. injection H as <- _. reflexivity.
    + cbn [app] in H. injection H as <- _. apply (Ha d a eq_refl).
  - intros c rest H. rewrite !rev_app_distr, <- app_assoc in H.
    destruct (rev b) as [|d r] eqn:E.
    + cbn in H. injection H as <- _. reflexivity.
    + cbn [app] in H. injection H as <- _. apply (Hb d r eq_refl).
Qed.

Lemma clean_ends_join (l : list jsstring) :
  Forall clean_ends l -> clean_ends (join COMMA l).
Proof.
  induction 1 as [|x l Hx Hl IH]; [ split; discriminate | ].
  destruct l as [|y l]; [ exact Hx | ].
  change (join COMMA (x :: y :: l)) with (x ++ COMMA ++ join COMMA (y :: l)).
  apply clean_ends_comma; assumption.
Qed.

Lemma http_space_is_white (c : char16) :
  is_white_space c = false -> is_http_space c = false.
Proof.
  intros H. unfold is_http_space. cbn [existsb].
  repeat match goal with
         | |- context [N.eqb c ?n] =>
             destruct (N.eqb_spec c n) as [-> | _];
             [ discriminate H | cbn [orb] ]
         end.
  reflexivity.
Qed.

Lemma clean_ends_trim (s : jsstring) : clean_ends (trim s).
Proof.
  destruct (trim_ends s) as [Hhead Hlast]. split; intros c rest H;
    apply http_space_is_white; eauto.
Qed.

(** ** Entries without a comma *)

Lemma indexOf_char_None (s : jsstring) (c : char16) :
  indexOf s [c] = None -> ~ In c s.
Proof.
  induction s as [|d s IH]; [ intros _ [] | ].
  cbn [indexOf startsWith]. destruct (N.eqb_spec d c) as [-> | Hne];
    [ discriminate | ].
  cbn [andb]. destruct (indexOf s [c]); [ discriminate | ].
  intros _ [E | Hin]; [ congruence | now apply IH ].
Qed.

Lemma indexOf_char_app (x r : jsstring) (c : char16) :
  ~ In c x -> indexOf (x ++ c :: r) [c] = Some (length x).
Proof.
  induction x as [|d x IH]; intros Hx.
  - cbn [app indexOf startsWith length]. now rewrite N.eqb_refl.
  - cbn [app indexOf startsWith length].
    destruct (N.eqb_spec d c) as [-> | Hne]; [ exfalso; apply Hx; now left | ].
    cbn [andb]. rewrite IH; [ reflexivity | ].
    intros Hin. apply Hx. now right.
Qed.

Lemma split_pieces_char (s : jsstring) (c : char16) :
  Forall (fun piece => ~ In c piece) (split s [c]).
Proof.
  eapply Forall_impl; [ | apply (split_ne_pieces c [] s) ].
  intros piece. apply indexOf_char_None.
Qed.

(** [l.join(c).split(c)] is [l] when no entry holds [c] and [l] is not
    empty. *)
Lemma split_join_char (c : char16) (l : list jsstring) :
  l <> [] -> Forall (fun x => ~ In c x) l -> split (join [c] l) [c] = l.
Proof.
  intros Hne Hl. revert Hne.
  induction Hl as [|x l Hx Hl IH]; intros Hne;
    [ exfalso; apply Hne; reflexivity | ].
  change (split (join [c] (x :: l)) [c])
    with (split_ne c [] (join [c] (x :: l))).
  rewrite split_ne_eq. destruct l as [|y l].
  - cbn [join]. destruct (indexOf x [c]) as [i|] eqn:E; [ | reflexivity ].
    exfalso. destruct (indexOf_Some _ _ _ E) as (Hs & _).
    apply startsWith_iff in Hs. destruct Hs as [r Hr].
    apply Hx. rewrite <- (firstn_skipn i x), Hr.
    apply in_or_app. right. now left.
  - change (join [c] (x :: y :: l)) with (x ++ c :: join [c] (y :: l)).
    rewrite (indexOf_char_app x _ c Hx).
    rewrite firstn_app, firstn_all, Nat.sub_diag. cbn [firstn].
    rewrite app_nil_r. f_equal.
    rewrite skipn_app, skipn_all2 by (cbn [length]; lia).
    replace (length x + length [c] - length x) with 1 by (cbn [length]; lia).
    cbn [app skipn]. apply IH. discriminate.
Qed.

Lemma In_trimStart (c : char16) (s : jsstring) :
  In c (trimStart s) -> In c s.
Proof.
  destruct (trimStart_suffix s) as [pre H]. intros Hin.
  rewrite H. apply in_or_app. now right.
Qed.

Lemma In_trim (c : char16) (s : jsstring) : In c (trim s) -> In c s.
Proof.
  unfold trim. intros H. apply in_rev in H. apply In_trimStart in H.
  apply in_rev in H. now apply In_trimStart.
Qed.

Lemma client_betas_entries (incoming : list (jsstring * jsstring)) :
  Forall (fun b => clean_ends b /\ ~ In 44%N b) (client_betas incoming).
Proof.
  unfold client_betas.
  destruct (option_map _ _) as [[|c s]|]; try constructor.
  apply Forall_forall. intros b Hb. apply in_map_iff in Hb.
  destruct Hb as (piece & <- & Hpiece). split; [ apply clean_ends_trim | ].
  intros Hin. apply In_trim in Hin.
  pose proof (split_pieces_char (c :: s) 44%N) as Hp.
  rewrite Forall_forall in Hp. exact (Hp piece Hpiece Hin).
Qed.

Lemma required_betas_entries :
  Forall (fun b => clean_ends b /\ ~ In 44%N b) REQUIRED_BETAS.
Proof.
  repeat constructor;
    try (intros c rest H; cbv in H; injection H as <- _; reflexivity);
    intros H; cbv in H; intuition discriminate.
Qed.

(** The [anthropic-beta] header [buildHeaders] sets. *)
Lemma buildHeaders_betas (valid_value : jsstring -> bool)
    (incoming : list (jsstring * jsstring)) (token : jsstring) (h : Headers) :
  buildHeaders valid_value incoming token = Normal h ->
  exists betas : list jsstring,
    header_lookup (lit "anthropic-beta") h = Some (join COMMA betas) /\
    Forall (fun b => clean_ends b /\ ~ In 44%N b) betas /\
    NoDup betas /\
    forall b, In b betas <->
              In b (client_betas incoming) \/ In b REQUIRED_BETAS.
Proof.
  intros H.
  destruct (buildHeaders_steps valid_value incoming token h H)
    as (h2 & Hset & _).
  set (betas := fold_left (fun acc b => set_add b acc) REQUIRED_BETAS
                  (new_Set (client_betas incoming))) in *.
  destruct (fold_set_add (client_betas incoming) [] (NoDup_nil _))
    as [Hn0 Hin0]. fold (new_Set (client_betas incoming)) in Hn0, Hin0.
  destruct (fold_set_add REQUIRED_BETAS _ Hn0) as [Hn Hin].
  fold betas in Hn, Hin.
  assert (Hmem : forall b, In b betas <->
                           In b (client_betas incoming) \/ In b REQUIRED_BETAS).
  { intros b. rewrite Hin, Hin0. cbn [In]. tauto. }
  assert (Hall : Forall (fun b => clean_ends b /\ ~ In 44%N b) betas).
  { apply Forall_forall. intros b Hb. apply Hmem in Hb.
    destruct Hb as [Hb | Hb].
    - pose proof (client_betas_entries incoming) as Hc.
      rewrite Forall_forall in Hc. now apply Hc.
    - pose proof required_betas_entries as Hr.
      rewrite Forall_forall in Hr. now apply Hr. }
  exists betas. split; [ | split; [ exact Hall | split; [ exact Hn | exact Hmem ] ] ].
  destruct (headers_set_lookup _ _ _ _ _ Hset) as [B1 _].
  change (toLowerCase (lit "anthropic-beta")) with (lit "anthropic-beta") in B1.
  rewrite B1. f_equal. apply normalize_clean.
  apply clean_ends_join. eapply Forall_impl; [ | exact Hall ].
  intros b [Hb _]. exact Hb.
Qed.

(** X21.  The [anthropic-beta] header of the upstream request is a
    comma-separated list, without an entry twice, of exactly the entries
    the client sent (separated by commas, white space around them
    removed) and the two betas the proxy requires; splitting the header
    at its commas gives that list back. *)
Theorem upstream_beta_header :
  forall (valid_value : jsstring -> bool)
         (incoming : list (jsstring * jsstring)) (token : jsstring)
         (h : Headers),
    buildHeaders valid_value incoming token = Normal h ->
    exists betas : list jsstring,
      headers_get h (lit "anthropic-beta") = Some (join COMMA betas) /\
      split (join COMMA betas) COMMA = betas /\
      NoDup betas /\
      forall b, In b betas <->
                In b (client_betas incoming) \/ In b REQUIRED_BETAS.
Proof.
  intros valid_value incoming token h H.
  destruct (buildHeaders_betas valid_value incoming token h H)
    as (betas & Hget & Hall & Hn & Hmem).
  exists betas. split; [ exact Hget | ].
  split; [ | split; [ exact Hn | exact Hmem ] ].
  apply (split_join_char 44%N).
  - intros E. assert (Hr : In (lit "oauth-2025-04-20") betas)
      by (apply Hmem; right; now left).
    rewrite E in Hr. exact Hr.
  - eapply Forall_impl; [ | exact Hall ]. intros b [_ Hb]. exact Hb.
Qed.

Lemma upstream_beta_header_witness :
  exists (h : Headers) (betas : list jsstring),
    buildHeaders field_value client_headers (lit "tok-1") = Normal h /\
    headers_get h (lit "anthropic-beta") = Some (join COMMA betas) /\
    NoDup betas /\
    In (lit "fine-grained-tool-streaming-2025-05-14") betas.
Proof.
  destruct (buildHeaders field_value client_headers (lit "tok-1"))
    as [h|msg] eqn:E; [ | vm_compute in E; discriminate E ].
  destruct (upstream_beta_header field_value client_headers (lit "tok-1") h E)
    as (betas & H1 & _ & H3 & H4).
  exists h, betas. repeat split; [ exact H1 | exact H3 | ].
  apply H4. left. vm_compute. left. reflexivity.
Defined.

(** ** The betas of the enabled features *)

Lemma includes_refl (p : jsstring) : includes p p = true.
Proof.
  assert (H : startsWith p p = true)
    by (apply startsWith_iff; exists []; now rewrite app_nil_r).
  unfold includes. destruct p; cbn [indexOf]; rewrite H; reflexivity.
Qed.

Lemma includes_app_l (a b p : jsstring) :
  includes a p = true -> includes (a ++ b) p = true.
Proof.
  unfold includes. destruct (indexOf a p) as [i|] eqn:E; [ | discriminate ].
  now rewrite (indexOf_app_l a b p i E).
Qed.

Lemma includes_app_r (a b p : jsstring) :
  includes b p = true -> includes (a ++ b) p = true.
Proof.
  unfold includes. destruct (indexOf b p) as [i|] eqn:E; [ | discriminate ].
  intros _. destruct (indexOf (a ++ b) p) eqn:E'; [ reflexivity | ].
  destruct (indexOf_Some _ _ _ E) as (Hs & _).
  pose proof (indexOf_None _ _ E' (length a + i)) as Hn.
  rewrite skipn_app, skipn_all2 in Hn by lia.
  replace (length a + i - length a) with i in Hn by lia.
  cbn [app] in Hn. congruence.
Qed.

Lemma includes_join (f : jsstring) (l : list jsstring) :
  In f l -> includes (join COMMA l) f = true.
Proof.
  induction l as [|x l IH]; [ intros [] | ].
  intros [-> | Hin].
  - destruct l as [|y l]; [ apply includes_refl | ].
    change (join COMMA (f :: y :: l)) with (f ++ COMMA ++ join COMMA (y :: l)).
    apply includes_app_l, includes_refl.
  - destruct l as [|y l]; [ destruct Hin | ].
    change (join COMMA (x :: y :: l)) with (x ++ COMMA ++ join COMMA (y :: l)).
    apply includes_app_r, includes_app_r. now apply IH.
Qed.

Lemma feature_betas_clean (f : jsstring) :
  In f [COMPACTION_BETA; CONTEXT_MGMT_BETA; WEB_FETCH_BETA] -> clean_ends f.
Proof.
  intros [<- | [<- | [<- | []]]]; split; intros c rest H; cbv in H;
    injection H as <- _; reflexivity.
Qed.

Section BetaFacts.

Variable valid_value : jsstring -> bool.

(** The block on a header list whose [anthropic-beta] is a non-empty
    normalized value [before]: the value afterwards begins with [before],
    includes the flag of every feature asked for, and a second run of the
    block changes nothing. *)
Lemma add_betas_spec (cfg : config) (opus : bool) (h h' : Headers)
    (before : jsstring) :
  header_lookup (lit "anthropic-beta") h = Some before ->
  before <> [] ->
  clean_ends before ->
  add_betas valid_value cfg opus h = Normal h' ->
  exists after : jsstring,
    header_lookup (lit "anthropic-beta") h' = Some after /\
    startsWith after before = true /\
    (forall f, In f (wanted_betas cfg opus) -> includes after f = true) /\
    (forall n, str_eqb (lit "anthropic-beta") n = false ->
               header_lookup n h' = header_lookup n h) /\
    add_betas valid_value cfg opus h' = Normal h'.
Proof.
  intros Hget Hne Hclean H.
  assert (Hagain : forall (h1 : Headers) (after : jsstring),
             header_lookup (lit "anthropic-beta") h1 = Some after ->
             after <> [] ->
             (forall f, In f (wanted_betas cfg opus) ->
                        includes after f = true) ->
             add_betas valid_value cfg opus h1 = Normal h1).
  { intros h1 after Hg1 Hne1 Hinc. unfold add_betas, headers_get.
    change (toLowerCase (lit "anthropic-beta")) with (lit "anthropic-beta").
    rewrite Hg1. destruct after as [|c s]; [ congruence | ].
    unfold wanted_betas in Hinc.
    destruct (opus && COMPACTION_ENABLED cfg) eqn:E1;
      destruct (opus && CLEAR_TOOLS_ENABLED cfg) eqn:E2;
      destruct (WEB_FETCH_ENABLED cfg) eqn:E3;
      cbn [andb app] in *;
      repeat match goal with
             | |- context [includes (c :: s) ?f] =>
                 rewrite (Hinc f) by (cbn [In]; auto)
             end;
      reflexivity. }
  unfold add_betas, headers_get in H.
  change (toLowerCase (lit "anthropic-beta")) with (lit "anthropic-beta") in H.
  rewrite Hget in H. destruct before as [|c s] eqn:Eb; [ congruence | ].
  rewrite <- Eb in *.
  set (b1 := opus && COMPACTION_ENABLED cfg
             && negb (includes before COMPACTION_BETA)) in H.
  set (b2 := opus && CLEAR_TOOLS_ENABLED cfg
             && negb (includes before CONTEXT_MGMT_BETA)) in H.
  set (b3 := WEB_FETCH_ENABLED cfg
             && negb (includes before WEB_FETCH_BETA)) in H.
  set (L := (if b1 then [COMPACTION_BETA] else [])
            ++ (if b2 then [CONTEXT_MGMT_BETA] else [])
            ++ (if b3 then [WEB_FETCH_BETA] else [])).
  assert (HL : (if b3
                then (if b2
                      then (if b1 then [] ++ [COMPACTION_BETA] else [])
                           ++ [CONTEXT_MGMT_BETA]
                      else if b1 then [] ++ [COMPACTION_BETA] else [])
                     ++ [WEB_FETCH_BETA]
                else if b2
                     then (if b1 then [] ++ [COMPACTION_BETA] else [])
                          ++ [CONTEXT_MGMT_BETA]
                     else if b1 then [] ++ [COMPACTION_BETA] else []) = L)
    by (unfold L; destruct b1, b2, b3; reflexivity).
  rewrite HL in H.
  assert (Hwanted : forall f, In f (wanted_betas cfg opus) ->
                              includes before f = true \/ In f L).
  { intros f Hf. unfold wanted_betas in Hf.
    apply in_app_or in Hf. destruct Hf as [Hf | Hf];
      [ | apply in_app_or in Hf; destruct Hf as [Hf | Hf] ].
    - destruct (opus && COMPACTION_ENABLED cfg) eqn:E1; [ | destruct Hf ].
      destruct Hf as [<- | []].
      destruct (includes before COMPACTION_BETA) eqn:Ei; [ now left | right ].
      unfold L, b1. cbn [andb negb]. apply in_or_app. left. now left.
    - destruct (opus && CLEAR_TOOLS_ENABLED cfg) eqn:E2; [ | destruct Hf ].
      destruct Hf as [<- | []].
      destruct (includes before CONTEXT_MGMT_BETA) eqn:Ei;
        [ now left | right ].
      unfold L, b2. cbn [andb negb]. apply in_or_app. right.
      apply in_or_app. left. now left.
    - destruct (WEB_FETCH_ENABLED cfg) eqn:E3; [ | destruct Hf ].
      destruct Hf as [<- | []].
      destruct (includes before WEB_FETCH_BETA) eqn:Ei; [ now left | right ].
      unfold L, b3. cbn [andb negb]. apply in_or_app. right.
      apply in_or_app. right. now left. }
  assert (HLflags : forall f, In f L ->
             In f [COMPACTION_BETA; CONTEXT_MGMT_BETA; WEB_FETCH_BETA]).
  { intros f. unfold L. destruct b1, b2, b3; cbn [app In]; tauto. }
  destruct (0 <? length L) eqn:Hlen.
  - rewrite Eb in H. rewrite <- Eb in H.
    destruct (headers_set_lookup _ _ _ _ _ H) as [B1 B2].
    change (toLowerCase (lit "anthropic-beta")) with (lit "anthropic-beta")
      in B1, B2.
    assert (Hc : clean_ends (before ++ COMMA ++ join COMMA L)).
    { apply clean_ends_comma; [ exact Hclean | ].
      apply clean_ends_join. apply Forall_forall. intros f Hf.
      apply feature_betas_clean. now apply HLflags. }
    rewrite (normalize_clean _ Hc) in B1.
    assert (Hinc : forall f, In f (wanted_betas cfg opus) ->
                             includes (before ++ COMMA ++ join COMMA L) f
                             = true).
    { intros f Hf. destruct (Hwanted f Hf) as [Hb | Hin].
      - now apply includes_app_l.
      - apply includes_app_r, includes_app_r. now apply includes_join. }
    exists (before ++ COMMA ++ join COMMA L).
    split; [ exact B1 | ]. split; [ | split; [ exact Hinc | split ] ].
    + apply startsWith_iff. eauto.
    + exact B2.
    + apply (Hagain h' _ B1); [ | exact Hinc ].
      rewrite Eb. discriminate.
  - injection H as <-.
    assert (HLnil : L = [])
      by (destruct L; [ reflexivity | discriminate Hlen ]).
    assert (Hinc : forall f, In f (wanted_betas cfg opus) ->
                             includes before f = true).
    { intros f Hf. destruct (Hwanted f Hf) as [Hb | Hin]; [ exact Hb | ].
      rewrite HLnil in Hin. destruct Hin. }
    exists before. split; [ exact Hget | ].
    split; [ | split; [ exact Hinc | split; [ reflexivity | ] ] ].
    + apply startsWith_iff. exists []. now rewrite app_nil_r.
    + apply (Hagain h before Hget Hne Hinc).
Qed.

End BetaFacts.

(** X22.  After the block that reconciles the beta flags, the
    [anthropic-beta] header of the upstream request includes the flag of
    every enabled feature: [web-fetch-2025-09-10] with the web-fetch
    tool, and for a forwarded model that names Opus also
    [compact-2026-01-12] with compaction and
    [context-management-2025-06-27] with tool-result clearing.  The
    header [buildHeaders] made is kept at the front, no other header
    changes, and running the block again changes nothing. *)
Theorem feature_betas_are_included :
  forall (valid_value : jsstring -> bool) (cfg : config) (opus : bool)
         (incoming : list (jsstring * jsstring)) (token : jsstring)
         (h0 h : Headers),
    buildHeaders valid_value incoming token = Normal h0 ->
    add_betas valid_value cfg opus h0 = Normal h ->
    exists before after : jsstring,
      headers_get h0 (lit "anthropic-beta") = Some before /\
      headers_get h (lit "anthropic-beta") = Some after /\
      startsWith after before = true /\
      (forall f, In f (wanted_betas cfg opus) -> includes after f = true) /\
      (forall name,
          str_eqb (lit "anthropic-beta") (toLowerCase name) = false ->
          headers_get h name = headers_get h0 name) /\
      add_betas valid_value cfg opus h = Normal h.
Proof.
  intros valid_value cfg opus incoming token h0 h Hbuild Hadd.
  destruct (buildHeaders_betas valid_value incoming token h0 Hbuild)
    as (betas & Hget & Hall & _ & Hmem).
  assert (Hclean : clean_ends (join COMMA betas)).
  { apply clean_ends_join. eapply Forall_impl; [ | exact Hall ].
    intros b [Hb _]. exact Hb. }
  assert (Hne : join COMMA betas <> []).
  { intros E.
    assert (Hs : split (join COMMA betas) COMMA = betas).
    { apply (split_join_char 44%N).
      - intros E'. assert (Hr : In (lit "oauth-2025-04-20") betas)
          by (apply Hmem; right; now left).
        rewrite E' in Hr. exact Hr.
      - eapply Forall_impl; [ | exact Hall ]. intros b [_ Hb]. exact Hb. }
    rewrite E in Hs. cbn in Hs.
    assert (Hr : In (lit "oauth-2025-04-20") betas)
      by (apply Hmem; right; now left).
    rewrite <- Hs in Hr. destruct Hr as [Hr | []]. discriminate Hr. }
  destruct (add_betas_spec valid_value cfg opus h0 h _ Hget Hne Hclean Hadd)
    as (after & H1 & H2 & H3 & H4 & H5).
  exists (join COMMA betas), after. unfold headers_get.
  change (toLowerCase (lit "anthropic-beta")) with (lit "anthropic-beta").
  repeat split; auto.
Qed.

Lemma feature_betas_are_included_witness :
  exists (h0 h : Headers) (after : jsstring),
    buildHeaders field_value client_headers (lit "tok-1") = Normal h0 /\
    add_betas field_value default_config true h0 = Normal h /\
    headers_get h (lit "anthropic-beta") = Some after /\
    includes after COMPACTION_BETA = true.
Proof.
  destruct (buildHeaders field_value client_headers (lit "tok-1"))
    as [h0|msg] eqn:E0; [ | vm_compute in E0; discriminate E0 ].
  destruct (add_betas field_value default_config true h0)
    as [h|msg] eqn:E;
    [ | vm_compute in E0; injection E0 as <-; vm_compute in E;
        discriminate E ].
  destruct (feature_betas_are_included field_value default_config true
              client_headers (lit "tok-1") h0 h E0 E)
    as (before & after & _ & H2 & _ & H4 & _).
  exists h0, h, after.
  split; [ reflexivity | ]. split; [ exact E | ]. split; [ exact H2 | ].
  apply H4. left. reflexivity.
Defined.

(* ===================================================================== *)
(** * The system prompt of the client *)
(* ===================================================================== *)

(** [ensureSystem] keeps the blocks of the client in their order; it puts
    at most the identity block in front of them and at most its own block
    behind the first block of the result. *)
Lemma ensureSystem_layout custom body body' :
  ensureSystem custom body = Normal body' ->
  exists (front k1 mid k2 : list value) (named : list (jsstring * value)),
    own body' (lit "system") = Some (VArr (front ++ k1 ++ mid ++ k2) named) /\
    sent_system body = k1 ++ k2 /\
    (front = [] \/ front = [text_block CC_SYSTEM]) /\
    (mid = [] \/ exists text, custom = Some text /\ mid = [proxy_block text] /\
                length (front ++ k1) = 1).
Proof.
  intros H. unfold ensureSystem in H. inv_bind H. inv_bind H.
  destruct (own a0 (lit "system")) as [[| | | |items named|]|] eqn:Hsys;
    inv_normal.
  inv_bind H. inv_bind H.
  assert (Hsent : sent_system body = items).
  { unfold sent_system.
    assert (Hm : a = own body (lit "system"))
      by (destruct body; cbn [member] in Ha; inv_normal; reflexivity).
    rewrite <- Hm.
    destruct (negb (truthy_opt a)) eqn:Ht.
    - pose proof (own_set_member_same _ _ _ _ Ha0 eq_refl) as Hs.
      rewrite Hs in Hsys. unfold arr in Hsys.
      assert (items = []) by congruence. subst items.
      destruct a as [[| | |[|c s]| |]|]; cbn in Ht; try discriminate Ht;
        reflexivity.
    - destruct a as [[| | |s| |]|]; cbn in Ht; try discriminate Ht;
        inv_normal; try congruence.
      pose proof (own_set_member_same _ _ _ _ Ha0 eq_refl) as Hs.
      rewrite Hs in Hsys. unfold arr in Hsys.
      destruct s as [|c s]; [ discriminate Ht | ]. congruence. }
  pose proof (own_set_member_same _ _ _ _ H eq_refl) as Hown.
  rewrite Hsent.
  set (front := if a1 then [] else [text_block CC_SYSTEM]).
  assert (Hfront : (if a1 then items
                    else unshift (text_block CC_SYSTEM) items)
                   = front ++ items) by (unfold front; destruct a1; reflexivity).
  rewrite Hfront in Ha2.
  assert (Hf : front = [] \/ front = [text_block CC_SYSTEM])
    by (unfold front; destruct a1; auto).
  assert (Hplain : a2 = front ++ items ->
             exists (front k1 mid k2 : list value)
                    (named0 : list (jsstring * value)),
               own body' (lit "system")
               = Some (VArr (front ++ k1 ++ mid ++ k2) named0) /\
               items = k1 ++ k2 /\
               (front = [] \/ front = [text_block CC_SYSTEM]) /\
               (mid = [] \/
                exists text, custom = Some text /\ mid = [proxy_block text] /\
                             length (front ++ k1) = 1)).
  { intros ->. exists front, items, [], [], named.
    cbn [app]. rewrite !app_nil_r. auto. }
  destruct custom as [[|c text]|]; inv_normal; try (now apply Hplain).
  inv_bind Ha2. inv_normal.
  match goal with
  | Hc : some is_proxy_block _ = Normal ?b |- _ =>
      destruct b; [ now apply Hplain | ]
  end.
  clear Hplain. unfold splice_1_0 in Hown.
  set (items := sent_system body) in *.
  destruct a1; unfold front in *; cbn [app] in *.
  - exists [], (firstn 1 items), [proxy_block (c :: text)], (skipn 1 items),
      named.
    cbn [app]. split; [ | split; [ | split; [ auto | right ] ] ].
    + rewrite Hown. reflexivity.
    + symmetry. apply firstn_skipn.
    + eexists. split; [ reflexivity | ]. split; [ reflexivity | ].
      pose proof (some_Normal_true_nonempty _ _ Ha1) as Hne.
      destruct items; [ congruence | reflexivity ].
  - exists [text_block CC_SYSTEM], [], [proxy_block (c :: text)], items, named.
    cbn [app firstn skipn] in *.
    split; [ exact Hown | ]. split; [ reflexivity | ].
    split; [ auto | right ].
    eexists. split; [ reflexivity | ]. split; [ reflexivity | ]. reflexivity.
Qed.

Lemma place_cache_control_system_last body body' items named :
  place_cache_control body = Normal body' ->
  own body (lit "system") = Some (VArr items named) ->
  exists items',
    own body' (lit "system") = Some (VArr items' named) /\
    last_annotated items items'.
Proof.
  intros H Hsys. unfold place_cache_control in H.
  inv_bind H. destruct a as [existing body1].
  assert (H1 : exists items',
             own body1 (lit "system") = Some (VArr items' named) /\
             last_annotated items items').
  { destruct (may_mark (cache_total body) body (lit "system"))
      as [[its nm]|] eqn:Hm; inv_normal.
    - apply may_mark_Some in Hm. destruct Hm as [_ Hown].
      rewrite Hsys in Hown.
      assert (items = its) by congruence. assert (named = nm) by congruence.
      subst its nm.
      inv_bind Ha. destruct a as [marked items']. inv_bind Ha. inv_normal.
      exists items'. split.
      + eapply own_set_member_same; [ eassumption | reflexivity ].
      + eapply mark_last_annotated. eassumption.
    - exists items. split; [ exact Hsys | left; reflexivity ]. }
  destruct H1 as (items' & Hsys1 & Hr). exists items'. split; [ | exact Hr ].
  destruct (may_mark existing body1 (lit "tools")) as [[its nm]|];
    inv_normal; [ | exact Hsys1 ].
  inv_bind H. destruct a as [marked its'].
  rewrite (own_set_member_other _ _ _ _ (lit "system") H eq_refl).
  exact Hsys1.
Qed.

(** X23.  The system prompt of the client comes through the rewriting
    whole and in order.  The resulting [system] is made of the blocks the
    client sent (a string counting as one text block), with at most the
    identity block put in front of them and at most the block of the
    custom prompt put behind the first block of the array; every block
    has its [_proxy] property deleted, and the last one may have
    [cache_control] set.  Nothing else is added, dropped or moved. *)
Theorem client_system_blocks_kept :
  forall (cfg : config) (custom : option jsstring) (body body' : value),
    messagesRelay_body cfg custom body = Normal body' ->
    exists (front k1 mid k2 stripped forwarded_blocks : list value)
           (named : list (jsstring * value)),
      sent_system body = k1 ++ k2 /\
      (front = [] \/ front = [text_block CC_SYSTEM]) /\
      (mid = [] \/
       exists text, custom = Some text /\ mid = [proxy_block text] /\
                    length (front ++ k1) = 1) /\
      delete_proxy (front ++ k1 ++ mid ++ k2) = Normal stripped /\
      last_annotated stripped forwarded_blocks /\
      own body' (lit "system") = Some (VArr forwarded_blocks named).
Proof.
  intros cfg custom body body' H. unfold messagesRelay_body in H.
  inv_bind H. inv_bind H. inv_bind H. inv_bind H. inv_bind H. inv_bind H.
  destruct (ensureSystem_layout _ _ _ Ha)
    as (front & k1 & mid & k2 & named & Hs0 & Hsent & Hfront & Hmid).
  rewrite <- (keeps_strip_model_suffix (lit "system") eq_refl _ _ Ha0) in Hs0.
  unfold strip_markers in Ha1. rewrite Hs0 in Ha1. inv_bind Ha1.
  pose proof (own_set_member_same _ _ _ _ Ha1 eq_refl) as Hs1.
  assert (H2 : exists items2,
             own a2 (lit "system") = Some (VArr items2 named) /\
             last_annotated a5 items2).
  { destruct (CACHE_ENABLED cfg); inv_normal.
    - eapply place_cache_control_system_last; eassumption.
    - exists a5. split; [ exact Hs1 | left; reflexivity ]. }
  destruct H2 as (items2 & Hs2 & Hr2).
  exists front, k1, mid, k2, a5, items2, named.
  repeat split; auto.
  rewrite (keeps_inject_web_fetch (lit "system") cfg eq_refl _ _ H).
  rewrite (keeps_manage_context (lit "system") cfg eq_refl _ _ Ha4).
  rewrite (keeps_override_max_tokens (lit "system") cfg eq_refl _ _ Ha3).
  exact Hs2.
Qed.

(** A client prompt of two blocks, a custom prompt configured. *)
Lemma client_system_blocks_kept_witness :
  exists (body' : value) (forwarded_blocks : list value)
         (named : list (jsstring * value)),
    messagesRelay_body default_config (Some (lit "Be brief."))
      (obj [("system"%string,
             arr [text_block (lit "Be kind."); text_block (lit "Be fair.")])])
    = Normal body' /\
    own body' (lit "system") = Some (VArr forwarded_blocks named) /\
    length forwarded_blocks = 4.
Proof.
  destruct (messagesRelay_body default_config (Some (lit "Be brief."))
              (obj [("system"%string,
                     arr [text_block (lit "Be kind.");
                          text_block (lit "Be fair.")])]))
    as [body'|msg] eqn:E; [ | vm_compute in E; discriminate E ].
  destruct (client_system_blocks_kept default_config (Some (lit "Be brief."))
              _ body' E)
    as (front & k1 & mid & k2 & stripped & fwd & named & _ & _ & _ & _ & _ & Hown).
  exists body', fwd, named. split; [ reflexivity | ]. split; [ exact Hown | ].
  vm_compute in E. injection E as <-. vm_compute in Hown.
  injection Hown as <- _. reflexivity.
Defined.

(* ===================================================================== *)
(** * Requests the relay accepts *)
(* ===================================================================== *)























